(** * go-scim: multi-valued properties and the projection-aware JSON serializer

    A shallow embedding of [pkg/core/prop/multi.go] (the multi-valued
    property) and of the JSON serializer of package [json], with the
    properties the specification states about them.

    Conventions.  Go's [uint64], [int], [byte] and [rune] are integers of
    [Z], with the wrap-around written where the code can wrap; a [[]byte] is
    a [list Z], and so is a Go [string] where the code indexes it ([bytes]
    gives the bytes of a string); [float64] is the primitive [float];
    [interface{}] is the tagged union [value]; a Go interface is a type
    class; a function that can panic returns an [outcome]; a method that
    mutates its receiver returns the new receiver. *)

From Stdlib Require Import ZArith Floats Ascii String.
From stdpp Require Import base list strings sorting pretty.

Set Warnings "-register-all,-inexact-float".
Local Open Scope Z_scope.

(** ** Values, errors and panics *)

(** Go's [interface{}], restricted to the dynamic types that reach the code
    modelled here. *)
Inductive value : Type :=
| VNil
| VBool (b : bool)
| VInt (i : Z)
| VInt64 (i : Z)
| VFloat64 (f : float)
| VString (s : string)
| VSeq (vs : list value)
| VMap (kvs : list (string * value)).

(** [v != nil]. *)
Definition nonNil (v : value) : bool :=
  match v with VNil => false | _ => true end.

Module errors.

(** Modelled from the spec: package [errors] is not among the sources.  The
    kinds are the rows of the table of section 7; a constructor of the
    package builds an error of the kind it is named after and keeps the
    format string with its arguments. *)
Inductive kind : Type :=
| invalidSyntax | invalidValue | invalidPath | invalidRequest | noTarget
| mutabilityViolation | uniqueness | preConditionFailed
| incompatibleOperation | internal.

Record error : Type := mkError {
  errKind : kind;
  errFormat : string;
  errArgs : list value
}.

Definition Internal (format : string) (args : list value) : error :=
  mkError internal format args.
Definition InvalidRequest (format : string) (args : list value) : error :=
  mkError invalidRequest format args.
Definition InvalidValue (format : string) (args : list value) : error :=
  mkError invalidValue format args.

End errors.

(** What a [panic] carries: a string, an error value, or a run-time error
    raised by the language itself (index out of range, failed type
    assertion). *)
Inductive panicValue : Type :=
| PanicString (msg : string)
| PanicError (e : errors.error)
| PanicRuntime (msg : string).

(** How a call ends: it returns, it panics, or the bound on the iterations
    of a loop of the model ran out before the loop finished. *)
Inductive outcome (A : Type) : Type :=
| Return (a : A)
| Panic (v : panicValue)
| OutOfFuel.
Arguments Return {A} a.
Arguments Panic {A} v.
Arguments OutOfFuel {A}.

(** A method that may change its receiver of type [S] and may panic. *)
Definition M (S A : Type) : Type := S -> outcome (A * S).

Definition ret {S A : Type} (a : A) : M S A := fun s => Return (a, s).
Definition bind {S A B : Type} (m : M S A) (k : A -> M S B) : M S B :=
  fun s =>
    match m s with
    | Return (a, s') => k a s'
    | Panic v => Panic v
    | OutOfFuel => OutOfFuel
    end.
Definition panic {S A : Type} (v : panicValue) : M S A := fun _ => Panic v.

Declare Scope go_scope.
Delimit Scope go_scope with go.
Notation "'do' x <- m ;; k" := (bind m (fun x => k))
  (at level 10, x name, m at level 99, k at level 200) : go_scope.
Notation "'run' m ;; k" := (bind m (fun _ => k))
  (at level 10, m at level 99, k at level 200) : go_scope.

(** ** Package core: attributes and the Property interface *)

Module core.

Inductive Type_ : Type :=
| TypeString | TypeInteger | TypeDecimal | TypeBoolean
| TypeReference | TypeBinary | TypeDateTime | TypeComplex.

Inductive Mutability_ : Type :=
| MutabilityReadWrite | MutabilityReadOnly
| MutabilityImmutable | MutabilityWriteOnly.

Inductive Returned_ : Type :=
| ReturnedDefault | ReturnedAlways | ReturnedRequest | ReturnedNever.

(** The schema node of section 3.1, with the fields the modelled code
    reads. *)
Record Attribute : Type := mkAttribute {
  ID : string;
  Name : string;
  Path : string;
  Type_of : Type_;
  MultiValued : bool;
  Mutability : Mutability_;
  Returned : Returned_;
  Annotations : list string
}.

(** Modelled from the spec: [NewElementAttribute] is declared outside the
    sources.  Section 3.1: the element attribute has the same type (and the
    same ID), [multiValued = false], plus the given annotations. *)
Definition NewElementAttribute (a : Attribute) (annotations : list string)
  : Attribute :=
  mkAttribute (ID a) (Name a) (Path a) (Type_of a) false
              (Mutability a) (Returned a) (Annotations a ++ annotations).

(** The part of the [core.Property] interface that [multi.go] calls on the
    elements of a multi-valued property.  [Replace] mutates its receiver
    and returns an error or [nil] ([inl]), or panics ([inr]). *)
Class Property (E : Type) : Type := {
  Attribute_of : E -> Attribute;
  IsUnassigned : E -> bool;
  Hash : E -> Z;
  Matches : E -> E -> bool;
  Replace : E -> value -> E * option errors.error + panicValue
}.

(** Two further methods of the interface, which [Raw] and [EqualsTo] of
    the multi-valued property call on its elements. *)
Class Evaluation (E : Type) : Type := {
  Raw : E -> value;
  EqualsTo : E -> value -> bool * option errors.error
}.

End core.

(** ** Go's hash/fnv (64-bit FNV-1a) and encoding/binary *)

Module fnv.

Definition offset64 : Z := 14695981039346656037.
Definition prime64 : Z := 1099511628211.

Definition New64a : Z := offset64.

(** [for _, c := range data { hash ^= c; hash *= prime64 }] on [uint64]. *)
Definition Write (hash : Z) (data : list Z) : Z :=
  foldl (fun hash c => (Z.lxor hash c * prime64) mod 2 ^ 64) hash data.

Definition Sum64 (hash : Z) : Z := hash.

End fnv.

Module binary.

(** [binary.LittleEndian.PutUint64(b, v)]: the eight bytes of [v], least
    significant first. *)
Definition PutUint64 (v : Z) : list Z :=
  map (fun k => Z.shiftr v (8 * k) mod 256) [0; 1; 2; 3; 4; 5; 6; 7].

End binary.

(** ** Package prop: the multi-valued property *)

Module prop.

Import core.

(** The constructors of the element properties live in sibling files of
    the package; [newElementProperty] picks one by attribute type. *)
Class ElementFactory (E : Type) : Type := {
  NewString : Attribute -> E;
  NewInteger : Attribute -> E;
  NewDecimal : Attribute -> E;
  NewBoolean : Attribute -> E;
  NewReference : Attribute -> E;
  NewBinary : Attribute -> E;
  NewDateTime : Attribute -> E;
  NewComplex : Attribute -> E
}.

Definition StateSummary : string := "@StateSummary".

Section multi.

Context {E : Type} `{!Property E} `{!ElementFactory E}.

(** [multiValuedProperty].  The parent link and the subscribers take no
    part in the operations below and are left out. *)
Record multiValuedProperty : Type := mkMulti {
  attr : Attribute;
  elements : list E;
  touched : bool
}.

Definition setElements (p : multiValuedProperty) (els : list E)
  : multiValuedProperty :=
  mkMulti (attr p) els (touched p).

Definition Attribute (p : multiValuedProperty) : core.Attribute := attr p.

Definition IsUnassigned (p : multiValuedProperty) : bool :=
  bool_decide (length (elements p) = 0%nat).

Definition CountChildren (p : multiValuedProperty) : Z :=
  Z.of_nat (length (elements p)).

(** [ForEachChild] with a callback that threads an accumulator and never
    fails. *)
Definition ForEachChild {A : Type} (p : multiValuedProperty)
           (callback : A -> nat -> E -> A) (acc : A) : A :=
  fst (foldl (fun '(acc, i) elem => (callback acc i elem, S i))
             (acc, 0%nat) (elements p)).

(** The inner loop of [Hash]:
    [for i := len(hashes) - 1; i > 0; i-- { if hashes[i-1] > hashes[i] { swap } }].
    The first argument is the loop variable [i]. *)
Fixpoint sift (i : nat) (hashes : list Z) : list Z :=
  match i with
  | O => hashes
  | S j =>
      match hashes !! j, hashes !! i with
      | Some a, Some b =>
          sift j (if a >? b then <[j:=b]> (<[i:=a]> hashes) else hashes)
      | _, _ => hashes
      end
  end.

(** The callback of [Hash]: skip an unassigned child, else append its
    hash and let it sink to its place. *)
Definition gather (hashes : list Z) (index : nat) (child : E) : list Z :=
  if core.IsUnassigned child then hashes
  else
    let hashes := hashes ++ [core.Hash child] in
    sift (length hashes - 1) hashes.

Definition gathered (p : multiValuedProperty) : list Z :=
  ForEachChild p gather [].

(** [Hash].  The [Write] of an FNV hash returns no error, so the panic
    that guards it is never raised. *)
Definition Hash (p : multiValuedProperty) : Z :=
  if bool_decide (length (elements p) = 0%nat) then 0
  else
    let hashes := gathered p in
    let h := foldl (fun h hash => fnv.Write h (binary.PutUint64 hash))
                   fnv.New64a hashes in
    fnv.Sum64 h.

(** [Matches]: same attribute, and both empty or equal hashes.
    [Equals] on attributes is taken as a parameter. *)
Definition Matches (Equals : core.Attribute -> core.Attribute -> bool)
           (p another : multiValuedProperty) : bool :=
  if negb (Equals (Attribute p) (Attribute another)) then false
  else if bool_decide (length (elements p) = 0%nat)
       then bool_decide (length (elements another) = 0%nat)
       else bool_decide (Hash p = Hash another).

Definition errIncompatibleValue (p : multiValuedProperty) (v : value)
  : errors.error :=
  errors.InvalidValue "%v is incompatible with attribute '%s'"
                      [v; VString (Path (attr p))].

Definition errIncompatibleOp (p : multiValuedProperty) : errors.error :=
  errors.Internal "incompatible operation" [].

(** The relational predicates return the pair [(bool, error)]. *)
Definition StartsWith (p : multiValuedProperty) (v : string)
  : bool * option errors.error := (false, Some (errIncompatibleOp p)).
Definition EndsWith (p : multiValuedProperty) (v : string)
  : bool * option errors.error := (false, Some (errIncompatibleOp p)).
Definition Contains (p : multiValuedProperty) (v : string)
  : bool * option errors.error := (false, Some (errIncompatibleOp p)).
Definition GreaterThan (p : multiValuedProperty) (v : value)
  : bool * option errors.error := (false, Some (errIncompatibleOp p)).
Definition LessThan (p : multiValuedProperty) (v : value)
  : bool * option errors.error := (false, Some (errIncompatibleOp p)).

Definition Present (p : multiValuedProperty) : bool :=
  bool_decide (0 < length (elements p))%nat.

(** [newElementProperty] returns the pair [(prop, err)].  Either [prop]
    is the new property and [err] is what its [Replace] returned ([inl]),
    or the deferred [recover] caught a panic of [Replace] and set
    [prop = nil, err = errIncompatibleValue] ([inr]).  The panic
    ["invalid type"] is swallowed by the same [recover] without touching
    the named results: the property as constructed and no error.
    [Type_] has the eight kinds only, so the [default] arm of the switch
    has no counterpart. *)
Definition newElementProperty (p : multiValuedProperty) (singleValue : value)
  : E * option errors.error + errors.error :=
  let a := Attribute p in
  let prop :=
    match Type_of a with
    | TypeString => NewString (NewElementAttribute a [])
    | TypeInteger => NewInteger (NewElementAttribute a [])
    | TypeDecimal => NewDecimal (NewElementAttribute a [])
    | TypeBoolean => NewBoolean (NewElementAttribute a [])
    | TypeReference => NewReference (NewElementAttribute a [])
    | TypeBinary => NewBinary (NewElementAttribute a [])
    | TypeDateTime => NewDateTime (NewElementAttribute a [])
    | TypeComplex => NewComplex (NewElementAttribute a [StateSummary])
    end in
  match singleValue with
  | VNil => inl (prop, None)
  | _ =>
      match core.Replace prop singleValue with
      | inl (prop', err) => inl (prop', err)
      | inr (PanicString "invalid type") => inl (prop, None)
      | inr _ => inr (errIncompatibleValue p singleValue)
      end
  end.

(** The first half of [Add] on a sequence: one candidate per element
    that is not [nil], stopping at the first error. *)
Fixpoint candidates (p : multiValuedProperty) (toAdd : list E)
         (val : list value) : list E + errors.error :=
  match val with
  | [] => inl toAdd
  | VNil :: val => candidates p toAdd val
  | v :: val =>
      match newElementProperty p v with
      | inl (p0, None) => candidates p (toAdd ++ [p0]) val
      | inl (_, Some err) | inr err => inr err
      end
  end.

(** The second half of [Add], one candidate: append it unless an
    existing element matches it. *)
Definition addUnlessMatched (p : multiValuedProperty) (eachToAdd : E)
  : multiValuedProperty :=
  if existsb (fun elem => core.Matches elem eachToAdd) (elements p)
  then p
  else mkMulti (attr p) (elements p ++ [eachToAdd]) true.

(** The block of [Add] that turns [value] into the properties to add. *)
Definition toAdd (p : multiValuedProperty) (v : value)
  : list E + errors.error :=
  match v with
  | VSeq val => candidates p [] val
  | val =>
      match newElementProperty p val with
      | inl (p0, None) => inl [p0]
      | inl (_, Some err) | inr err => inr err
      end
  end.

Definition Add (p : multiValuedProperty) (v : value)
  : multiValuedProperty * option errors.error :=
  match v with
  | VNil => (p, None)
  | _ =>
      match toAdd p v with
      | inr err => (p, Some err)
      | inl [] => (p, None)
      | inl toAdd => (foldl addUnlessMatched p toAdd, None)
      end
  end.

Definition Delete (p : multiValuedProperty)
  : multiValuedProperty * option errors.error :=
  (mkMulti (attr p) [] true, None).

(** [ChildAtIndex] returns a property or [nil]; indexing the slice with
    an [i] outside [0 <= i < len] is a run-time panic. *)
Definition ChildAtIndex (p : multiValuedProperty) (index : value)
  : outcome (option E) :=
  match index with
  | VInt i =>
      if Z.of_nat (length (elements p)) <=? i then Return None
      else if i <? 0 then Panic (PanicRuntime "index out of range")
      else Return (elements p !! Z.to_nat i)
  | _ => Return None
  end.

(** [NewMulti] panics unless the attribute is multi-valued.  The
    subscribers it registers are left out with the field that holds
    them. *)
Definition NewMulti (attr : core.Attribute) : outcome multiValuedProperty :=
  if negb (MultiValued attr)
  then Panic (PanicString "invalid attribute for multiValued property")
  else Return (mkMulti attr [] false).

(** [NewMultiOf]: [NewMulti], then [Add], whose error becomes a panic. *)
Definition NewMultiOf (attr : core.Attribute) (v : value)
  : outcome multiValuedProperty :=
  match NewMulti attr with
  | Return p =>
      match Add p v with
      | (_, Some err) => Panic (PanicError err)
      | (p, None) => Return p
      end
  | Panic v => Panic v
  | OutOfFuel => OutOfFuel
  end.

(** [Replace] is [Delete], then [Add].  The deferred [recover] turns a
    panic of either into [errIncompatibleValue]; neither [Delete] nor [Add]
    panics here, [Add] having recovered from its elements' panics in
    [newElementProperty]. *)
Definition Replace (p : multiValuedProperty) (v : value)
  : multiValuedProperty * option errors.error :=
  match Delete p with
  | (p, Some err) => (p, Some err)
  | (p, None) => Add p v
  end.

Definition Touched (p : multiValuedProperty) : bool := touched p.

(** [NewChild] returns the index of the new element, or [-1]. *)
Definition NewChild (p : multiValuedProperty) : multiValuedProperty * Z :=
  match newElementProperty p VNil with
  | inl (c, None) =>
      let p := mkMulti (attr p) (elements p ++ [c]) (touched p) in
      (p, Z.of_nat (length (elements p)) - 1)
  | inl (_, Some _) | inr _ => (p, -1)
  end.

(** One turn of the loop of [Compact], at index [i]: an unassigned
    element is cut out, by one of three slice expressions. *)
Definition compactAt (i : nat) (elements : list E) : outcome (list E) :=
  match elements !! i with
  | None => Panic (PanicRuntime "index out of range")
  | Some e =>
      if core.IsUnassigned e then
        if bool_decide (i = (length elements - 1)%nat)
        then Return (take i elements)
        else if bool_decide (i = 0%nat)
             then Return (drop (i + 1) elements)
             else Return (take i elements ++ drop (i + 1) elements)
      else Return elements
  end.

(** The loop [for i = len(p.elements) - 1; i >= 0; i--] of [Compact]; the
    first argument is [i + 1]. *)
Fixpoint compactFrom (n : nat) (elements : list E) : outcome (list E) :=
  match n with
  | O => Return elements
  | S i =>
      match compactAt i elements with
      | Return elements => compactFrom i elements
      | Panic v => Panic v
      | OutOfFuel => OutOfFuel
      end
  end.

Definition Compact (p : multiValuedProperty) : outcome multiValuedProperty :=
  if bool_decide (length (elements p) = 0%nat) then Return p
  else
    match compactFrom (length (elements p)) (elements p) with
    | Return els => Return (setElements p els)
    | Panic v => Panic v
    | OutOfFuel => OutOfFuel
    end.

Context `{!Evaluation E}.

(** [Raw]: [nil] without elements, else the raw values of the elements. *)
Definition Raw (p : multiValuedProperty) : value :=
  if bool_decide (length (elements p) = 0%nat) then VNil
  else VSeq (map core.Raw (elements p)).

(** The loop of [EqualsTo]: the first element that reports equality
    without an error ends it. *)
Fixpoint anyEqualsTo (elements : list E) (v : value)
  : bool * option errors.error :=
  match elements with
  | [] => (false, None)
  | elem :: elements =>
      match core.EqualsTo elem v with
      | (true, None) => (true, None)
      | _ => anyEqualsTo elements v
      end
  end.

Definition EqualsTo (p : multiValuedProperty) (v : value)
  : bool * option errors.error :=
  anyEqualsTo (elements p) v.

End multi.

Arguments multiValuedProperty E : clear implicits.

End prop.

(** ** Bytes and strings *)

(** The bytes of a Go string. *)
Definition bytes (s : string) : list Z :=
  map (fun a => Z.of_N (N_of_ascii a)) (list_ascii_of_string s).

(** A JSON text written with single quotes where the bytes have double
    quotes. *)
Definition quoted (s : string) : list Z :=
  map (fun c => if c =? 39 then 34 else c) (bytes s).

(** ** Go's unicode/utf8 and strconv *)

Module utf8.

Definition RuneSelf : Z := 0x80.
Definition RuneError : Z := 0xFFFD.

Definition maskx : Z := 0x3F.
Definition mask2 : Z := 0x1F.
Definition mask3 : Z := 0x0F.
Definition mask4 : Z := 0x07.
Definition locb : Z := 0x80.
Definition hicb : Z := 0xBF.

Definition xx : Z := 0xF1.
Definition as_ : Z := 0xF0.
Definition s1 : Z := 0x02.
Definition s2 : Z := 0x13.
Definition s3 : Z := 0x03.
Definition s4 : Z := 0x23.
Definition s5 : Z := 0x34.
Definition s6 : Z := 0x04.
Definition s7 : Z := 0x44.

(** The table [first], by ranges of the first byte. *)
Definition first (b : Z) : Z :=
  if b <? 0x80 then as_
  else if b <? 0xC2 then xx
  else if b <? 0xE0 then s1
  else if b =? 0xE0 then s2
  else if b <? 0xED then s3
  else if b =? 0xED then s4
  else if b <? 0xF0 then s3
  else if b =? 0xF0 then s5
  else if b <? 0xF4 then s6
  else if b =? 0xF4 then s7
  else xx.

(** The table [acceptRanges], as the pair [(lo, hi)]. *)
Definition acceptRanges (k : Z) : Z * Z :=
  if k =? 0 then (locb, hicb)
  else if k =? 1 then (0xA0, hicb)
  else if k =? 2 then (locb, 0x9F)
  else if k =? 3 then (0x90, hicb)
  else if k =? 4 then (locb, 0x8F)
  else (0, 0).

(** [DecodeRuneInString].  Where the source builds a mask from the low
    bit of [x] to tell ASCII ([as]) from an invalid first byte ([xx]), the
    two cases are written out.  After the test [n < sz] the bytes [s[1]],
    [s[2]] and [s[3]] exist where they are read: the arms for a shorter
    string are never taken. *)
Definition DecodeRuneInString (s : list Z) : Z * Z :=
  match s with
  | [] => (RuneError, 0)
  | s0 :: rest =>
      let x := first s0 in
      if as_ <=? x then
        (if x =? as_ then s0 else RuneError, 1)
      else
        let sz := Z.land x 7 in
        let accept := acceptRanges (Z.shiftr x 4) in
        if Z.of_nat (length s) <? sz then (RuneError, 1)
        else
          match rest with
          | [] => (RuneError, 1)
          | s1 :: rest =>
              if (s1 <? fst accept) || (snd accept <? s1) then (RuneError, 1)
              else if sz <=? 2 then
                (Z.lor (Z.shiftl (Z.land s0 mask2) 6) (Z.land s1 maskx), 2)
              else
                match rest with
                | [] => (RuneError, 1)
                | s2 :: rest =>
                    if (s2 <? locb) || (hicb <? s2) then (RuneError, 1)
                    else if sz <=? 3 then
                      (Z.lor (Z.lor (Z.shiftl (Z.land s0 mask3) 12)
                                    (Z.shiftl (Z.land s1 maskx) 6))
                             (Z.land s2 maskx), 3)
                    else
                      match rest with
                      | [] => (RuneError, 1)
                      | s3 :: _ =>
                          if (s3 <? locb) || (hicb <? s3) then (RuneError, 1)
                          else
                            (Z.lor (Z.lor (Z.lor
                               (Z.shiftl (Z.land s0 mask4) 18)
                               (Z.shiftl (Z.land s1 maskx) 12))
                               (Z.shiftl (Z.land s2 maskx) 6))
                               (Z.land s3 maskx), 4)
                      end
                end
          end
  end.

End utf8.

Module strconv.

(** [strconv.AppendInt(dst, i, 10)]. *)
Definition AppendInt (dst : list Z) (i : Z) : list Z := dst ++ bytes (pretty i).

(** [strconv.AppendFloat(dst, f, fmt, prec, bitSize)] prints the shortest
    decimal that reads back as [f]; it is taken as given. *)
Class Formatter : Type := {
  AppendFloat : list Z -> float -> Z -> Z -> Z -> list Z
}.

End strconv.

(** ** Package expr: compiled paths and path families *)

Module expr.

(** Modelled from the spec: package [expr] is not among the sources.
    Section 3.4: a compiled path is the sequence of attribute IDs from the
    root to a target; Go's [nil] path is the empty sequence. *)
Definition Path : Type := list string.

(** [CompilePath] returns the pair [(path, err)]; it is taken as given. *)
Class Compiler : Type := {
  CompilePath : string -> Path * option errors.error
}.

(** Modelled from the spec: section 4.5, [MustPath(id)] is the interned
    result of compiling an attribute ID; by the convention of its name it
    panics with the error when the ID does not compile. *)
Definition MustPath `{!Compiler} (id : string) : outcome Path :=
  match CompilePath id with
  | (p, None) => Return p
  | (_, Some err) => Panic (PanicError err)
  end.

(** Modelled from the spec: section 3.4, a family bound to a resource type
    holds a set of included compiled paths. *)
Record PathAncestry : Type := mkFamily {
  resourceType : string;
  members : list Path
}.

Definition NewPathFamily (resourceType : string) : PathAncestry :=
  mkFamily resourceType [].

Definition Add (t : PathAncestry) (p : Path) : PathAncestry :=
  mkFamily (resourceType t) (members t ++ [p]).

Definition path_eqb (p q : Path) : bool := bool_decide (p = q).

(** [p] is a proper prefix of [q]. *)
Fixpoint properPrefix (p q : Path) : bool :=
  match p, q with
  | [], [] => false
  | [], _ :: _ => true
  | _ :: _, [] => false
  | a :: p', b :: q' => String.eqb a b && properPrefix p' q'
  end.

(** Modelled from the spec: [IsMember(P)], P equals some included path. *)
Definition IsMember (t : PathAncestry) (p : Path) : bool :=
  existsb (fun m => path_eqb m p) (members t).

(** Modelled from the spec: [IsAncestor(P)], some included path is a
    descendant of P. *)
Definition IsAncestor (t : PathAncestry) (p : Path) : bool :=
  existsb (fun m => properPrefix p m) (members t).

(** Modelled from the spec: [IsOffspring(P)], some included path is an
    ancestor of P. *)
Definition IsOffspring (t : PathAncestry) (p : Path) : bool :=
  existsb (fun m => properPrefix m p) (members t).

End expr.

(** ** Property trees and the visitor protocol *)

Module tree.

Import core.
Local Open Scope go_scope.

(** Modelled from the spec: the properties are not among the sources.
    Sections 3.2 and 9: a property is a tagged variant carrying its
    attribute; a simple property holds a raw value ([nil] when unassigned),
    a container (complex or multi-valued, told apart by its attribute) holds
    its children in order.  A complex property is unassigned when all its
    children are, a multi-valued one when it has no elements. *)
Inductive property : Type :=
| Simple (attr : core.Attribute) (raw : value)
| Container (attr : core.Attribute) (children : list property).

Definition Attribute (p : property) : core.Attribute :=
  match p with Simple a _ | Container a _ => a end.

Definition Raw (p : property) : value :=
  match p with Simple _ raw => raw | Container _ _ => VNil end.

Fixpoint IsUnassigned (p : property) : bool :=
  match p with
  | Simple _ raw => negb (nonNil raw)
  | Container a children =>
      if MultiValued a then bool_decide (length children = 0%nat)
      else forallb IsUnassigned children
  end.

Definition children_of (p : property) : list property :=
  match p with Simple _ _ => [] | Container _ children => children end.

(** The [Visitor] interface of section 4.6. *)
Class Visitor (V : Type) : Type := {
  ShouldVisit : V -> property -> outcome bool;
  Visit : property -> M V (option errors.error);
  BeginChildren : property -> M V unit;
  EndChildren : property -> M V unit
}.

(** Modelled from the spec: the traversal is not among the sources.
    Section 4.6: [shouldVisit] is a pre-order gate that skips the whole
    subtree; [visit] comes next, before descending; [beginChildren] and
    [endChildren] bracket the descent into a container, whose children are
    visited in order; an error aborts the traversal. *)
Fixpoint visitProperty {V : Type} `{!Visitor V} (p : property)
  : M V (option errors.error) :=
  fun s =>
    match ShouldVisit s p with
    | Return false => Return (None, s)
    | Return true =>
        (do err <- Visit p ;;
         match err, p with
         | Some e, _ => ret (Some e)
         | None, Simple _ _ => ret None
         | None, Container _ children =>
             run BeginChildren p ;;
             do err <- (fix visitAll (l : list property)
                          : M V (option errors.error) :=
                          match l with
                          | [] => ret None
                          | child :: l =>
                              do err <- visitProperty child ;;
                              match err with
                              | Some e => ret (Some e)
                              | None => visitAll l
                              end
                          end) children ;;
             match err with
             | Some e => ret (Some e)
             | None => run EndChildren p ;; ret None
             end
         end) s
    | Panic v => Panic v
    | OutOfFuel => OutOfFuel
    end.

Fixpoint visitChildren {V : Type} `{!Visitor V} (l : list property)
  : M V (option errors.error) :=
  match l with
  | [] => ret None
  | child :: l =>
      do err <- visitProperty child ;;
      match err with
      | Some e => ret (Some e)
      | None => visitChildren l
      end
  end.

(** Modelled from the spec: [Resource] and [Resource.Visit] are not among
    the sources.  Section 6.3: the traversal starts from the root complex
    property, which has no name of its own (scenario S1): it is bracketed
    by [beginChildren] and [endChildren] without a [visit]. *)
Record Resource : Type := mkResource {
  ResourceType : string;
  root : property
}.

Definition ResourceVisit {V : Type} `{!Visitor V} (r : Resource)
  : M V (option errors.error) :=
  run BeginChildren (root r) ;;
  do err <- visitChildren (children_of (root r)) ;;
  match err with
  | Some e => ret (Some e)
  | None => run EndChildren (root r) ;; ret None
  end.

End tree.

(** ** Package json: the serializer *)

Module json.

Import core tree.

Inductive container : Type := containerObject | containerArray.

Definition container_eqb (a b : container) : bool :=
  match a, b with
  | containerObject, containerObject | containerArray, containerArray => true
  | _, _ => false
  end.

Record frame : Type := mkFrame {
  frameContainer : container;
  index : Z
}.

(** The serializer: the embedded [bytes.Buffer], the two families ([None]
    is [nil]) and the stack, whose top is its last frame.  The scratch
    array only saves allocations and is left out. *)
Record serializer : Type := mkSerializer {
  buffer : list Z;
  includeFamily : option expr.PathAncestry;
  excludeFamily : option expr.PathAncestry;
  stack : list frame
}.

Definition withBuffer (s : serializer) (b : list Z) : serializer :=
  mkSerializer b (includeFamily s) (excludeFamily s) (stack s).
Definition withStack (s : serializer) (st : list frame) : serializer :=
  mkSerializer (buffer s) (includeFamily s) (excludeFamily s) st.

Local Open Scope go_scope.

(** A method of the serializer. *)
Abbreviation M := (M serializer).

Definition WriteByte (c : Z) : M unit :=
  fun s => Return (tt, withBuffer s (buffer s ++ [c])).
Definition WriteString (str : list Z) : M unit :=
  fun s => Return (tt, withBuffer s (buffer s ++ str)).
Definition Write (b : list Z) : M unit := WriteString b.

Definition push (c : container) : M unit :=
  fun s => Return (tt, withStack s (stack s ++ [mkFrame c 0])).

Definition pop : M unit :=
  fun s =>
    match stack s with
    | [] => Panic (PanicString "cannot pop on empty stack")
    | _ => Return (tt, withStack s (removelast (stack s)))
    end.

Definition current : M frame :=
  fun s =>
    match last (stack s) with
    | None => Panic (PanicString "stack is empty")
    | Some f => Return (f, s)
    end.

(** [s.current().index++]: the frame is reached through a pointer and
    changed in place. *)
Definition incrementIndex : M unit :=
  fun s =>
    match last (stack s) with
    | None => Panic (PanicString "stack is empty")
    | Some f =>
        Return (tt, withStack s (removelast (stack s)
                                 ++ [mkFrame (frameContainer f) (index f + 1)]))
    end.

(** *** shouldVisit *)

(** [ShouldVisit] reads the serializer and changes nothing.  [Returned_] has
    the four dispositions only, so the [default] arm of the outer switch
    (a panic on an invalid returned-ability) has no counterpart. *)
Definition ShouldVisit `{!expr.Compiler} (s : serializer) (property : property)
  : outcome bool :=
  let attr := Attribute property in
  match Mutability attr with
  | MutabilityWriteOnly => Return false
  | _ =>
      match Returned attr with
      | ReturnedAlways => Return true
      | ReturnedNever => Return false
      | ReturnedDefault =>
          match includeFamily s, excludeFamily s with
          | None, None => Return (negb (IsUnassigned property))
          | _, _ =>
              match expr.MustPath (ID (Attribute property)) with
              | Return p =>
                  match includeFamily s with
                  | Some family =>
                      Return (expr.IsMember family p
                              || expr.IsAncestor family p
                              || expr.IsOffspring family p)
                  | None =>
                      match excludeFamily s with
                      | Some family =>
                          Return (expr.IsMember family p
                                  || expr.IsOffspring family p)
                      | None =>
                          Panic (PanicString
                            "impossible: either includeFamily or excludeFamily")
                      end
                  end
              | Panic v => Panic v
              | OutOfFuel => OutOfFuel
              end
          end
      | ReturnedRequest =>
          match includeFamily s with
          | Some family =>
              let p := fst (expr.CompilePath (ID (Attribute property))) in
              Return (expr.IsMember family p
                      || expr.IsAncestor family p
                      || expr.IsOffspring family p)
          | None => Return false
          end
      end
  end.

(** *** Literals *)

Definition appendPropertyName (attribute : core.Attribute) : M unit :=
  run WriteByte 34 ;; run WriteString (bytes (Name attribute)) ;;
  run WriteByte 34 ;; WriteByte 58.

Definition appendNull : M unit := WriteString (bytes "null").

Definition appendBoolean (v : bool) : M unit :=
  if v then WriteString (bytes "true") else WriteString (bytes "false").

Definition appendInteger (v : Z) : M unit :=
  Write (strconv.AppendInt [] v).

(** Modelled from the spec: the table [hex] is declared outside the
    sources; section 4.7 writes the escapes with lower-case digits. *)
Definition hex (k : Z) : Z :=
  nth (Z.to_nat k) (bytes "0123456789abcdef") 0.

(** Modelled from the spec: the table [htmlSafeSet] is declared outside
    the sources.  Section 4.7: the bytes written as they are are the ASCII
    bytes from 0x20 on other than the double quote, the backslash and the
    HTML-sensitive [<], [>] and [&]. *)
Definition htmlSafeSet (b : Z) : bool :=
  (0x20 <=? b) && (b <? 0x80)
  && negb ((b =? 34) || (b =? 92) || (b =? 60) || (b =? 62) || (b =? 38)).

(** The text written in place of a byte that starts no UTF-8 sequence:
    the escape of U+FFFD. *)
Definition replacementEscape : list Z := bytes "\ufffd".

(** [value[start:i]]. *)
Definition slice (value : list Z) (start i : nat) : list Z :=
  take (i - start) (drop start value).

(** [if start < i { s.WriteString(value[start:i]) }]. *)
Definition flush (b value : list Z) (start i : nat) : list Z :=
  if bool_decide (start < i)%nat then b ++ slice value start i else b.

(** The escape written for an ASCII byte outside [htmlSafeSet], after
    the backslash. *)
Definition escapeByte (b : Z) : list Z :=
  if (b =? 92) || (b =? 34) then [b]
  else if b =? 10 then [110]
  else if b =? 13 then [114]
  else if b =? 9 then [116]
  else bytes "u00" ++ [hex (Z.shiftr b 4); hex (Z.land b 0xF)].

(** The loop of [appendString] over the buffer [b]; it gives the buffer
    and [start] at the exit of the loop, and nothing when [fuel] iterations
    did not reach the exit. *)
Fixpoint stringLoop (fuel : nat) (value : list Z) (start i : nat)
         (b : list Z) : option (list Z * nat) :=
  if bool_decide (i < length value)%nat then
    match fuel with
    | O => None
    | S fuel =>
        let c0 := nth i value 0 in
        if c0 <? utf8.RuneSelf then
          if htmlSafeSet c0 then stringLoop fuel value start (i + 1) b
          else
            let b := flush b value start i in
            let b := b ++ [92] in
            let b := b ++ escapeByte c0 in
            stringLoop fuel value (i + 1) (i + 1) b
        else
          let '(c, size) := utf8.DecodeRuneInString (drop i value) in
          if (c =? utf8.RuneError) && (size =? 1) then
            let b := flush b value start i in
            let b := b ++ replacementEscape in
            stringLoop fuel value (i + Z.to_nat size) (i + Z.to_nat size) b
          else if (c =? 0x2028) || (c =? 0x2029) then
            let b := flush b value start i in
            let b := b ++ bytes "\u202" in
            let b := b ++ [hex (Z.land c 0xF)] in
            stringLoop fuel value (i + Z.to_nat size) (i + Z.to_nat size) b
          else stringLoop fuel value start (i + Z.to_nat size) b
    end
  else Some (b, start).

(** [appendString] on the buffer: the opening quote, the loop (which
    takes at most one iteration per byte), the rest of the string and the
    closing quote. *)
Definition appendStringTo (b : list Z) (value : list Z) : option (list Z) :=
  let b := b ++ [34] in
  match stringLoop (length value) value 0 0 b with
  | None => None
  | Some (b, start) =>
      let b := if bool_decide (start < length value)%nat
               then b ++ drop start value else b in
      Some (b ++ [34])
  end.

Definition appendString (value : string) : M unit :=
  fun s =>
    match appendStringTo (buffer s) (bytes value) with
    | Some b => Return (tt, withBuffer s b)
    | None => OutOfFuel
    end.

(** The format [appendFloat] asks of [strconv.AppendFloat]: ['f'] (102) or
    ['e'] (101).  The float constants are [1e-6] and [1e21]. *)
Definition floatFormat (value : float) : Z :=
  let abs := PrimFloat.abs value in
  if negb (PrimFloat.eqb abs 0)
  then if PrimFloat.ltb abs 0x1.0c6f7a0b5ed8dp-20
          || PrimFloat.leb 0x1.b1ae4d6e2ef5p+69 abs
       then 101 else 102
  else 102.

(** [// clean up e-09 to e-9]. *)
Definition cleanExponent (b : list Z) : list Z :=
  let n := length b in
  if bool_decide (4 <= n)%nat
     && (nth (n - 4) b 0 =? 101) && (nth (n - 3) b 0 =? 45)
     && (nth (n - 2) b 0 =? 48)
  then take (n - 1) (<[(n - 2)%nat := nth (n - 1) b 0]> b)
  else b.

Definition appendFloat `{!strconv.Formatter} (value : float) : M unit :=
  if PrimFloat.is_infinity value || PrimFloat.is_nan value
  then panic (PanicError (errors.Internal "%f is not a valid decimal"
                                          [VFloat64 value]))
  else
    let format := floatFormat value in
    let b := strconv.AppendFloat [] value format (-1) 64 in
    let b := if format =? 101 then cleanExponent b else b in
    Write b.

(** *** The visitor callbacks *)

Definition Visit `{!strconv.Formatter} (property : property)
  : M (option errors.error) :=
  do f <- current ;;
  run (if 0 <? index f then WriteByte 44 else ret tt) ;;
  do f <- current ;;
  run (if negb (container_eqb (frameContainer f) containerArray)
       then appendPropertyName (Attribute property) else ret tt) ;;
  match property with
  | Container _ _ => ret None
  | Simple attr raw =>
      if IsUnassigned property then run appendNull ;; ret None
      else
        run match Type_of attr, raw with
        | (TypeString | TypeReference | TypeDateTime | TypeBinary), VString v =>
            appendString v
        | TypeInteger, VInt64 v => appendInteger v
        | TypeDecimal, VFloat64 v => appendFloat v
        | TypeBoolean, VBool v => appendBoolean v
        | TypeComplex, _ => panic (PanicString "invalid type")
        | _, _ => panic (PanicRuntime "interface conversion")
        end ;;
        run incrementIndex ;;
        ret None
  end.

Definition BeginChildren (c : property) : M unit :=
  if MultiValued (Attribute c) then run WriteByte 91 ;; push containerArray
  else
    match Type_of (Attribute c) with
    | TypeComplex => run WriteByte 123 ;; push containerObject
    | _ => panic (PanicString "unknown container")
    end.

Definition EndChildren (c : property) : M unit :=
  run (if MultiValued (Attribute c) then WriteByte 93
       else
         match Type_of (Attribute c) with
         | TypeComplex => WriteByte 125
         | _ => panic (PanicString "unknown container")
         end) ;;
  run pop ;;
  fun s =>
    if bool_decide (0 < length (stack s))%nat then incrementIndex s
    else Return (tt, s).

#[global] Instance serializer_Visitor `{!expr.Compiler} `{!strconv.Formatter}
  : Visitor serializer := {
  tree.ShouldVisit := ShouldVisit;
  tree.Visit := Visit;
  tree.BeginChildren := BeginChildren;
  tree.EndChildren := EndChildren
}.

(** *** Serialize *)

Record options : Type := mkOptions {
  included : list string;
  excluded : list string
}.

(** Modelled from the spec: [Options()] is declared outside the sources;
    section 6.1, empty options mean the default. *)
Definition Options : options := mkOptions [] [].

(** The two loops of [Serialize] that compile the paths into a family. *)
Fixpoint addPaths `{!expr.Compiler} (family : expr.PathAncestry)
         (paths : list string) : expr.PathAncestry + errors.error :=
  match paths with
  | [] => inl family
  | path :: paths =>
      match expr.CompilePath path with
      | (_, Some err) => inr err
      | (p, None) => addPaths (expr.Add family p) paths
      end
  end.

Definition newSerializer : serializer := mkSerializer [] None None [].

(** [Serialize] returns the pair [(bytes, err)], [None] for [nil].  The
    text of [err.Error()] handed to [errors.Internal] is taken to be the
    format of the error. *)
Definition Serialize `{!expr.Compiler} `{!strconv.Formatter}
           (resource : Resource) (opts : option options)
  : outcome (option (list Z) * option errors.error) :=
  let options := match opts with None => Options | Some o => o end in
  if bool_decide (0 < length (included options))%nat
     && bool_decide (0 < length (excluded options))%nat
  then Return (None, Some (errors.InvalidRequest
         "only one of 'attributes' and 'excludedAttributes' may be used" []))
  else
    let s := newSerializer in
    let configured : serializer + errors.error :=
      if bool_decide (0 < length (included options))%nat then
        match addPaths (expr.NewPathFamily (ResourceType resource))
                       (included options) with
        | inl family =>
            inl (mkSerializer (buffer s) (Some family) (excludeFamily s)
                              (stack s))
        | inr err => inr err
        end
      else if bool_decide (0 < length (excluded options))%nat then
        match addPaths (expr.NewPathFamily (ResourceType resource))
                       (excluded options) with
        | inl family =>
            inl (mkSerializer (buffer s) (includeFamily s) (Some family)
                              (stack s))
        | inr err => inr err
        end
      else inl s in
    match configured with
    | inr err => Return (None, Some err)
    | inl s =>
        match ResourceVisit resource s with
        | Return (Some err, _) =>
            Return (None, Some (errors.Internal
                      "JSON serialization error: %s"
                      [VString (errors.errFormat err)]))
        | Return (None, s) => Return (Some (buffer s), None)
        | Panic v => Panic v
        | OutOfFuel => OutOfFuel
        end
    end.

End json.

(** ** Leaf properties used by the examples *)

Module leaves.

Import core.

(** Modelled from the spec: [Attribute.Equals] is declared outside the
    sources.  Section 3.1 makes the attribute ID globally unique, so two
    attributes are equal when their IDs are. *)
Definition Equals (a b : Attribute) : bool := String.eqb (ID a) (ID b).

(** Modelled from the spec: the integer leaf of section 4.1 is not among
    the sources.  It stores its raw value and [touched]; [Replace] accepts
    an [int64] and fails with [invalidValue] otherwise; [Hash] is FNV-1a of
    the little-endian 8-byte representation, and zero when unassigned;
    [Matches] is [Attribute.Equals] with equal hashes for assigned values,
    or both unassigned (section 3.2). *)
Record integerProperty : Type := mkInteger {
  iattr : Attribute;
  ivalue : option Z;
  itouched : bool
}.

Definition integerHash (p : integerProperty) : Z :=
  match ivalue p with
  | None => 0
  | Some v => fnv.Sum64 (fnv.Write fnv.New64a (binary.PutUint64 (v mod 2 ^ 64)))
  end.

Definition integerUnassigned (p : integerProperty) : bool :=
  match ivalue p with None => true | Some _ => false end.

Definition integerMatches (p another : integerProperty) : bool :=
  if negb (Equals (iattr p) (iattr another)) then false
  else if integerUnassigned p then integerUnassigned another
       else negb (integerUnassigned another)
            && bool_decide (integerHash p = integerHash another).

Definition integerReplace (p : integerProperty) (v : value)
  : integerProperty * option errors.error + panicValue :=
  match v with
  | VInt64 i => inl (mkInteger (iattr p) (Some i) true, None)
  | _ => inl (p, Some (errors.InvalidValue
                            "%v is incompatible with attribute '%s'"
                            [v; VString (Path (iattr p))]))
  end.

#[global] Instance integerProperty_Property : Property integerProperty := {
  Attribute_of := iattr;
  IsUnassigned := integerUnassigned;
  Hash := integerHash;
  Matches := integerMatches;
  Replace := integerReplace
}.

(** A universe in which every element is an integer leaf; the examples
    below use attributes of type integer only. *)
#[global] Instance integerFactory : prop.ElementFactory integerProperty := {
  prop.NewString a := mkInteger a None false;
  prop.NewInteger a := mkInteger a None false;
  prop.NewDecimal a := mkInteger a None false;
  prop.NewBoolean a := mkInteger a None false;
  prop.NewReference a := mkInteger a None false;
  prop.NewBinary a := mkInteger a None false;
  prop.NewDateTime a := mkInteger a None false;
  prop.NewComplex a := mkInteger a None false
}.

Definition luckyNumbers : Attribute :=
  mkAttribute "urn:example:schemas:Demo:luckyNumbers" "luckyNumbers"
              "luckyNumbers" TypeInteger true
              MutabilityReadWrite ReturnedDefault [].

Definition emptyNumbers : prop.multiValuedProperty integerProperty :=
  prop.mkMulti luckyNumbers [] false.

Definition number (i : Z) : integerProperty :=
  mkInteger (NewElementAttribute luckyNumbers []) (Some i) true.

(** Modelled from the spec: section 4.1, the raw value of an integer leaf
    is its [int64] or [nil]; [EqualsTo] compares with an [int64] and fails
    on a value of another type. *)
Definition integerRaw (p : integerProperty) : value :=
  match ivalue p with None => VNil | Some v => VInt64 v end.

Definition integerEqualsTo (p : integerProperty) (v : value)
  : bool * option errors.error :=
  match v with
  | VInt64 i =>
      (match ivalue p with Some j => bool_decide (i = j) | None => false end,
       None)
  | _ => (false, Some (errors.InvalidValue
                         "%v is incompatible with attribute '%s'"
                         [v; VString (Path (iattr p))]))
  end.

#[global] Instance integerProperty_Evaluation : Evaluation integerProperty := {
  Raw := integerRaw;
  EqualsTo := integerEqualsTo
}.

End leaves.

(** ** A small User schema for the examples *)

Module demo.

Import core tree.

Definition urn : string := "urn:ietf:params:scim:schemas:core:2.0:User".

Definition userAttr : core.Attribute :=
  mkAttribute urn "User" "" TypeComplex false
              MutabilityReadWrite ReturnedDefault [].
Definition idAttr : core.Attribute :=
  mkAttribute (urn ++ ":id") "id" "id" TypeString false
              MutabilityReadOnly ReturnedAlways [].
Definition userNameAttr : core.Attribute :=
  mkAttribute (urn ++ ":userName") "userName" "userName" TypeString false
              MutabilityReadWrite ReturnedDefault [].
Definition nameAttr : core.Attribute :=
  mkAttribute (urn ++ ":name") "name" "name" TypeComplex false
              MutabilityReadWrite ReturnedDefault [].
Definition familyNameAttr : core.Attribute :=
  mkAttribute (urn ++ ":name.familyName") "familyName" "name.familyName"
              TypeString false MutabilityReadWrite ReturnedDefault [].
Definition givenNameAttr : core.Attribute :=
  mkAttribute (urn ++ ":name.givenName") "givenName" "name.givenName"
              TypeString false MutabilityReadWrite ReturnedDefault [].
Definition ageAttr : core.Attribute :=
  mkAttribute (urn ++ ":age") "age" "age" TypeInteger false
              MutabilityReadWrite ReturnedDefault [].
Definition passwordAttr : core.Attribute :=
  mkAttribute (urn ++ ":password") "password" "password" TypeString false
              MutabilityWriteOnly ReturnedNever [].
(** A write-only attribute that would otherwise always be returned. *)
Definition pinAttr : core.Attribute :=
  mkAttribute (urn ++ ":pin") "pin" "pin" TypeString false
              MutabilityWriteOnly ReturnedAlways [].

(** The compiled paths of the schema, by path and by attribute ID. *)
Definition paths : list (string * expr.Path) :=
  [ ("id", [ID idAttr]);
    ("userName", [ID userNameAttr]);
    ("name", [ID nameAttr]);
    ("name.familyName", [ID nameAttr; ID familyNameAttr]);
    ("name.givenName", [ID nameAttr; ID givenNameAttr]);
    ("age", [ID ageAttr]);
    ("password", [ID passwordAttr]);
    ("pin", [ID pinAttr]);
    (ID idAttr, [ID idAttr]);
    (ID userNameAttr, [ID userNameAttr]);
    (ID nameAttr, [ID nameAttr]);
    (ID familyNameAttr, [ID nameAttr; ID familyNameAttr]);
    (ID givenNameAttr, [ID nameAttr; ID givenNameAttr]);
    (ID ageAttr, [ID ageAttr]);
    (ID passwordAttr, [ID passwordAttr]);
    (ID pinAttr, [ID pinAttr]) ].

Fixpoint lookupPath (table : list (string * expr.Path)) (path : string)
  : expr.Path * option errors.error :=
  match table with
  | [] => ([], Some (errors.mkError errors.invalidPath
                       "path does not resolve" [VString path]))
  | (k, p) :: table => if String.eqb k path then (p, None)
                       else lookupPath table path
  end.

#[global] Instance compiler : expr.Compiler := {
  expr.CompilePath := lookupPath paths
}.

(** A stand-in for [strconv.AppendFloat] that knows the shortest decimals
    of the floats of the examples. *)
#[global] Instance formatter : strconv.Formatter := {
  strconv.AppendFloat dst f fmt prec bitSize :=
    dst ++
    (if PrimFloat.eqb f 1.5e-9 && (fmt =? 101) then bytes "1.5e-09"
     else if PrimFloat.eqb f 1e21 && (fmt =? 101) then bytes "1e+21"
     else if PrimFloat.eqb f 0.25 && (fmt =? 102) then bytes "0.25"
     else if PrimFloat.eqb f 0 && (fmt =? 102) then bytes "0"
     else if PrimFloat.eqb f 0 && (fmt =? 101) then bytes "0e+00"
     else bytes "?")
}.

Definition bobName : property :=
  Container nameAttr [ Simple familyNameAttr (VString "Smith");
                       Simple givenNameAttr (VString "Bob") ].

(** The user of scenarios S1 and S3. *)
Definition bob : Resource :=
  mkResource "User"
    (Container userAttr [ Simple idAttr (VString "a1");
                          Simple userNameAttr (VString "bob");
                          bobName;
                          Simple passwordAttr (VString "p") ]).

(** A user whose [id] (returned always) is not assigned yet. *)
Definition newcomer : Resource :=
  mkResource "User"
    (Container userAttr [ Simple idAttr VNil;
                          Simple userNameAttr (VString "bob") ]).

(** A serializer that excludes [name]. *)
Definition excludingName : json.serializer :=
  json.mkSerializer [] None
    (Some (expr.Add (expr.NewPathFamily "User") [ID nameAttr])) [].

End demo.

(** ** Specification-level visitors *)

Module visit_spec.

Import core tree.

(** The default returned-semantics of section 4.7, with no projection:
    never a write-only attribute; [always] yes, [never] and [request] no,
    [default] when the property is assigned. *)
Definition defaultReturned (p : property) : bool :=
  match Mutability (Attribute p) with
  | MutabilityWriteOnly => false
  | _ =>
      match Returned (Attribute p) with
      | ReturnedAlways => true
      | ReturnedNever | ReturnedRequest => false
      | ReturnedDefault => negb (IsUnassigned p)
      end
  end.

(** The serializer with its gate replaced by the default
    returned-semantics. *)
Definition defaultOnly `{!expr.Compiler} `{!strconv.Formatter}
  : Visitor json.serializer := {|
  tree.ShouldVisit := fun _ p => Return (defaultReturned p);
  tree.Visit := json.Visit;
  tree.BeginChildren := json.BeginChildren;
  tree.EndChildren := json.EndChildren
|}.

(** A visitor that also records, in order, the properties handed to
    [Visit]. *)
Definition recording {V A : Type} (m : M V A) (note : list property)
  : M (V * list property) A :=
  fun '(v, t) =>
    match m v with
    | Return (a, v') => Return (a, (v', t ++ note))
    | Panic e => Panic e
    | OutOfFuel => OutOfFuel
    end.

Definition traced {V : Type} `{!Visitor V} : Visitor (V * list property) := {|
  tree.ShouldVisit := fun '(v, _) p => tree.ShouldVisit v p;
  tree.Visit := fun p => recording (tree.Visit p) [p];
  tree.BeginChildren := fun p => recording (tree.BeginChildren p) [];
  tree.EndChildren := fun p => recording (tree.EndChildren p) []
|}.

(** Dropping the record from the outcome of a traced run. *)
Definition forget {V A : Type} (o : outcome (A * (V * list property)))
  : outcome (A * V) :=
  match o with
  | Return (a, (v, _)) => Return (a, v)
  | Panic e => Panic e
  | OutOfFuel => OutOfFuel
  end.

Definition writable (p : property) : Prop :=
  Mutability (Attribute p) <> MutabilityWriteOnly.

(** The record [t'] is [t] followed by properties that are not
    write-only. *)
Definition extends (t t' : list property) : Prop :=
  exists new, t' = t ++ new /\ Forall writable new.

(** A traced outcome is the plain outcome but for the record, which it
    extends by properties that are not write-only. *)
Definition faithful {V A : Type} (t : list property)
           (o' : outcome (A * (V * list property))) (o : outcome (A * V))
  : Prop :=
  forget o' = o
  /\ match o' with
     | Return (_, (_, t')) => extends t t'
     | _ => True
     end.

(** [s'] has the families of [s]. *)
Definition sameFamilies (s s' : json.serializer) : Prop :=
  json.includeFamily s' = json.includeFamily s
  /\ json.excludeFamily s' = json.excludeFamily s.

(** A method of the serializer that leaves the families as they are. *)
Definition keepsFamilies {A : Type} (m : json.M A) : Prop :=
  forall s a s', m s = Return (a, s') -> sameFamilies s s'.

(** A method of the serializer that changes nothing but the buffer. *)
Definition writesOnly {A : Type} (m : json.M A) : Prop :=
  forall s a s', m s = Return (a, s') -> exists b, s' = json.withBuffer s b.

(** No family is configured. *)
Definition unprojected (s : json.serializer) : Prop :=
  json.includeFamily s = None /\ json.excludeFamily s = None.

(** What [Serialize] makes of the outcome of the traversal. *)
Definition serialized (o : outcome (option errors.error * json.serializer))
  : outcome (option (list Z) * option errors.error) :=
  match o with
  | Return (Some err, _) =>
      Return (None, Some (errors.Internal "JSON serialization error: %s"
                                          [VString (errors.errFormat err)]))
  | Return (None, s) => Return (Some (json.buffer s), None)
  | Panic v => Panic v
  | OutOfFuel => OutOfFuel
  end.

End visit_spec.

(** ** Specification-level string encoding *)

Module string_spec.

(** The inverse of [bytes] on bytes. *)
Definition text (l : list Z) : string :=
  string_of_list_ascii (map (fun b => ascii_of_N (Z.to_N b)) l).

(** The pieces [appendString] cuts a string into: an ASCII byte, a byte
    where no UTF-8 sequence starts (an invalid byte), or a decoded rune with
    the bytes of its encoding. *)
Inductive piece : Type :=
| Ascii (b : Z)
| Invalid (b : Z)
| Rune (c : Z) (encoding : list Z).

Definition pieceBytes (u : piece) : list Z :=
  match u with
  | Ascii b | Invalid b => [b]
  | Rune _ encoding => encoding
  end.

(** The pieces of a string, from left to right along the decoder; with
    [fuel] at least the length, all of the string is cut. *)
Fixpoint cut (fuel : nat) (value : list Z) : list piece :=
  match fuel, value with
  | _, [] => []
  | O, _ => []
  | S fuel, b :: rest =>
      if b <? utf8.RuneSelf then Ascii b :: cut fuel rest
      else
        let '(c, size) := utf8.DecodeRuneInString value in
        if (c =? utf8.RuneError) && (size =? 1) then Invalid b :: cut fuel rest
        else Rune c (take (Z.to_nat size) value)
               :: cut fuel (drop (Z.to_nat size) value)
  end.

Definition pieces (value : list Z) : list piece := cut (length value) value.

(** What is written for a piece (section 4.7): an ASCII byte as it is, or
    escaped when it is a control byte, a quote, a backslash or
    HTML-sensitive; an invalid byte as the replacement escape; U+2028 and
    U+2029 escaped; any other rune as its bytes. *)
Definition encodePiece (u : piece) : list Z :=
  match u with
  | Ascii b => if json.htmlSafeSet b then [b] else 92 :: json.escapeByte b
  | Invalid _ => json.replacementEscape
  | Rune c encoding =>
      if (c =? 0x2028) || (c =? 0x2029)
      then bytes "\u202" ++ [json.hex (Z.land c 0xF)]
      else encoding
  end.

(** The value of a lower-case hexadecimal digit. *)
Definition hexValue (d : Z) : option Z :=
  if (48 <=? d) && (d <=? 57) then Some (d - 48)
  else if (97 <=? d) && (d <=? 102) then Some (d - 97 + 10)
  else None.

(** The escape of a control byte: the short form of line feed, carriage
    return and tab, or [u00] with two hexadecimal digits that spell the
    byte. *)
Definition controlEscape (b : Z) (escape : list Z) : Prop :=
  (b = 10 /\ escape = bytes "\n")
  \/ (b = 13 /\ escape = bytes "\r")
  \/ (b = 9 /\ escape = bytes "\t")
  \/ (b <> 10 /\ b <> 13 /\ b <> 9
      /\ exists d1 d0 h1 h0,
          escape = bytes "\u00" ++ [d1; d0]
          /\ hexValue d1 = Some h1 /\ hexValue d0 = Some h0
          /\ b = 16 * h1 + h0).

(** The result of the loop, with the rest of the string written. *)
Definition finished (value : list Z) (r : list Z * nat) : list Z :=
  if bool_decide (r.2 < length value)%nat then r.1 ++ drop r.2 value else r.1.

(** An ASCII byte is a piece of its own; the bytes of the other pieces are
    not ASCII. *)
Definition wellCut (u : piece) : Prop :=
  match u with
  | Ascii b => b < 0x80
  | Invalid b => 0x80 <= b
  | Rune _ encoding => Forall (fun x => 0x80 <= x) encoding
  end.

End string_spec.

(** ** Specification-level sorting *)

Module sorting_spec.

(** Insertion into an ascending list, before the first larger element. *)
Fixpoint insert (x : Z) (l : list Z) : list Z :=
  match l with
  | [] => [x]
  | y :: l' => if y >? x then x :: y :: l' else y :: insert x l'
  end.

Definition sort (l : list Z) : list Z :=
  foldl (fun acc x => insert x acc) [] l.

(** The hashes of the assigned elements, in stored order. *)
Definition assignedHashes {E : Type} `{!core.Property E} (els : list E)
  : list Z :=
  map core.Hash (List.filter (fun e => negb (core.IsUnassigned e)) els).

End sorting_spec.

(** ** Specification-level notions for the multi-valued property *)

Module multi_spec.

(** No element is matched by an element before it. *)
Definition unmatched {E : Type} `{!core.Property E} (els : list E) : Prop :=
  forall k c, els !! k = Some c ->
              existsb (fun e => core.Matches e c) (take k els) = false.

(** The pairs [ForEachChild] hands to its callback, in order. *)
Definition visited {E : Type} `{!core.Property E} `{!prop.ElementFactory E}
           (p : prop.multiValuedProperty E) : list (nat * E) :=
  prop.ForEachChild p (fun acc i e => acc ++ [(i, e)]) [].

Section notions.

Import core.

Context {E : Type} `{!core.Property E} `{!prop.ElementFactory E}.





End notions.

End multi_spec.

(** ** Specification-level notions for the traversal by the serializer *)

Module stack_spec.

Import core tree.

(** A call that does not run out of fuel, and whose result, if it
    returns, satisfies [P]; it may panic. *)
Definition ok {S A : Type} (P : A -> S -> Prop) (o : outcome (A * S)) : Prop :=
  match o with
  | Return (a, s') => P a s'
  | Panic _ => True
  | OutOfFuel => False
  end.

(** A call that returns, with a result that satisfies [P]. *)
Definition returns {S A : Type} (P : A -> S -> Prop) (o : outcome (A * S))
  : Prop :=
  match o with
  | Return (a, s') => P a s'
  | _ => False
  end.

(** The stack with the index of its top frame raised by [k]. *)
Definition bump (k : Z) (st : list json.frame) : list json.frame :=
  match last st with
  | None => st
  | Some f =>
      removelast st ++ [json.mkFrame (json.frameContainer f) (json.index f + k)]
  end.

(** [s'] is [s] with bytes appended to the buffer and the index of the
    open frame raised by [k]. *)
Definition advanced (k : Z) (s s' : json.serializer) : Prop :=
  exists w,
    s' = json.mkSerializer (json.buffer s ++ w) (json.includeFamily s)
                           (json.excludeFamily s) (bump k (json.stack s)).

(** The brackets of a container. *)
Definition opening (a : core.Attribute) : Z :=
  if MultiValued a then 91 else 123.
Definition closing (a : core.Attribute) : Z :=
  if MultiValued a then 93 else 125.

(** The raw value of every leaf is [nil] or has the dynamic type [Visit]
    asserts for the type of its attribute, a decimal being finite, and
    every container is multi-valued or complex. *)
Fixpoint wellTyped (p : property) : bool :=
  match p with
  | Simple a raw =>
      match raw, Type_of a with
      | VNil, _ => true
      | VString _, (TypeString | TypeReference | TypeDateTime | TypeBinary) =>
          true
      | VInt64 _, TypeInteger => true
      | VFloat64 f, TypeDecimal =>
          negb (PrimFloat.is_infinity f || PrimFloat.is_nan f)
      | VBool _, TypeBoolean => true
      | _, _ => false
      end
  | Container a children =>
      (MultiValued a
       || match Type_of a with TypeComplex => true | _ => false end)
      && forallb wellTyped children
  end.

(** What [Visit] adds to the index of the open frame. *)
Definition visitBump (p : property) : Z :=
  match p with
  | Simple _ raw => if nonNil raw then 1 else 0
  | Container _ _ => 0
  end.

(** The frame [BeginChildren] opens. *)
Definition opened (a : core.Attribute) : json.frame :=
  json.mkFrame (if MultiValued a then json.containerArray
                else json.containerObject) 0.

(** A property [BeginChildren] and [EndChildren] accept. *)
Definition bracketed (p : property) : Prop :=
  MultiValued (Attribute p) = true \/ Type_of (Attribute p) = TypeComplex.

(** What the traversal of a property, or of a list of siblings, makes of
    the serializer. *)
Definition steps (n : Z) (s : json.serializer)
           (e : option errors.error) (s' : json.serializer) : Prop :=
  e = None /\ exists k, 0 <= k <= n /\ advanced k s s'.

(** The traversal of a well-typed property, with no family configured
    and an open frame, returns. *)
Definition runs (n : Z) (m : json.M (option errors.error)) : Prop :=
  forall s, visit_spec.unprojected s -> json.stack s <> [] -> returns (steps n s) (m s).

End stack_spec.

(** * Properties *)

(** ** Hash of a multi-valued property *)

Section Hash_facts.

Import sorting_spec.
Context {E : Type} `{!core.Property E} `{!prop.ElementFactory E}.

Lemma insert_perm x l : insert x l ≡ₚ x :: l.
Proof.
  induction l as [|y l IH]; simpl; [done|].
  destruct (y >? x); [done|].
  rewrite IH. apply Permutation_swap.
Qed.

Lemma insert_app_gt x f a : a > x -> insert x (f ++ [a]) = insert x f ++ [a].
Proof.
  intros Hgt. induction f as [|y f IH]; simpl.
  - destruct (Z.gtb_spec a x); [done|lia].
  - destruct (y >? x); [done|]. by rewrite IH.
Qed.

Lemma insert_app_le x f a :
  Sorted Z.le (f ++ [a]) -> a <= x -> insert x (f ++ [a]) = f ++ [a; x].
Proof.
  intros Hs Hle. induction f as [|y f IH]; simpl.
  - destruct (Z.gtb_spec a x); [lia|done].
  - simpl in Hs. apply Sorted_StronglySorted in Hs; [|apply _].
    inversion Hs as [|? ? Hs' Hall]; subst.
    assert (y <= a) by (rewrite Forall_app, Forall_singleton in Hall; tauto).
    destruct (Z.gtb_spec y x); [lia|].
    rewrite IH; [done|]. by apply StronglySorted_Sorted.
Qed.

Lemma insert_sorted x l : Sorted Z.le l -> Sorted Z.le (insert x l).
Proof.
  induction l as [|y l IH]; simpl; intros Hs.
  - repeat constructor.
  - inversion Hs as [|? ? Hs' Hhd]; subst.
    destruct (Z.gtb_spec y x).
    + constructor; [done|]. constructor. lia.
    + constructor; [by apply IH|].
      destruct l as [|z l]; simpl.
      * constructor. lia.
      * inversion Hhd; subst. destruct (z >? x); constructor; lia.
Qed.

Lemma swap_adjacent (front : list Z) a x back :
  <[length front:=x]> (<[S (length front):=a]> (front ++ a :: x :: back))
  = front ++ x :: a :: back.
Proof.
  rewrite (insert_app_r_alt front) by lia.
  replace (S (length front) - length front)%nat with 1%nat by lia. simpl.
  rewrite insert_app_r_alt by lia.
  by replace (length front - length front)%nat with 0%nat by lia.
Qed.

(** A pass of the inner loop over a sorted prefix changes nothing. *)
Lemma sift_sorted_prefix front rest :
  Sorted Z.le front ->
  prop.sift (length front - 1) (front ++ rest) = front ++ rest.
Proof.
  revert rest. induction front as [|a front IH] using rev_ind; intros rest Hs.
  - done.
  - rewrite length_app. simpl.
    replace (length front + 1 - 1)%nat with (length front) by lia.
    destruct front as [|c front _] using rev_ind; [done|].
    rewrite length_app. simpl.
    replace (length front + 1)%nat with (S (length front)) by lia.
    simpl.
    assert (Hj : ((front ++ [c]) ++ [a]) ++ rest
                 = front ++ c :: a :: rest) by (by rewrite <- !app_assoc).
    rewrite Hj.
    rewrite (lookup_app_r front) by lia.
    replace (length front - length front)%nat with 0%nat by lia. simpl.
    rewrite (lookup_app_r front) by lia.
    replace (S (length front) - length front)%nat with 1%nat by lia. simpl.
    assert (c <= a).
    { apply Sorted_StronglySorted in Hs; [|apply _].
      rewrite <- app_assoc in Hs. simpl in Hs.
      apply StronglySorted_app_1_r in Hs.
      inversion Hs as [|? ? _ Hall]; subst.
      by inversion Hall. }
    destruct (Z.gtb_spec c a); [lia|].
    specialize (IH (a :: rest)).
    rewrite length_app in IH. simpl in IH.
    replace (length front + 1 - 1)%nat with (length front) in IH by lia.
    rewrite <- app_assoc in IH. simpl in IH. apply IH.
    apply Sorted_StronglySorted in Hs; [|apply _].
    apply StronglySorted_app_1_l in Hs. by apply StronglySorted_Sorted.
Qed.

(** The inner loop lets the appended hash sink to the place where
    insertion into the sorted prefix puts it. *)
Lemma sift_insert front x back :
  Sorted Z.le front ->
  prop.sift (length front) (front ++ x :: back) = insert x front ++ back.
Proof.
  revert back. induction front as [|a front IH] using rev_ind; intros back Hs.
  - done.
  - rewrite length_app. simpl.
    replace (length front + 1)%nat with (S (length front)) by lia.
    simpl. rewrite <- app_assoc. simpl.
    rewrite (lookup_app_r front) by lia.
    replace (length front - length front)%nat with 0%nat by lia. simpl.
    rewrite (lookup_app_r front) by lia.
    replace (S (length front) - length front)%nat with 1%nat by lia. simpl.
    destruct (Z.gtb_spec a x) as [Hgt|Hle].
    + rewrite insert_app_gt by lia.
      rewrite swap_adjacent.
      rewrite <- app_assoc. simpl. apply IH.
      apply Sorted_StronglySorted in Hs; [|apply _].
      apply StronglySorted_app_1_l in Hs. by apply StronglySorted_Sorted.
    + rewrite insert_app_le by (done || lia).
      rewrite <- app_assoc. simpl.
      pose proof (sift_sorted_prefix (front ++ [a]) (x :: back) Hs) as Hp.
      rewrite length_app in Hp. simpl in Hp.
      replace (length front + 1 - 1)%nat with (length front) in Hp by lia.
      rewrite <- app_assoc in Hp. apply Hp.
Qed.

Lemma foldl_insert_sorted l acc :
  Sorted Z.le acc -> Sorted Z.le (foldl (fun acc x => insert x acc) acc l).
Proof.
  revert acc. induction l as [|x l IH]; simpl; intros acc Hs; [done|].
  apply IH. by apply insert_sorted.
Qed.

Lemma foldl_insert_perm l acc :
  foldl (fun acc x => insert x acc) acc l ≡ₚ acc ++ l.
Proof.
  revert acc. induction l as [|x l IH]; simpl; intros acc.
  - by rewrite app_nil_r.
  - rewrite IH, insert_perm. simpl. apply Permutation_middle.
Qed.

Lemma sort_sorted l : Sorted Z.le (sort l).
Proof. apply foldl_insert_sorted. constructor. Qed.

Lemma sort_perm l : sort l ≡ₚ l.
Proof. unfold sort. by rewrite foldl_insert_perm. Qed.

(** The callback of [Hash] keeps the gathered hashes sorted: it is an
    insertion of the child's hash. *)
Lemma gather_insert acc k (e : E) :
  Sorted Z.le acc ->
  prop.gather acc k e
  = if core.IsUnassigned e then acc else insert (core.Hash e) acc.
Proof.
  intros Hs. unfold prop.gather. destruct (core.IsUnassigned e); [done|].
  rewrite length_app. simpl.
  replace (length acc + 1 - 1)%nat with (length acc) by lia.
  rewrite sift_insert by done. by rewrite app_nil_r.
Qed.

Lemma gathered_foldl (els : list E) acc k :
  Sorted Z.le acc ->
  fst (foldl (fun '(acc, i) elem => (prop.gather acc i elem, S i))
             (acc, k) els)
  = foldl (fun acc x => insert x acc) acc (assignedHashes els).
Proof.
  revert acc k. induction els as [|e els IH]; intros acc k Hs; [done|].
  simpl. rewrite gather_insert by done.
  unfold assignedHashes. simpl.
  destruct (core.IsUnassigned e); simpl.
  - by apply IH.
  - apply IH. by apply insert_sorted.
Qed.

Lemma gathered_sort (p : prop.multiValuedProperty E) :
  prop.gathered p = sort (assignedHashes (prop.elements p)).
Proof. apply gathered_foldl. constructor. Qed.

Lemma assignedHashes_perm (els els' : list E) :
  els ≡ₚ els' -> assignedHashes els ≡ₚ assignedHashes els'.
Proof.
  intros Hp. unfold assignedHashes. apply Permutation_map.
  induction Hp as [|x l l' _ IH|x y l|l l' l'' _ IH1 _ IH2]; simpl.
  - done.
  - destruct (negb _); [by constructor|done].
  - destruct (negb (core.IsUnassigned x)), (negb (core.IsUnassigned y));
      try done. apply Permutation_swap.
  - by etrans.
Qed.

Lemma fnv_Write_app h d1 d2 :
  fnv.Write (fnv.Write h d1) d2 = fnv.Write h (d1 ++ d2).
Proof. unfold fnv.Write. by rewrite foldl_app. Qed.

Lemma fnv_Write_concat hashes h :
  foldl (fun h hash => fnv.Write h (binary.PutUint64 hash)) h hashes
  = fnv.Write h (concat (map binary.PutUint64 hashes)).
Proof.
  revert h. induction hashes as [|x hashes IH]; intros h; [done|].
  cbn [foldl map concat]. by rewrite IH, fnv_Write_app.
Qed.

(** C3.  [Hash] of a multi-valued property does not depend on the order of
    its elements: for every permutation [els'] of the elements the hash is
    the same.  [Hash] gathers the hashes of the assigned elements, keeps
    them sorted ascending (they are the insertion sort of the gathered
    hashes), and is the FNV-1a of their little-endian bytes; with zero
    elements it is 0. *)
Theorem Hash_permutation_invariant
        (p : prop.multiValuedProperty E) (els' : list E) :
  prop.elements p ≡ₚ els' ->
  prop.Hash p = prop.Hash (prop.setElements p els')
  /\ prop.gathered p = sort (assignedHashes (prop.elements p))
  /\ Sorted Z.le (prop.gathered p)
  /\ prop.gathered p ≡ₚ assignedHashes (prop.elements p)
  /\ (prop.elements p = [] -> prop.Hash p = 0)
  /\ (prop.elements p <> [] ->
      prop.Hash p
      = fnv.Sum64 (fnv.Write fnv.New64a
                     (concat (map binary.PutUint64 (prop.gathered p))))).
Proof.
  intros Hperm.
  assert (Hg : prop.gathered p = prop.gathered (prop.setElements p els')).
  { rewrite !gathered_sort. simpl.
    apply (Sorted_unique Z.le); try apply sort_sorted.
    rewrite !sort_perm. by apply assignedHashes_perm. }
  repeat split.
  - unfold prop.Hash. rewrite <- Hg. simpl.
    rewrite <- (Permutation_length Hperm). done.
  - apply gathered_sort.
  - rewrite gathered_sort. apply sort_sorted.
  - rewrite gathered_sort. apply sort_perm.
  - intros Hnil. unfold prop.Hash. by rewrite Hnil.
  - intros Hne. unfold prop.Hash.
    destruct (prop.elements p) as [|e els]; [done|]. simpl length.
    rewrite bool_decide_eq_false_2 by done.
    by rewrite fnv_Write_concat.
Qed.

End Hash_facts.

(** The hash of [3, 1] is the hash of [1, 3]. *)
Lemma Hash_permutation_invariant_witness :
  let p := prop.mkMulti leaves.luckyNumbers
                        [leaves.number 3; leaves.number 1] true in
  let els' := [leaves.number 1; leaves.number 3] in
  prop.elements p ≡ₚ els'
  /\ prop.Hash p = prop.Hash (prop.setElements p els').
Proof.
  intros p els'.
  assert (Hperm : prop.elements p ≡ₚ els') by apply Permutation_swap.
  split; [exact Hperm|].
  exact (proj1 (Hash_permutation_invariant p els' Hperm)).
Defined.

(** ** Add, the relational predicates and ChildAtIndex *)

Section multi_facts.

Import multi_spec.
Context {E : Type} `{!core.Property E} `{!prop.ElementFactory E}.


Lemma candidates_inr (p : prop.multiValuedProperty E) val acc err :
  prop.candidates p acc val = inr err ->
  exists v, v ∈ val /\ nonNil v = true
            /\ (prop.newElementProperty p v = inr err
                \/ exists p0, prop.newElementProperty p v = inl (p0, Some err)).
Proof.
  revert acc. induction val as [|v val IH]; intros acc Hc; [done|].
  assert (Hstep : nonNil v = true ->
                  match prop.newElementProperty p v with
                  | inl (p0, None) => prop.candidates p (acc ++ [p0]) val
                  | inl (_, Some err) | inr err => inr err
                  end = inr err).
  { intros Hv. destruct v; simpl in Hv; try done; exact Hc. }
  destruct (nonNil v) eqn:Hv.
  - specialize (Hstep eq_refl).
    destruct (prop.newElementProperty p v) as [[p0 [err'|]]|err'] eqn:Hn.
    + injection Hstep as ->. exists v.
      split; [apply list_elem_of_here|]. split; [done|]. right. by exists p0.
    + destruct (IH _ Hstep) as (v' & ? & ? & ?). exists v'.
      split; [by apply list_elem_of_further|done].
    + injection Hstep as ->. exists v.
      split; [apply list_elem_of_here|]. split; [done|]. by left.
  - destruct v; try done. simpl in Hc.
    destruct (IH _ Hc) as (v' & ? & ? & ?). exists v'.
    split; [by apply list_elem_of_further|done].
Qed.

(** The second half of [Add]: the elements already there stay, in order;
    what is appended is a sub-sequence of the candidates; a candidate is
    appended only when no element before it matches it, and a candidate
    that is not appended is matched by an element. *)
Lemma foldl_addUnlessMatched cs (p : prop.multiValuedProperty E) :
  exists added,
    prop.elements (foldl prop.addUnlessMatched p cs) = prop.elements p ++ added
    /\ prop.attr (foldl prop.addUnlessMatched p cs) = prop.attr p
    /\ added `sublist_of` cs
    /\ (forall k c, added !! k = Some c ->
          existsb (fun e => core.Matches e c)
                  (prop.elements p ++ take k added) = false)
    /\ (forall c, c ∈ cs ->
          c ∈ added
          \/ existsb (fun e => core.Matches e c)
                     (prop.elements (foldl prop.addUnlessMatched p cs)) = true).
Proof.
  revert p. induction cs as [|c cs IH]; intros p.
  - exists []. simpl. rewrite app_nil_r.
    repeat split; [constructor|done|].
    intros c Hin. by apply elem_of_nil in Hin.
  - simpl. unfold prop.addUnlessMatched at 2 4 6.
    destruct (existsb _ (prop.elements p)) eqn:Hm.
    + destruct (IH p) as (added & Hel & Hat & Hsub & Hno & Hall).
      exists added. repeat split; try done.
      * by apply sublist_cons.
      * intros c' [->|Hin]%elem_of_cons; [|by apply Hall].
        right. rewrite Hel, existsb_app, Hm. done.
    + destruct (IH (prop.mkMulti (prop.attr p) (prop.elements p ++ [c]) true))
        as (added & Hel & Hat & Hsub & Hno & Hall).
      simpl in *. exists (c :: added). repeat split.
      * by rewrite Hel, <- app_assoc.
      * done.
      * by apply sublist_skip.
      * intros [|k] c' Hk; simpl in *.
        -- injection Hk as <-. by rewrite app_nil_r.
        -- specialize (Hno _ _ Hk). by rewrite <- app_assoc in Hno.
      * intros c' [->|Hin]%elem_of_cons; [left; apply list_elem_of_here|].
        destruct (Hall _ Hin); [left; by apply list_elem_of_further|by right].
Qed.

Lemma candidates_cons (p : prop.multiValuedProperty E) acc v val :
  nonNil v = true ->
  prop.candidates p acc (v :: val)
  = match prop.newElementProperty p v with
    | inl (p0, None) => prop.candidates p (acc ++ [p0]) val
    | inl (_, Some err) | inr err => inr err
    end.
Proof. by destruct v. Qed.










(** C5 (amended).  The five relational predicates of a multi-valued
    property fail for every argument, each with the error built by
    [errors.Internal], whose kind is [internal] and whose message is
    "incompatible operation". *)
Theorem predicates_fail_with_internal
        (p : prop.multiValuedProperty E) (s : string) (v : value) :
  let err := errors.Internal "incompatible operation" [] in
  prop.StartsWith p s = (false, Some err)
  /\ prop.EndsWith p s = (false, Some err)
  /\ prop.Contains p s = (false, Some err)
  /\ prop.GreaterThan p v = (false, Some err)
  /\ prop.LessThan p v = (false, Some err)
  /\ errors.errKind err = errors.internal.
Proof. by repeat split. Qed.

(** What [ChildAtIndex] does on each kind of argument: [nil] for an index
    that is not an [int] or that is at or beyond the length, the element
    within bounds, and a run-time panic below zero. *)
Lemma ChildAtIndex_cases (p : prop.multiValuedProperty E) (index : value) :
  match index with
  | VInt i =>
      if Z.of_nat (length (prop.elements p)) <=? i
      then prop.ChildAtIndex p index = Return None
      else if i <? 0
           then prop.ChildAtIndex p index
                = Panic (PanicRuntime "index out of range")
           else exists e, prop.elements p !! Z.to_nat i = Some e
                          /\ prop.ChildAtIndex p index = Return (Some e)
  | _ => prop.ChildAtIndex p index = Return None
  end.
Proof.
  destruct index; try done. simpl.
  destruct (Z.leb_spec (Z.of_nat (length (prop.elements p))) i); [done|].
  destruct (Z.ltb_spec i 0); [done|].
  destruct (lookup_lt_is_Some_2 (prop.elements p) (Z.to_nat i)) as [e He];
    [lia|].
  exists e. by rewrite He.
Qed.

End multi_facts.



(** The error of [StartsWith] is not of kind [incompatibleOperation]: the
    claim of C5 fails on the empty list of lucky numbers. *)
Lemma predicates_kind_counterexample :
  ~ option_map errors.errKind
      (snd (prop.StartsWith leaves.emptyNumbers "a"))
    = Some errors.incompatibleOperation.
Proof. vm_compute. discriminate. Qed.

(** C10 (the code departs from the claim).  [ChildAtIndex(-1)] on a property
    with one element panics with an index out of range; the claim has it
    return [nil]. *)
Theorem ChildAtIndex_negative_panics :
  prop.ChildAtIndex
    (prop.mkMulti leaves.luckyNumbers [leaves.number 7] true) (VInt (-1))
  = Panic (PanicRuntime "index out of range").
Proof. reflexivity. Qed.


(** ** The gate of the serializer *)

Section gate_facts.

Import core tree visit_spec.
Context `{!expr.Compiler} `{!strconv.Formatter}.

(** A write-only property is refused before anything else is looked at. *)
Lemma ShouldVisit_writeOnly (s : json.serializer) (p : property) :
  Mutability (Attribute p) = MutabilityWriteOnly ->
  json.ShouldVisit s p = Return false.
Proof. intros Hw. unfold json.ShouldVisit. by rewrite Hw. Qed.

(** With no family configured the gate is the default returned-semantics. *)
Lemma ShouldVisit_default (s : json.serializer) (p : property) :
  json.includeFamily s = None -> json.excludeFamily s = None ->
  json.ShouldVisit s p = Return (defaultReturned p).
Proof.
  intros Hi He. unfold json.ShouldVisit, defaultReturned. rewrite Hi, He.
  by destruct (Mutability (Attribute p)), (Returned (Attribute p)).
Qed.

(** What the code computes for a [default] attribute under an exclude
    family: membership or offspring, as it stands, without negation. *)
Lemma ShouldVisit_excludeFamily (s : json.serializer) (p : property) family q :
  Mutability (Attribute p) <> MutabilityWriteOnly ->
  Returned (Attribute p) = ReturnedDefault ->
  json.includeFamily s = None -> json.excludeFamily s = Some family ->
  expr.MustPath (ID (Attribute p)) = Return q ->
  json.ShouldVisit s p
  = Return (expr.IsMember family q || expr.IsOffspring family q).
Proof.
  intros Hw Hr Hi He Hq. unfold json.ShouldVisit.
  rewrite Hr, Hi, He, Hq. by destruct (Mutability (Attribute p)).
Qed.

End gate_facts.

(** C1 (the code departs from the claim).  Under the exclude family of
    [name], the gate lets the excluded [name] through and stops [userName],
    which is not excluded; serializing the user of scenario S3 with
    [excluded = ["name"]] emits the [name] key and drops [userName]. *)
Theorem ShouldVisit_excludeFamily_not_negated :
  json.ShouldVisit demo.excludingName demo.bobName = Return true
  /\ json.ShouldVisit demo.excludingName
       (tree.Simple demo.userNameAttr (VString "bob")) = Return false
  /\ json.Serialize demo.bob (Some (json.mkOptions [] ["name"%string]))
     = Return
         (Some (quoted
            "{'id':'a1','name':{'familyName':'Smith','givenName':'Bob'}}"),
          None).
Proof. repeat split; vm_compute; reflexivity. Qed.

(** Scenario S1: by default the write-only password is left out. *)
Example Serialize_S1 :
  json.Serialize demo.bob None
  = Return
      (Some (quoted
         "{'id':'a1','userName':'bob','name':{'familyName':'Smith','givenName':'Bob'}}"),
       None).
Proof. vm_compute. reflexivity. Qed.

(** Scenario S2: with [included = ["userName"]], [id] stays because it is
    always returned. *)
Example Serialize_S2 :
  json.Serialize demo.bob (Some (json.mkOptions ["userName"%string] []))
  = Return (Some (quoted "{'id':'a1','userName':'bob'}"), None).
Proof. vm_compute. reflexivity. Qed.

(** ** Traversal *)

Section traversal_facts.

Import core tree visit_spec.
Local Open Scope go_scope.

(** Induction on property trees, with the hypothesis for every child of a
    container. *)
Lemma property_nested_ind (P : property -> Prop) :
  (forall a raw, P (Simple a raw)) ->
  (forall a children, Forall P children -> P (Container a children)) ->
  forall p, P p.
Proof.
  intros HS HC. fix IH 1. intros [a raw|a children]; [apply HS|].
  apply HC. induction children as [|c cs IHcs]; constructor; [apply IH|apply IHcs].
Qed.

Lemma visitProperty_unfold {V : Type} `{!Visitor V} (p : property) (s : V) :
  visitProperty p s
  = match ShouldVisit s p with
    | Return false => Return (None, s)
    | Return true =>
        (do err <- Visit p ;;
         match err, p with
         | Some e, _ => ret (Some e)
         | None, Simple _ _ => ret None
         | None, Container _ children =>
             run BeginChildren p ;;
             do err <- visitChildren children ;;
             match err with
             | Some e => ret (Some e)
             | None => run EndChildren p ;; ret None
             end
         end) s
    | Panic v => Panic v
    | OutOfFuel => OutOfFuel
    end.
Proof.
  destruct p as [a raw|a children]; [done|].
  simpl. destruct (ShouldVisit s (Container a children)) as [[|]| |]; try done.
  unfold bind. destruct (Visit (Container a children) s) as [[[e|] s1]| |];
    try done.
  destruct (BeginChildren (Container a children) s1) as [[[] s2]| |]; try done.
  match goal with
  | |- match ?f children s2 with _ => _ end = _ =>
      assert (Heq : forall l, f l = visitChildren l)
  end.
  { induction l as [|c l IHl]; [done|]. simpl. by rewrite IHl. }
  by rewrite Heq.
Qed.

(** Two visitors that differ in their gate only, and agree on it wherever
    an invariant of the callbacks holds, traverse alike. *)
Section agreement.

Context {V : Type} (A B : Visitor V) (I : V -> Prop).
Hypothesis same_Visit : @Visit V A = @Visit V B.
Hypothesis same_Begin : @BeginChildren V A = @BeginChildren V B.
Hypothesis same_End : @EndChildren V A = @EndChildren V B.
Hypothesis same_gate :
  forall s p, I s -> @ShouldVisit V A s p = @ShouldVisit V B s p.
Hypothesis Visit_keeps :
  forall p s e s', I s -> @Visit V A p s = Return (e, s') -> I s'.
Hypothesis Begin_keeps :
  forall p s u s', I s -> @BeginChildren V A p s = Return (u, s') -> I s'.
Hypothesis End_keeps :
  forall p s u s', I s -> @EndChildren V A p s = Return (u, s') -> I s'.

Definition agree_on (p : property) : Prop :=
  forall s, I s ->
    @visitProperty V A p s = @visitProperty V B p s
    /\ (forall e s', @visitProperty V A p s = Return (e, s') -> I s').

Lemma visitChildren_agree (l : list property) :
  Forall agree_on l ->
  forall s, I s ->
    @visitChildren V A l s = @visitChildren V B l s
    /\ (forall e s', @visitChildren V A l s = Return (e, s') -> I s').
Proof.
  induction 1 as [|c l Hc _ IHl]; intros s Hs.
  - split; [done|]. intros e s' [= <- <-]. done.
  - simpl. unfold bind. destruct (Hc s Hs) as [Heq Hk]. rewrite <- Heq.
    destruct (@visitProperty V A c s) as [[[e|] s1]|v|] eqn:HA.
    + split; [done|]. intros e' s' [= <- <-]. by eapply Hk.
    + apply IHl. by eapply Hk.
    + split; [done|]. intros e' s' [=].
    + split; [done|]. intros e' s' [=].
Qed.

Lemma visitProperty_agree (p : property) : agree_on p.
Proof.
  induction p as [a raw|a children IH] using property_nested_ind; intros s Hs.
  - rewrite !visitProperty_unfold, <- same_gate, <- same_Visit by done.
    destruct (@ShouldVisit V A s (Simple a raw)) as [[|]|v|];
      [|by split; [|intros e s' [= <- <-]]
       |by split; [|intros e s' [=]]|by split; [|intros e s' [=]]].
    unfold bind.
    destruct (@Visit V A (Simple a raw) s) as [[[e|] s1]|v|] eqn:HV;
      [| |by split; [|intros e s' [=]]|by split; [|intros e s' [=]]];
      (split; [done|]); intros e' s' [= <- <-]; by eapply Visit_keeps.
  - rewrite !visitProperty_unfold,
      <- same_gate, <- same_Visit, <- same_Begin, <- same_End by done.
    destruct (@ShouldVisit V A s (Container a children)) as [[|]|v|];
      [|by split; [|intros e s' [= <- <-]]
       |by split; [|intros e s' [=]]|by split; [|intros e s' [=]]].
    unfold bind.
    destruct (@Visit V A (Container a children) s) as [[[e|] s1]|v|] eqn:HV;
      [| |by split; [|intros e s' [=]]|by split; [|intros e s' [=]]].
    { split; [done|]. intros e' s' [= <- <-]. by eapply Visit_keeps. }
    assert (H1 : I s1) by (by eapply Visit_keeps).
    destruct (@BeginChildren V A (Container a children) s1)
      as [[[] s2]|v|] eqn:HB;
      [|by split; [|intros e s' [=]]|by split; [|intros e s' [=]]].
    assert (H2 : I s2) by (by eapply Begin_keeps).
    destruct (visitChildren_agree children IH s2 H2) as [Heq Hk].
    rewrite <- Heq.
    destruct (@visitChildren V A children s2) as [[[e|] s3]|v|] eqn:HC;
      [| |by split; [|intros e s' [=]]|by split; [|intros e s' [=]]].
    { split; [done|]. intros e' s' [= <- <-]. by eapply Hk. }
    assert (H3 : I s3) by (by eapply Hk).
    destruct (@EndChildren V A (Container a children) s3)
      as [[[] s4]|v|] eqn:HE;
      [|by split; [|intros e s' [=]]|by split; [|intros e s' [=]]].
    split; [done|]. intros e' s' [= <- <-]. by eapply End_keeps.
Qed.

Lemma ResourceVisit_agree (r : Resource) (s : V) :
  I s -> @ResourceVisit V A r s = @ResourceVisit V B r s.
Proof.
  intros Hs. unfold ResourceVisit, bind.
  rewrite <- same_Begin, <- same_End.
  destruct (@BeginChildren V A (root r) s) as [[[] s1]| |] eqn:HB; try done.
  assert (H1 : I s1) by (by eapply Begin_keeps).
  assert (HF : Forall agree_on (children_of (root r))).
  { apply Forall_forall. intros p _. apply visitProperty_agree. }
  destruct (visitChildren_agree _ HF s1 H1) as [Heq _]. by rewrite <- Heq.
Qed.

End agreement.

End traversal_facts.

(** ** The serializer keeps its families *)

Section families_facts.

Import core tree visit_spec.
Local Open Scope go_scope.
Context `{!expr.Compiler} `{!strconv.Formatter}.

Lemma keeps_ret {A : Type} (a : A) : keepsFamilies (ret a).
Proof. by intros s a' s' [= <- <-]. Qed.

Lemma keeps_panic {A : Type} v : keepsFamilies (@panic json.serializer A v).
Proof. by intros s a' s' [=]. Qed.

Lemma keeps_bind {A B : Type} (m : json.M A) (k : A -> json.M B) :
  keepsFamilies m -> (forall a, keepsFamilies (k a)) -> keepsFamilies (bind m k).
Proof.
  intros Hm Hk s b s'. unfold bind.
  destruct (m s) as [[a s1]|v|] eqn:Hms; try done. intros Hks.
  destruct (Hm _ _ _ Hms) as [? ?], (Hk _ _ _ _ Hks) as [? ?].
  split; congruence.
Qed.

Lemma keeps_WriteByte c : keepsFamilies (json.WriteByte c).
Proof. by intros s a s' [= <- <-]. Qed.

Lemma keeps_WriteString str : keepsFamilies (json.WriteString str).
Proof. by intros s a s' [= <- <-]. Qed.

Lemma keeps_push c : keepsFamilies (json.push c).
Proof. by intros s a s' [= <- <-]. Qed.

Lemma keeps_pop : keepsFamilies json.pop.
Proof.
  intros s a s'. unfold json.pop. destruct (json.stack s); [done|].
  by intros [= <- <-].
Qed.

Lemma keeps_current : keepsFamilies json.current.
Proof.
  intros s a s'. unfold json.current. destruct (last (json.stack s)); [|done].
  by intros [= <- <-].
Qed.

Lemma keeps_incrementIndex : keepsFamilies json.incrementIndex.
Proof.
  intros s a s'. unfold json.incrementIndex.
  destruct (last (json.stack s)); [|done]. by intros [= <- <-].
Qed.

Lemma keeps_appendString v : keepsFamilies (json.appendString v).
Proof.
  intros s a s'. unfold json.appendString.
  destruct (json.appendStringTo _ _); [|done]. by intros [= <- <-].
Qed.

Lemma keeps_appendFloat v : keepsFamilies (json.appendFloat v).
Proof.
  unfold json.appendFloat. destruct (_ || _); [apply keeps_panic|].
  apply keeps_WriteString.
Qed.

Lemma keeps_appendPropertyName a : keepsFamilies (json.appendPropertyName a).
Proof.
  unfold json.appendPropertyName.
  repeat (apply keeps_bind; [|intros _]);
    apply keeps_WriteByte || apply keeps_WriteString.
Qed.

Lemma keeps_Visit p : keepsFamilies (json.Visit p).
Proof.
  unfold json.Visit.
  apply keeps_bind; [apply keeps_current|intros f].
  apply keeps_bind;
    [destruct (0 <? json.index f); [apply keeps_WriteByte|apply keeps_ret]|].
  intros _. apply keeps_bind; [apply keeps_current|intros f'].
  apply keeps_bind;
    [destruct (negb _); [apply keeps_appendPropertyName|apply keeps_ret]|].
  intros _. destruct p as [a raw|a children]; [|apply keeps_ret].
  destruct (IsUnassigned (Simple a raw)).
  { apply keeps_bind; [apply keeps_WriteString|intros _; apply keeps_ret]. }
  apply keeps_bind.
  - destruct (Type_of a), raw; try apply keeps_panic;
      try apply keeps_appendString; try apply keeps_appendFloat;
      try apply keeps_WriteString.
    unfold json.appendBoolean. destruct b; apply keeps_WriteString.
  - intros _. apply keeps_bind; [apply keeps_incrementIndex|].
    intros _. apply keeps_ret.
Qed.

Lemma keeps_BeginChildren p : keepsFamilies (json.BeginChildren p).
Proof.
  unfold json.BeginChildren. destruct (MultiValued _).
  { apply keeps_bind; [apply keeps_WriteByte|intros _; apply keeps_push]. }
  destruct (Type_of _); try apply keeps_panic.
  apply keeps_bind; [apply keeps_WriteByte|intros _; apply keeps_push].
Qed.

Lemma keeps_EndChildren p : keepsFamilies (json.EndChildren p).
Proof.
  unfold json.EndChildren. apply keeps_bind.
  { destruct (MultiValued _); [apply keeps_WriteByte|].
    destruct (Type_of _); try apply keeps_panic. apply keeps_WriteByte. }
  intros _. apply keeps_bind; [apply keeps_pop|intros _].
  intros s a s'. destruct (bool_decide _); [apply keeps_incrementIndex|].
  by intros [= <- <-].
Qed.

Lemma unprojected_kept (s s' : json.serializer) :
  unprojected s -> sameFamilies s s' -> unprojected s'.
Proof. intros [? ?] [? ?]. split; congruence. Qed.

(** With no family configured, the traversal by the serializer is the
    traversal under the default returned-semantics. *)
Lemma ResourceVisit_unprojected (r : Resource) (s : json.serializer) :
  unprojected s ->
  @ResourceVisit _ json.serializer_Visitor r s = @ResourceVisit _ defaultOnly r s.
Proof.
  apply (ResourceVisit_agree json.serializer_Visitor defaultOnly unprojected);
    try done.
  - intros s0 p [Hi He]. simpl. by apply ShouldVisit_default.
  - intros p s0 e s' Hs HV. eapply unprojected_kept; [done|].
    exact (keeps_Visit p _ _ _ HV).
  - intros p s0 e s' Hs HV. eapply unprojected_kept; [done|].
    exact (keeps_BeginChildren p _ _ _ HV).
  - intros p s0 e s' Hs HV. eapply unprojected_kept; [done|].
    exact (keeps_EndChildren p _ _ _ HV).
Qed.

(** C6.  When both [included] and [excluded] are non-empty, [Serialize]
    returns no bytes and an error of kind [invalidRequest], whatever the
    resource.  When both are empty (or the options are [nil]) it returns what
    the traversal writes from a fresh serializer, and that traversal is the
    one gated by the default returned-semantics alone. *)
Theorem Serialize_options (resource : Resource) (o : json.options) :
  (json.included o <> [] -> json.excluded o <> [] ->
   exists err,
     json.Serialize resource (Some o) = Return (None, Some err)
     /\ errors.errKind err = errors.invalidRequest)
  /\ (json.included o = [] -> json.excluded o = [] ->
      json.Serialize resource (Some o)
      = serialized (@ResourceVisit _ defaultOnly resource json.newSerializer))
  /\ json.Serialize resource None
     = serialized (@ResourceVisit _ defaultOnly resource json.newSerializer).
Proof.
  assert (Hnew : forall r,
    serialized (@ResourceVisit _ json.serializer_Visitor r json.newSerializer)
    = serialized (@ResourceVisit _ defaultOnly r json.newSerializer)).
  { intros r. by rewrite ResourceVisit_unprojected. }
  split; [|split].
  - intros Hi He.
    exists (errors.InvalidRequest
              "only one of 'attributes' and 'excludedAttributes' may be used" []).
    split; [|reflexivity]. unfold json.Serialize.
    destruct (json.included o), (json.excluded o); done.
  - intros Hi He. rewrite <- Hnew. unfold json.Serialize. by rewrite Hi, He.
  - by rewrite <- Hnew.
Qed.

End families_facts.

(** The options of scenario S2 together with those of scenario S3 are
    refused; with empty options the user of scenario S1 is serialized under
    the default returned-semantics. *)
Lemma Serialize_options_witness :
  let o := json.mkOptions ["userName"%string] ["name"%string] in
  let none := json.mkOptions [] [] in
  json.included o <> [] /\ json.excluded o <> []
  /\ (exists err,
        json.Serialize demo.bob (Some o) = Return (None, Some err)
        /\ errors.errKind err = errors.invalidRequest)
  /\ json.Serialize demo.bob (Some none)
     = visit_spec.serialized
         (@tree.ResourceVisit _ visit_spec.defaultOnly demo.bob
                              json.newSerializer).
Proof.
  intros o none.
  assert (H1 : json.included o <> []) by discriminate.
  assert (H2 : json.excluded o <> []) by discriminate.
  split; [exact H1|]. split; [exact H2|]. split.
  - exact (proj1 (Serialize_options demo.bob o) H1 H2).
  - exact (proj1 (proj2 (Serialize_options demo.bob none)) eq_refl eq_refl).
Defined.

(** ** Write-only properties are never visited *)

Section erasure_facts.

Import core tree visit_spec.
Local Open Scope go_scope.

Context {V : Type} `{!Visitor V}.
Hypothesis gate_refuses_writeOnly :
  forall (v : V) p,
    Mutability (Attribute p) = MutabilityWriteOnly ->
    ShouldVisit v p = Return false.

Lemma extends_refl t : extends t t.
Proof. exists []. by rewrite app_nil_r. Qed.

Lemma extends_trans t1 t2 t3 : extends t1 t2 -> extends t2 t3 -> extends t1 t3.
Proof.
  intros (n1 & -> & H1) (n2 & -> & H2). exists (n1 ++ n2).
  split; [by rewrite app_assoc|by apply Forall_app].
Qed.

Lemma faithful_ret {A : Type} (a : A) (s : V) t :
  faithful t (ret a (s, t)) (ret a s).
Proof. split; [done|apply extends_refl]. Qed.

Lemma faithful_bind {A B : Type} (m' : M (V * list property) A) (m : M V A)
      (k' : A -> M (V * list property) B) (k : A -> M V B) s t :
  faithful t (m' (s, t)) (m s) ->
  (forall a s1 t1, extends t t1 -> faithful t1 (k' a (s1, t1)) (k a s1)) ->
  faithful t (bind m' k' (s, t)) (bind m k s).
Proof.
  intros [Hf Ht] Hk. unfold bind.
  destruct (m' (s, t)) as [[a [s1 t1]]|v|]; simpl in Hf; rewrite <- Hf;
    [|done|done].
  destruct (Hk a s1 t1 Ht) as [Hf' Ht']. split; [done|].
  destruct (k' a (s1, t1)) as [[b [s2 t2]]|v|]; try done.
  by eapply extends_trans.
Qed.

Lemma faithful_recording {A : Type} (m : M V A) note s t :
  Forall writable note -> faithful t (recording m note (s, t)) (m s).
Proof.
  intros Hn. unfold recording, faithful.
  destruct (m s) as [[a s1]|v|]; try done. split; [done|]. by exists note.
Qed.

Lemma faithful_visitChildren (l : list property) :
  Forall (fun p => forall s t,
            faithful t (@visitProperty _ traced p (s, t)) (visitProperty p s)) l ->
  forall s t, faithful t (@visitChildren _ traced l (s, t)) (visitChildren l s).
Proof.
  induction 1 as [|c l Hc _ IHl]; intros s t; simpl.
  - apply faithful_ret.
  - apply faithful_bind; [apply Hc|].
    intros [e|] s1 t1 _; [apply faithful_ret|apply IHl].
Qed.

Lemma faithful_visitProperty (p : property) :
  forall s t, faithful t (@visitProperty _ traced p (s, t)) (visitProperty p s).
Proof.
  induction p as [a raw|a children IH] using property_nested_ind; intros s t;
    rewrite !visitProperty_unfold; simpl tree.ShouldVisit;
    match goal with
    | |- context [ShouldVisit s ?q] =>
        pose proof (gate_refuses_writeOnly s q) as Hgate;
        destruct (ShouldVisit s q) as [[|]|v|]
    end;
    try (split; [done|apply extends_refl || exact Logic.I]).
  - assert (Hw : writable (Simple a raw)).
    { intros Hm. by specialize (Hgate Hm). }
    apply faithful_bind.
    { apply faithful_recording. by constructor. }
    intros [e|] s1 t1 _; apply faithful_ret.
  - assert (Hw : writable (Container a children)).
    { intros Hm. by specialize (Hgate Hm). }
    apply faithful_bind.
    { apply faithful_recording. by constructor. }
    intros [e|] s1 t1 _; [apply faithful_ret|].
    apply faithful_bind; [by apply faithful_recording|].
    intros [] s2 t2 _. apply faithful_bind; [by apply faithful_visitChildren|].
    intros [e|] s3 t3 _; [apply faithful_ret|].
    apply faithful_bind; [by apply faithful_recording|].
    intros [] s4 t4 _. apply faithful_ret.
Qed.

Lemma faithful_ResourceVisit (r : Resource) (s : V) :
  faithful [] (@ResourceVisit _ traced r (s, [])) (ResourceVisit r s).
Proof.
  unfold ResourceVisit.
  apply faithful_bind; [by apply faithful_recording|].
  intros [] s1 t1 _. apply faithful_bind.
  { apply faithful_visitChildren. apply Forall_forall.
    intros p _. apply faithful_visitProperty. }
  intros [e|] s2 t2 _; [apply faithful_ret|].
  apply faithful_bind; [by apply faithful_recording|].
  intros [] s3 t3 _. apply faithful_ret.
Qed.

End erasure_facts.

Section writeOnly_facts.

Import core tree visit_spec.
Context `{!expr.Compiler} `{!strconv.Formatter}.

(** C7.  The gate of the serializer refuses a write-only property whatever
    the families and whatever its returned disposition.  Hence, for every
    resource and every serializer (every projection), the traversal hands no
    write-only property to [Visit], the one callback that writes a property:
    the run that records the visited properties is the plain run, and its
    record holds no write-only property. *)
Theorem writeOnly_never_serialized (r : Resource) (s : json.serializer) :
  (forall p, Mutability (Attribute p) = MutabilityWriteOnly ->
             json.ShouldVisit s p = Return false)
  /\ forget (@ResourceVisit _ traced r (s, [])) = ResourceVisit r s
  /\ match @ResourceVisit _ traced r (s, []) with
     | Return (_, (_, visited)) => Forall writable visited
     | _ => True
     end.
Proof.
  split; [intros p; apply ShouldVisit_writeOnly|].
  destruct (@faithful_ResourceVisit json.serializer json.serializer_Visitor
              (fun v p => ShouldVisit_writeOnly v p) r s) as [Hf Ht].
  split; [done|].
  destruct (@ResourceVisit _ traced r (s, [])) as [[e [s' t']]|v|]; try done.
  by destruct Ht as (new & -> & Hnew).
Qed.

End writeOnly_facts.

(** The write-only [pin] of this user would always be returned; it is
    refused by the gate and left out of the output. *)
Lemma writeOnly_never_serialized_witness :
  let pin := tree.Simple demo.pinAttr (VString "0000") in
  let r := tree.mkResource "User"
             (tree.Container demo.userAttr
                [tree.Simple demo.idAttr (VString "a1"); pin]) in
  core.Mutability (tree.Attribute pin) = core.MutabilityWriteOnly
  /\ json.ShouldVisit json.newSerializer pin = Return false
  /\ json.Serialize r None = Return (Some (quoted "{'id':'a1'}"), None).
Proof.
  intros pin r.
  assert (Hw : core.Mutability (tree.Attribute pin) = core.MutabilityWriteOnly)
    by reflexivity.
  split; [exact Hw|]. split.
  - exact (proj1 (writeOnly_never_serialized r json.newSerializer) pin Hw).
  - vm_compute. reflexivity.
Defined.

(** ** Commas between siblings *)

Section comma_facts.

Import core tree visit_spec.
Local Open Scope go_scope.
Context `{!strconv.Formatter}.

Lemma bind_Return {S A B : Type} (m : M S A) (k : A -> M S B) s b s' :
  bind m k s = Return (b, s') ->
  exists a s1, m s = Return (a, s1) /\ k a s1 = Return (b, s').
Proof.
  unfold bind. destruct (m s) as [[a s1]|v|]; try done. intros Hk.
  by exists a, s1.
Qed.

Lemma writesOnly_ret {A : Type} (a : A) : writesOnly (ret a).
Proof. intros s a' s' [= <- <-]. exists (json.buffer s). by destruct s. Qed.

Lemma writesOnly_panic {A : Type} v : writesOnly (@panic json.serializer A v).
Proof. by intros s a' s' [=]. Qed.

Lemma writesOnly_bind {A B : Type} (m : json.M A) (k : A -> json.M B) :
  writesOnly m -> (forall a, writesOnly (k a)) -> writesOnly (bind m k).
Proof.
  intros Hm Hk s b s' (a & s1 & Hms & Hks)%bind_Return.
  destruct (Hm _ _ _ Hms) as [b1 ->], (Hk _ _ _ _ Hks) as [b2 ->].
  by exists b2.
Qed.

Lemma writesOnly_WriteString str : writesOnly (json.WriteString str).
Proof. intros s a s' [= <- <-]. by eexists. Qed.

Lemma writesOnly_WriteByte c : writesOnly (json.WriteByte c).
Proof. intros s a s' [= <- <-]. by eexists. Qed.

Lemma writesOnly_current : writesOnly json.current.
Proof.
  intros s a s'. unfold json.current. destruct (last (json.stack s)); [|done].
  intros [= <- <-]. exists (json.buffer s). by destruct s.
Qed.

Lemma writesOnly_appendString v : writesOnly (json.appendString v).
Proof.
  intros s a s'. unfold json.appendString.
  destruct (json.appendStringTo _ _); [|done]. intros [= <- <-]. by eexists.
Qed.

Lemma writesOnly_appendFloat v : writesOnly (json.appendFloat v).
Proof.
  unfold json.appendFloat. destruct (_ || _); [apply writesOnly_panic|].
  apply writesOnly_WriteString.
Qed.

Lemma writesOnly_appendPropertyName a : writesOnly (json.appendPropertyName a).
Proof.
  unfold json.appendPropertyName.
  repeat (apply writesOnly_bind; [|intros _]);
    apply writesOnly_WriteByte || apply writesOnly_WriteString.
Qed.

(** After a typed literal, [Visit] increments the index of the open
    frame. *)
Lemma Visit_literal_increments (s : json.serializer) a raw below f e s' :
  nonNil raw = true ->
  json.stack s = below ++ [f] ->
  json.Visit (Simple a raw) s = Return (e, s') ->
  e = None
  /\ json.stack s'
     = below ++ [json.mkFrame (json.frameContainer f) (json.index f + 1)].
Proof.
  intros Hraw Hst. unfold json.Visit. simpl IsUnassigned. rewrite Hraw. simpl negb.
  intros (f0 & s1 & H1 & HV)%bind_Return.
  apply writesOnly_current in H1 as [b1 ->].
  apply bind_Return in HV as ([] & s2 & H2 & HV).
  assert (exists b2, s2 = json.withBuffer s b2) as [b2 ->].
  { destruct (0 <? json.index f0).
    - apply writesOnly_WriteByte in H2 as [b2 ->]. by eexists.
    - apply writesOnly_ret in H2 as [b2 ->]. by eexists. }
  apply bind_Return in HV as (f1 & s3 & H3 & HV).
  apply writesOnly_current in H3 as [b3 ->].
  apply bind_Return in HV as ([] & s4 & H4 & HV).
  assert (exists b4, s4 = json.withBuffer s b4) as [b4 ->].
  { destruct (negb _).
    - apply writesOnly_appendPropertyName in H4 as [b4 ->]. by eexists.
    - apply writesOnly_ret in H4 as [b4 ->]. by eexists. }
  apply bind_Return in HV as ([] & s5 & H5 & HV).
  assert (exists b5, s5 = json.withBuffer s b5) as [b5 ->].
  { destruct (Type_of a), raw; try done;
      first [ apply writesOnly_appendString in H5 as [b5 ->]
            | apply writesOnly_appendFloat in H5 as [b5 ->]
            | apply writesOnly_WriteString in H5 as [b5 ->]
            | (unfold json.appendBoolean in H5; destruct b;
               apply writesOnly_WriteString in H5 as [b5 ->]) ];
      by eexists. }
  apply bind_Return in HV as ([] & s6 & H6 & HV).
  injection HV as <- <-. split; [done|].
  unfold json.incrementIndex in H6. simpl in H6.
  rewrite Hst, last_snoc, removelast_last in H6. by injection H6 as <-.
Qed.

(** Emitting [null] for an unassigned leaf returns before the increment:
    the stack, and with it the index of the open frame, is left as it
    was. *)
Lemma Visit_unassigned_keeps_stack (s : json.serializer) a f :
  last (json.stack s) = Some f ->
  exists b, json.Visit (Simple a VNil) s = Return (None, json.withBuffer s b).
Proof.
  intros Hf. unfold json.Visit, bind, json.current. rewrite Hf. simpl.
  destruct (0 <? json.index f); simpl; rewrite Hf; simpl;
    destruct (negb _); simpl; eexists; reflexivity.
Qed.

Lemma pop_nonempty (s : json.serializer) :
  json.stack s <> [] ->
  json.pop s = Return (tt, json.withStack s (removelast (json.stack s))).
Proof. unfold json.pop. by destruct (json.stack s). Qed.

Lemma incrementIndex_top (s : json.serializer) below f :
  json.stack s = below ++ [f] ->
  json.incrementIndex s
  = Return (tt, json.withStack s
                  (below ++ [json.mkFrame (json.frameContainer f)
                                          (json.index f + 1)])).
Proof.
  intros Hst. unfold json.incrementIndex.
  by rewrite Hst, last_snoc, removelast_last.
Qed.

(** Closing a container increments the index of the frame below it. *)
Lemma EndChildren_increments_parent (s : json.serializer) c parent top below :
  MultiValued (Attribute c) = true \/ Type_of (Attribute c) = TypeComplex ->
  json.stack s = below ++ [parent; top] ->
  exists b,
    json.EndChildren c s
    = Return (tt, json.mkSerializer b (json.includeFamily s)
                    (json.excludeFamily s)
                    (below ++ [json.mkFrame (json.frameContainer parent)
                                            (json.index parent + 1)])).
Proof.
  intros Hc Hst. unfold json.EndChildren, bind.
  assert (Hw : exists c0,
    (if MultiValued (Attribute c) then json.WriteByte 93
     else match Type_of (Attribute c) with
          | TypeComplex => json.WriteByte 125
          | _ => panic (PanicString "unknown container")
          end) s = Return (tt, json.withBuffer s (json.buffer s ++ [c0]))).
  { destruct (MultiValued (Attribute c)); [by eexists|].
    destruct Hc as [|Hc]; [done|]. rewrite Hc. by eexists. }
  destruct Hw as [c0 ->].
  rewrite pop_nonempty by (simpl; rewrite Hst; by destruct below).
  simpl. rewrite Hst.
  replace (removelast (below ++ [parent; top])) with (below ++ [parent])
    by (by rewrite removelast_app).
  rewrite bool_decide_eq_true_2 by (rewrite length_app; simpl; lia).
  erewrite incrementIndex_top by reflexivity. eexists. reflexivity.
Qed.

End comma_facts.

(** C2 (the code departs from the claim).  In the open frame of the root,
    after [null] is emitted for the unassigned [id] the index of the frame
    is still 0, so the next sibling comes without a comma: the user whose
    [id] is unassigned is serialized with [null] glued to the next key. *)
Theorem Visit_null_does_not_increment :
  (run json.BeginChildren (tree.root demo.newcomer) ;;
   run json.Visit (tree.Simple demo.idAttr VNil) ;;
   json.current)%go json.newSerializer
  = Return (json.mkFrame json.containerObject 0,
            json.mkSerializer (quoted "{'id':null") None None
                              [json.mkFrame json.containerObject 0])
  /\ json.Serialize demo.newcomer None
     = Return (Some (quoted "{'id':null'userName':'bob'}"), None).
Proof. split; vm_compute; reflexivity. Qed.

(** ** Decimals *)

Section float_facts.

Context `{!strconv.Formatter}.

Lemma cleanExponent_strips (mantissa : list Z) (d : Z) :
  json.cleanExponent (mantissa ++ [101; 45; 48; d]) = mantissa ++ [101; 45; d].
Proof.
  unfold json.cleanExponent. rewrite length_app. simpl length.
  rewrite bool_decide_eq_true_2 by lia.
  replace (length mantissa + 4 - 4)%nat with (length mantissa + 0)%nat by lia.
  replace (length mantissa + 4 - 3)%nat with (length mantissa + 1)%nat by lia.
  replace (length mantissa + 4 - 2)%nat with (length mantissa + 2)%nat by lia.
  replace (length mantissa + 4 - 1)%nat with (length mantissa + 3)%nat by lia.
  rewrite !(app_nth2_plus mantissa). simpl.
  rewrite insert_app_r. simpl.
  rewrite take_app_ge by lia.
  replace (length mantissa + 3 - length mantissa)%nat with 3%nat by lia.
  done.
Qed.

(** C8 (amended).  For NaN and the infinities [appendFloat] panics with an
    error of kind [internal].  For a finite [value] it writes what
    [strconv.AppendFloat] prints, in exponential notation when [value] is
    not zero and its absolute value is below 1e-6 or at least 1e21, and in
    fixed notation otherwise (zero included); in exponential notation an
    exponent printed [e-0d] is rewritten [e-d], so that a formatter printing
    1.5e-9 as [1.5e-09] yields [1.5e-9]. *)
Theorem appendFloat_notation (value : float) (s : json.serializer) :
  (PrimFloat.is_infinity value || PrimFloat.is_nan value = true ->
   exists err, json.appendFloat value s = Panic (PanicError err)
               /\ errors.errKind err = errors.internal)
  /\ (PrimFloat.is_infinity value || PrimFloat.is_nan value = false ->
      json.appendFloat value s
      = Return (tt, json.withBuffer s
          (json.buffer s ++
           if negb (PrimFloat.eqb (PrimFloat.abs value) 0)
              && (PrimFloat.ltb (PrimFloat.abs value) 0x1.0c6f7a0b5ed8dp-20
                  || PrimFloat.leb 0x1.b1ae4d6e2ef5p+69 (PrimFloat.abs value))
           then json.cleanExponent (strconv.AppendFloat [] value 101 (-1) 64)
           else strconv.AppendFloat [] value 102 (-1) 64)))
  /\ (forall mantissa d,
        json.cleanExponent (mantissa ++ bytes "e-0" ++ [d])
        = mantissa ++ bytes "e-" ++ [d])
  /\ json.cleanExponent (bytes "1e+21") = bytes "1e+21"
  /\ json.cleanExponent (bytes "1.5e-10") = bytes "1.5e-10"
  /\ (strconv.AppendFloat [] 1.5e-9 101 (-1) 64 = bytes "1.5e-09" ->
      json.appendFloat 1.5e-9 s
      = Return (tt, json.withBuffer s (json.buffer s ++ bytes "1.5e-9"))).
Proof.
  split; [|split; [|split; [|split; [|split]]]].
  - intros Hbad. unfold json.appendFloat. rewrite Hbad. eexists. by split.
  - intros Hok. unfold json.appendFloat, json.floatFormat. rewrite Hok.
    set (nonzero := negb (PrimFloat.eqb (PrimFloat.abs value) 0)).
    set (extreme := PrimFloat.ltb (PrimFloat.abs value) _
                    || PrimFloat.leb _ (PrimFloat.abs value)).
    by destruct nonzero, extreme.
  - intros mantissa d. apply cleanExponent_strips.
  - by vm_compute.
  - by vm_compute.
  - intros Hfmt. unfold json.appendFloat.
    replace (PrimFloat.is_infinity 1.5e-9 || PrimFloat.is_nan 1.5e-9)
      with false by (by vm_compute).
    replace (json.floatFormat 1.5e-9) with 101 by (by vm_compute).
    rewrite Hfmt. simpl. unfold json.Write, json.WriteString.
    do 3 f_equal.
Qed.

End float_facts.

(** Zero is below 1e-6 in absolute value and is written in fixed notation:
    the claim of C8 fails at 0. *)
Lemma floatFormat_zero_counterexample :
  ~ (PrimFloat.ltb (PrimFloat.abs 0) 0x1.0c6f7a0b5ed8dp-20 = true ->
     json.floatFormat 0 = 101).
Proof. intros H. specialize (H eq_refl). vm_compute in H. discriminate. Qed.

(** With a formatter that prints 1.5e-9 as [1.5e-09], the serializer writes
    [1.5e-9]; NaN panics with an internal error. *)
Lemma appendFloat_notation_witness :
  PrimFloat.is_infinity nan || PrimFloat.is_nan nan = true
  /\ (exists err, json.appendFloat nan json.newSerializer = Panic (PanicError err)
                  /\ errors.errKind err = errors.internal)
  /\ PrimFloat.is_infinity 0.25 || PrimFloat.is_nan 0.25 = false
  /\ json.appendFloat 0.25 json.newSerializer
     = Return (tt, json.withBuffer json.newSerializer (bytes "0.25"))
  /\ strconv.AppendFloat [] 1.5e-9 101 (-1) 64 = bytes "1.5e-09"
  /\ json.appendFloat 1.5e-9 json.newSerializer
     = Return (tt, json.withBuffer json.newSerializer (bytes "1.5e-9")).
Proof.
  assert (H1 : PrimFloat.is_infinity nan || PrimFloat.is_nan nan = true)
    by reflexivity.
  assert (H2 : PrimFloat.is_infinity 0.25 || PrimFloat.is_nan 0.25 = false)
    by reflexivity.
  assert (H3 : strconv.AppendFloat [] 1.5e-9 101 (-1) 64 = bytes "1.5e-09")
    by reflexivity.
  split; [exact H1|]. split.
  { exact (proj1 (appendFloat_notation nan json.newSerializer) H1). }
  split; [exact H2|]. split.
  { exact (proj1 (proj2 (appendFloat_notation 0.25 json.newSerializer)) H2). }
  split; [exact H3|].
  exact (proj2 (proj2 (proj2 (proj2 (proj2
           (appendFloat_notation 1.5e-9 json.newSerializer))))) H3).
Defined.

(** ** Strings *)

Section string_facts.

Import string_spec.

Lemma bytes_range (s : string) : Forall (fun b => 0 <= b < 256) (bytes s).
Proof.
  unfold bytes. induction s as [|a s IH]; simpl; constructor; [|done].
  pose proof (N_ascii_bounded a). lia.
Qed.

Lemma multibyte_cases (s0 : Z) (rest : list Z) (sz lo hi : Z) c size :
  0x80 <= s0 -> 2 <= sz <= 4 -> 0x80 <= lo -> hi <= 0xBF ->
  (if Z.of_nat (length (s0 :: rest)) <? sz then (utf8.RuneError, 1)
   else
     match rest with
     | [] => (utf8.RuneError, 1)
     | s1 :: rest =>
         if (s1 <? lo) || (hi <? s1) then (utf8.RuneError, 1)
         else if sz <=? 2 then
           (Z.lor (Z.shiftl (Z.land s0 utf8.mask2) 6) (Z.land s1 utf8.maskx), 2)
         else
           match rest with
           | [] => (utf8.RuneError, 1)
           | s2 :: rest =>
               if (s2 <? utf8.locb) || (utf8.hicb <? s2) then (utf8.RuneError, 1)
               else if sz <=? 3 then
                 (Z.lor (Z.lor (Z.shiftl (Z.land s0 utf8.mask3) 12)
                               (Z.shiftl (Z.land s1 utf8.maskx) 6))
                        (Z.land s2 utf8.maskx), 3)
               else
                 match rest with
                 | [] => (utf8.RuneError, 1)
                 | s3 :: _ =>
                     if (s3 <? utf8.locb) || (utf8.hicb <? s3)
                     then (utf8.RuneError, 1)
                     else
                       (Z.lor (Z.lor (Z.lor
                          (Z.shiftl (Z.land s0 utf8.mask4) 18)
                          (Z.shiftl (Z.land s1 utf8.maskx) 12))
                          (Z.shiftl (Z.land s2 utf8.maskx) 6))
                          (Z.land s3 utf8.maskx), 4)
                 end
           end
     end) = (c, size) ->
  (size = 1 /\ ((s0 < 0x80 /\ c = s0) \/ (0x80 <= s0 /\ c = utf8.RuneError)))
  \/ (2 <= size <= 4 /\ size <= Z.of_nat (length (s0 :: rest))
      /\ 0x80 <= s0
      /\ Forall (fun x => 0x80 <= x <= 0xBF) (take (Z.to_nat size - 1) rest)).
Proof.
  intros Hs0 Hsz Hlo Hhi. unfold utf8.locb, utf8.hicb.
  destruct rest as [|s1 [|s2 [|s3 rest]]];
    repeat match goal with
           | |- context [if ?b then _ else _] => destruct b eqn:?
           end;
    intros [= <- <-];
    try (left; split; [done|right; by split]);
    right; simpl length in *;
    repeat match goal with
           | H : (_ || _) = false |- _ => apply orb_false_elim in H as [? ?]
           | H : (_ <? _) = false |- _ => apply Z.ltb_ge in H
           | H : (_ <=? _) = false |- _ => apply Z.leb_gt in H
           | H : (_ <=? _) = true |- _ => apply Z.leb_le in H
           end;
    (split; [lia|split; [lia|split; [lia|]]]); simpl; repeat constructor; lia.
Qed.

Lemma DecodeRuneInString_cases (s0 : Z) (rest : list Z) c size :
  utf8.DecodeRuneInString (s0 :: rest) = (c, size) ->
  (size = 1 /\ ((s0 < 0x80 /\ c = s0) \/ (0x80 <= s0 /\ c = utf8.RuneError)))
  \/ (2 <= size <= 4 /\ size <= Z.of_nat (length (s0 :: rest))
      /\ 0x80 <= s0
      /\ Forall (fun x => 0x80 <= x <= 0xBF) (take (Z.to_nat size - 1) rest)).
Proof.
  unfold utf8.DecodeRuneInString, utf8.first.
  repeat match goal with
         | |- context [if ?b <? ?k then _ else _] =>
             is_var b; destruct (Z.ltb_spec b k)
         | |- context [if ?b =? ?k then _ else _] =>
             is_var b; destruct (Z.eqb_spec b k)
         end; cbn -[Z.of_nat Z.ltb Z.lor Z.land Z.shiftl length].
  all: try (intros [= <- <-]; left; split; [done|];
            first [left; split; [lia|done] | right; split; [lia|done]]).
  all: apply multibyte_cases; try lia; vm_compute;
    (discriminate || (split; discriminate)).
Qed.

Lemma take_add_drop {A} (l : list A) (a n : nat) :
  take (a + n) l = take a l ++ take n (drop a l).
Proof.
  revert l. induction a as [|a IH]; intros [|x l]; simpl; try done.
  - by rewrite take_nil.
  - by rewrite IH.
Qed.

Lemma slice_self (value : list Z) (i : nat) : json.slice value i i = [].
Proof. unfold json.slice. by replace (i - i)%nat with 0%nat by lia. Qed.

Lemma slice_extend (value : list Z) (start i n : nat) :
  (start <= i)%nat ->
  json.slice value start (i + n)
  = json.slice value start i ++ take n (drop i value).
Proof.
  intros Hle. unfold json.slice.
  replace (i + n - start)%nat with ((i - start) + n)%nat by lia.
  rewrite take_add_drop, drop_drop.
  by replace (start + (i - start))%nat with i by lia.
Qed.

Lemma slice_to_end (value : list Z) (start : nat) :
  json.slice value start (length value) = drop start value.
Proof. unfold json.slice. apply take_ge. rewrite length_drop. lia. Qed.

Lemma flush_slice (b value : list Z) (start i : nat) :
  (start <= i)%nat -> json.flush b value start i = b ++ json.slice value start i.
Proof.
  intros Hle. unfold json.flush. case_bool_decide; [done|].
  replace start with i by lia. by rewrite slice_self, app_nil_r.
Qed.

Lemma drop_nth_cons (value : list Z) (i : nat) :
  (i < length value)%nat ->
  drop i value = nth i value 0 :: drop (S i) value.
Proof.
  revert i. induction value as [|x value IH]; intros [|i] Hlt; simpl in *;
    try lia; try done.
  apply IH. lia.
Qed.


Lemma stringLoop_refines (fuel : nat) :
  forall (value : list Z) (start i : nat) (b : list Z),
    (start <= i)%nat -> (i <= length value)%nat ->
    (length value - i <= fuel)%nat ->
    exists r,
      json.stringLoop fuel value start i b = Some r
      /\ finished value r
         = b ++ json.slice value start i
             ++ flat_map encodePiece (cut fuel (drop i value)).
Proof.
  assert (Hexit : forall fuel value start i b,
    (start <= i)%nat -> i = length value ->
    exists r,
      json.stringLoop fuel value start i b = Some r
      /\ finished value r
         = b ++ json.slice value start i
             ++ flat_map encodePiece (cut fuel (drop i value))).
  { intros f value start i b Hs ->. exists (b, start). split.
    - destruct f; simpl; by rewrite bool_decide_eq_false_2 by lia.
    - rewrite drop_all. replace (cut f []) with (@nil piece) by (by destruct f).
      simpl. rewrite app_nil_r, slice_to_end. unfold finished. simpl.
      case_bool_decide; [done|]. rewrite drop_ge by lia. by rewrite app_nil_r. }
  induction fuel as [|fuel IH]; intros value start i b Hs Hi Hf.
  { apply Hexit; [done|lia]. }
  destruct (decide (i = length value)) as [->|Hne]; [by apply Hexit|].
  assert (Hlt : (i < length value)%nat) by lia.
  rewrite (drop_nth_cons value i Hlt).
  set (c0 := nth i value 0). set (rest := drop (S i) value).
  assert (Hstep : json.stringLoop (S fuel) value start i b
    = if c0 <? utf8.RuneSelf then
        if json.htmlSafeSet c0 then json.stringLoop fuel value start (i + 1) b
        else json.stringLoop fuel value (i + 1) (i + 1)
               ((json.flush b value start i ++ [92]) ++ json.escapeByte c0)
      else
        let '(c, size) := utf8.DecodeRuneInString (c0 :: rest) in
        if (c =? utf8.RuneError) && (size =? 1) then
          json.stringLoop fuel value (i + Z.to_nat size) (i + Z.to_nat size)
            (json.flush b value start i ++ json.replacementEscape)
        else if (c =? 0x2028) || (c =? 0x2029) then
          json.stringLoop fuel value (i + Z.to_nat size) (i + Z.to_nat size)
            ((json.flush b value start i ++ bytes "\u202")
               ++ [json.hex (Z.land c 0xF)])
        else json.stringLoop fuel value start (i + Z.to_nat size) b).
  { simpl. rewrite bool_decide_eq_true_2 by done.
    by rewrite (drop_nth_cons value i Hlt). }
  rewrite Hstep. clear Hstep.
  assert (Hcons : drop i value = c0 :: rest) by apply (drop_nth_cons value i Hlt).
  assert (Hrest1 : drop (i + 1) value = rest)
    by (unfold rest; f_equal; lia).
  assert (Hone : take 1 (drop i value) = [c0]) by (by rewrite Hcons).
  cbn [cut]. fold c0. fold rest.
  destruct (c0 <? utf8.RuneSelf) eqn:Hascii.
  - cbn [flat_map encodePiece].
    destruct (json.htmlSafeSet c0) eqn:Hsafe.
    + destruct (IH value start (i + 1)%nat b) as (r & Hr & Hfin); try lia.
      exists r. split; [done|]. rewrite Hfin, Hrest1.
      rewrite slice_extend, Hone by done. by rewrite <- !app_assoc.
    + destruct (IH value (i + 1)%nat (i + 1)%nat
                   ((json.flush b value start i ++ [92]) ++ json.escapeByte c0))
        as (r & Hr & Hfin); try lia.
      exists r. split; [done|]. rewrite Hfin, Hrest1.
      rewrite slice_self, flush_slice by done. simpl.
      by rewrite <- !app_assoc.
  - destruct (utf8.DecodeRuneInString (c0 :: rest)) as [c size] eqn:Hdec.
    apply Z.ltb_ge in Hascii. unfold utf8.RuneSelf in Hascii.
    destruct (DecodeRuneInString_cases _ _ _ _ Hdec)
      as [[-> [[? _]|[_ ->]]]|(Hsize & Hlen & _ & Hhigh)]; [lia| |].
    + rewrite Z.eqb_refl. simpl andb. cbv iota.
      change (Z.to_nat 1) with 1%nat.
      destruct (IH value (i + 1)%nat (i + 1)%nat
                   (json.flush b value start i ++ json.replacementEscape))
        as (r & Hr & Hfin); try lia.
      exists r. split; [done|]. rewrite Hfin, Hrest1.
      rewrite slice_self, flush_slice by done. cbn [flat_map encodePiece].
      by rewrite <- !app_assoc.
    + replace ((c =? utf8.RuneError) && (size =? 1)) with false
        by (symmetry; apply andb_false_intro2, Z.eqb_neq; lia).
      assert (Hlen' : (i + Z.to_nat size <= length value)%nat).
      { simpl length in Hlen. unfold rest in Hlen.
        rewrite length_drop in Hlen. lia. }
      assert (Hdrop : drop (Z.to_nat size) (c0 :: rest)
                      = drop (i + Z.to_nat size) value).
      { rewrite <- Hcons. by rewrite drop_drop. }
      assert (Htake : take (Z.to_nat size) (c0 :: rest)
                      = take (Z.to_nat size) (drop i value)).
      { by rewrite <- Hcons. }
      cbn [flat_map encodePiece]. rewrite Hdrop.
      destruct ((c =? 0x2028) || (c =? 0x2029)) eqn:Hsep.
      * destruct (IH value (i + Z.to_nat size)%nat (i + Z.to_nat size)%nat
                     ((json.flush b value start i ++ bytes "\u202")
                        ++ [json.hex (Z.land c 0xF)]))
          as (r & Hr & Hfin); try lia.
        exists r. split; [done|]. rewrite Hfin.
        rewrite slice_self, flush_slice by done.
        by rewrite <- !app_assoc.
      * destruct (IH value start (i + Z.to_nat size)%nat b)
          as (r & Hr & Hfin); try lia.
        exists r. split; [done|]. rewrite Hfin.
        rewrite slice_extend, Htake by done. by rewrite <- !app_assoc.
Qed.

(** One step of [cut] on a string that is not empty. *)
Lemma cut_cons (fuel : nat) (b : Z) (rest : list Z) :
  cut (S fuel) (b :: rest)
  = if b <? utf8.RuneSelf then Ascii b :: cut fuel rest
    else
      let '(c, size) := utf8.DecodeRuneInString (b :: rest) in
      if (c =? utf8.RuneError) && (size =? 1) then Invalid b :: cut fuel rest
      else Rune c (take (Z.to_nat size) (b :: rest))
             :: cut fuel (drop (Z.to_nat size) (b :: rest)).
Proof. reflexivity. Qed.

(** The three ways [cut] takes its first piece. *)
Lemma cut_cons_cases (fuel : nat) (b : Z) (rest : list Z) :
  (b < 0x80 /\ cut (S fuel) (b :: rest) = Ascii b :: cut fuel rest)
  \/ (0x80 <= b /\ utf8.DecodeRuneInString (b :: rest) = (utf8.RuneError, 1)
      /\ cut (S fuel) (b :: rest) = Invalid b :: cut fuel rest)
  \/ (exists c size,
        0x80 <= b /\ utf8.DecodeRuneInString (b :: rest) = (c, size)
        /\ 2 <= size <= 4 /\ size <= Z.of_nat (length (b :: rest))
        /\ Forall (fun x => 0x80 <= x <= 0xBF) (take (Z.to_nat size - 1) rest)
        /\ cut (S fuel) (b :: rest)
           = Rune c (take (Z.to_nat size) (b :: rest))
               :: cut fuel (drop (Z.to_nat size) (b :: rest))).
Proof.
  rewrite cut_cons. unfold utf8.RuneSelf.
  destruct (Z.ltb_spec b 0x80) as [Hlt|Hge]; [left; by split|right].
  destruct (utf8.DecodeRuneInString (b :: rest)) as [c size] eqn:Hdec.
  destruct (DecodeRuneInString_cases _ _ _ _ Hdec)
    as [[-> [[? _]|[_ ->]]]|(Hsize & Hlen & _ & Hcont)]; [lia| |].
  - left. by rewrite Z.eqb_refl.
  - right. exists c, size.
    replace ((c =? utf8.RuneError) && (size =? 1)) with false
      by (symmetry; apply andb_false_intro2, Z.eqb_neq; lia).
    repeat split; try done; lia.
Qed.

Lemma cut_nil (fuel : nat) : cut fuel [] = [].
Proof. by destruct fuel. Qed.

Lemma cut_fuel (f1 : nat) :
  forall f2 value,
    (length value <= f1)%nat -> (length value <= f2)%nat ->
    cut f1 value = cut f2 value.
Proof.
  induction f1 as [|f1 IH]; intros f2 [|b rest] H1 H2; simpl in H1, H2;
    try lia; try (by rewrite !cut_nil).
  destruct f2 as [|f2]; [lia|].
  rewrite !cut_cons.
  destruct (b <? utf8.RuneSelf); [f_equal; apply IH; lia|].
  destruct (utf8.DecodeRuneInString (b :: rest)) as [c size] eqn:Hdec.
  destruct ((c =? utf8.RuneError) && (size =? 1)); [f_equal; apply IH; lia|].
  destruct (DecodeRuneInString_cases _ _ _ _ Hdec)
    as [[-> _]|(Hsize & Hlen & _)].
  - f_equal. apply IH; simpl; rewrite ?drop_0; lia.
  - f_equal. apply IH; rewrite length_drop; simpl length; lia.
Qed.

(** The pieces partition the string. *)
Lemma cut_partition (fuel : nat) :
  forall value, (length value <= fuel)%nat ->
                flat_map pieceBytes (cut fuel value) = value.
Proof.
  induction fuel as [|fuel IH]; intros [|b rest] Hlen; simpl in Hlen;
    try lia; try (by rewrite cut_nil).
  destruct (cut_cons_cases fuel b rest)
    as [[_ ->]|[(_ & _ & ->)|(c & size & _ & _ & Hsize & Hle & _ & ->)]];
    cbn [flat_map pieceBytes].
  - simpl. f_equal. apply IH. lia.
  - simpl. f_equal. apply IH. lia.
  - rewrite IH by (rewrite length_drop; simpl length; lia).
    apply take_drop.
Qed.


Lemma cut_wellCut (fuel : nat) :
  forall value, Forall wellCut (cut fuel value).
Proof.
  induction fuel as [|fuel IH]; intros [|b rest]; try by constructor.
  destruct (cut_cons_cases fuel b rest)
    as [[? ->]|[(? & _ & ->)|(c & size & ? & _ & Hsize & Hle & Hcont & ->)]];
    constructor; try done; try apply IH.
  simpl. replace (Z.to_nat size) with (S (Z.to_nat size - 1)) by lia.
  simpl. constructor; [done|].
  eapply Forall_impl; [exact Hcont|]. simpl. lia.
Qed.

(** A byte that is no continuation byte starts a piece, wherever it stands
    in the string. *)
Lemma cut_at_lead (fuel : nat) :
  forall pre x post,
    (x < 0x80 \/ 0xC0 <= x) ->
    (length (pre ++ x :: post) <= fuel)%nat ->
    exists before,
      flat_map pieceBytes before = pre
      /\ cut fuel (pre ++ x :: post) = before ++ cut fuel (x :: post).
Proof.
  induction fuel as [|fuel IH]; intros pre x post Hx Hlen.
  { rewrite length_app in Hlen. simpl in Hlen. lia. }
  destruct pre as [|p0 pre]; [by exists []|].
  simpl app in *. simpl length in Hlen.
  assert (Hrest : forall pre',
    (length pre' <= length pre)%nat ->
    exists before,
      flat_map pieceBytes before = pre'
      /\ cut fuel (pre' ++ x :: post) = before ++ cut (S fuel) (x :: post)).
  { intros pre' Hle.
    destruct (IH pre' x post Hx) as (before & Hb & Hc).
    { rewrite length_app in *. simpl in *. lia. }
    exists before. split; [done|]. rewrite Hc. f_equal.
    apply cut_fuel; rewrite length_app in Hlen; simpl in *; lia. }
  destruct (cut_cons_cases fuel p0 (pre ++ x :: post))
    as [[_ ->]|[(_ & _ & ->)|(c & size & _ & _ & Hsize & Hle & Hcont & ->)]].
  - destruct (Hrest pre) as (before & Hb & ->); [done|].
    exists (Ascii p0 :: before). split; [by simpl; rewrite Hb|done].
  - destruct (Hrest pre) as (before & Hb & ->); [done|].
    exists (Invalid p0 :: before). split; [by simpl; rewrite Hb|done].
  - assert (Hin : (Z.to_nat size - 1 <= length pre)%nat).
    { destruct (decide (Z.to_nat size - 1 <= length pre)%nat); [done|].
      exfalso.
      assert (Hlook : take (Z.to_nat size - 1) (pre ++ x :: post)
                        !! length pre = Some x).
      { rewrite lookup_take_lt by lia. by rewrite list_lookup_middle. }
      pose proof (Forall_lookup_1 _ _ _ _ Hcont Hlook) as Hr. simpl in Hr.
      lia. }
    replace (Z.to_nat size) with (S (Z.to_nat size - 1)) by lia.
    simpl take. simpl drop.
    rewrite take_app_le, drop_app_le by done.
    destruct (Hrest (drop (Z.to_nat size - 1) pre)) as (before & Hb & ->).
    { rewrite length_drop. lia. }
    exists (Rune c (p0 :: take (Z.to_nat size - 1) pre) :: before).
    split; [|done]. simpl. rewrite Hb. f_equal. apply take_drop.
Qed.


(** The loop always reaches its exit, and [appendString] writes the
    encodings of the pieces between two quotes. *)
Lemma appendStringTo_pieces (b value : list Z) :
  json.appendStringTo b value
  = Some (b ++ [34] ++ flat_map encodePiece (pieces value) ++ [34]).
Proof.
  unfold json.appendStringTo.
  destruct (stringLoop_refines (length value) value 0 0 (b ++ [34]))
    as ([b' start'] & -> & Hfin); try lia.
  unfold finished in Hfin. cbn [fst snd] in Hfin. rewrite Hfin.
  rewrite slice_self, drop_0. unfold pieces. simpl.
  by rewrite <- !app_assoc.
Qed.

Lemma escapeByte_printable (b : Z) :
  0 <= b < 0x80 -> Forall (fun c => 0x20 <= c) (json.escapeByte b).
Proof.
  intros Hb.
  assert (Hall : forallb (fun b => forallb (fun c => 0x20 <=? c)
                                           (json.escapeByte b))
                         (seqZ 0 0x80) = true) by (by vm_compute).
  rewrite forallb_forall in Hall.
  specialize (Hall b). rewrite <- list_elem_of_In, elem_of_seqZ in Hall.
  specialize (Hall ltac:(lia)). rewrite forallb_forall in Hall.
  apply Forall_forall. intros c Hc. apply Z.leb_le, Hall.
  by apply list_elem_of_In.
Qed.

Lemma controlEscape_encodePiece (b : Z) :
  0 <= b < 0x20 -> controlEscape b (encodePiece (Ascii b)).
Proof.
  intros Hb. assert (Hin : b ∈ seqZ 0 0x20) by (apply elem_of_seqZ; lia).
  let l := eval vm_compute in (seqZ 0 0x20) in change (seqZ 0 0x20) with l in Hin.
  repeat (apply elem_of_cons in Hin as [->|Hin]);
    try (by apply elem_of_nil in Hin);
    unfold controlEscape;
    first [ left; split; reflexivity
          | right; left; split; reflexivity
          | right; right; left; split; reflexivity
          | right; right; right;
            split; [discriminate|split; [discriminate|split; [discriminate|]]];
            eexists _, _, _, _;
            split; [reflexivity|split; [reflexivity|split; reflexivity]] ].
Qed.

Lemma encodePiece_printable (u : piece) :
  wellCut u -> Forall (fun b => 0 <= b) (pieceBytes u) ->
  Forall (fun c => 0x20 <= c) (encodePiece u).
Proof.
  destruct u as [b|b|c encoding]; simpl; intros Hw Hr.
  - destruct (json.htmlSafeSet b) eqn:Hsafe.
    + constructor; [|done]. unfold json.htmlSafeSet in Hsafe.
      apply andb_prop in Hsafe as [Hsafe _].
      apply andb_prop in Hsafe as [Hsafe _]. by apply Z.leb_le.
    + constructor; [done|]. apply escapeByte_printable.
      inversion Hr; subst. lia.
  - by repeat constructor.
  - destruct (Z.eqb_spec c 0x2028) as [->|_]; [by repeat constructor|].
    destruct (Z.eqb_spec c 0x2029) as [->|_]; [by repeat constructor|].
    simpl. eapply Forall_impl; [exact Hw|]. simpl. lia.
Qed.

Lemma DecodeRuneInString_separator (k : Z) (rest : list Z) :
  k = 168 \/ k = 169 ->
  utf8.DecodeRuneInString (226 :: 128 :: k :: rest) = (0x2000 + k - 128, 3).
Proof.
  intros Hk. unfold utf8.DecodeRuneInString.
  change (utf8.first 226) with utf8.s3.
  change (utf8.as_ <=? utf8.s3) with false. cbv iota.
  change (Z.land utf8.s3 7) with 3.
  change (utf8.acceptRanges (Z.shiftr utf8.s3 4)) with (0x80, 0xBF).
  replace (Z.of_nat (length (226 :: 128 :: k :: rest)) <? 3) with false
    by (symmetry; apply Z.ltb_ge; simpl length; lia).
  by destruct Hk as [-> | ->].
Qed.

Lemma cut_separator (fuel : nat) (k : Z) (rest : list Z) :
  k = 168 \/ k = 169 ->
  cut (S fuel) (226 :: 128 :: k :: rest)
  = Rune (0x2000 + k - 128) [226; 128; k] :: cut fuel rest.
Proof.
  intros Hk. rewrite cut_cons, DecodeRuneInString_separator by done.
  by destruct Hk as [-> | ->].
Qed.

(** An ASCII byte of the string is a piece between the pieces of what
    comes before it and the pieces of what comes after. *)
Lemma pieces_at_ascii (pre : list Z) (b : Z) (post : list Z) :
  b < 0x80 ->
  exists before,
    flat_map pieceBytes before = pre
    /\ pieces (pre ++ b :: post) = before ++ Ascii b :: pieces post.
Proof.
  intros Hb. unfold pieces.
  destruct (cut_at_lead (length (pre ++ b :: post)) pre b post)
    as (before & Hpre & ->); [lia|done|].
  exists before. split; [done|]. f_equal.
  rewrite length_app. simpl length.
  replace (length pre + S (length post))%nat
    with (S (length pre + length post)) by lia.
  rewrite cut_cons. unfold utf8.RuneSelf.
  destruct (Z.ltb_spec b 0x80); [|lia]. f_equal. apply cut_fuel; lia.
Qed.

(** The encoding of U+2028 or U+2029 in the string is a piece of its
    own, wherever it stands. *)
Lemma pieces_at_separator (pre : list Z) (k : Z) (post : list Z) :
  k = 168 \/ k = 169 ->
  exists before,
    flat_map pieceBytes before = pre
    /\ pieces (pre ++ [226; 128; k] ++ post)
       = before ++ Rune (0x2000 + k - 128) [226; 128; k] :: pieces post.
Proof.
  intros Hk. unfold pieces. simpl app.
  destruct (cut_at_lead (length (pre ++ 226 :: 128 :: k :: post)) pre 226
                        (128 :: k :: post))
    as (before & Hpre & ->); [lia|done|].
  exists before. split; [done|]. f_equal.
  rewrite length_app. simpl length.
  replace (length pre + S (S (S (length post))))%nat
    with (S (length pre + 2 + length post)) by lia.
  rewrite cut_separator by done. f_equal. apply cut_fuel; lia.
Qed.

Lemma DecodeRuneInString_never_valid (b : Z) (rest : list Z) :
  b = 0xC0 \/ b = 0xC1 \/ 0xF5 <= b ->
  utf8.DecodeRuneInString (b :: rest) = (utf8.RuneError, 1).
Proof.
  intros Hb. unfold utf8.DecodeRuneInString, utf8.first.
  repeat match goal with
         | |- context [if ?x <? ?k then _ else _] =>
             is_var x; destruct (Z.ltb_spec x k)
         | |- context [if ?x =? ?k then _ else _] =>
             is_var x; destruct (Z.eqb_spec x k)
         end; try lia; reflexivity.
Qed.

(** A byte that no UTF-8 sequence contains (C0, C1, F5 and above) is a piece
    of its own, an invalid one, wherever it stands. *)
Lemma pieces_at_never_valid (pre : list Z) (b : Z) (post : list Z) :
  b = 0xC0 \/ b = 0xC1 \/ 0xF5 <= b ->
  exists before,
    flat_map pieceBytes before = pre
    /\ pieces (pre ++ b :: post) = before ++ Invalid b :: pieces post.
Proof.
  intros Hb. unfold pieces.
  destruct (cut_at_lead (length (pre ++ b :: post)) pre b post)
    as (before & Hpre & ->); [lia|done|].
  exists before. split; [done|]. f_equal.
  rewrite length_app. simpl length.
  replace (length pre + S (length post))%nat
    with (S (length pre + length post)) by lia.
  rewrite cut_cons, DecodeRuneInString_never_valid by done.
  unfold utf8.RuneSelf. destruct (Z.ltb_spec b 0x80); [lia|].
  simpl. f_equal. apply cut_fuel; lia.
Qed.

Lemma pieces_bytes_range (value : list Z) :
  Forall (fun b => 0 <= b < 256) value ->
  Forall (fun u => Forall (fun b => 0 <= b) (pieceBytes u)) (pieces value).
Proof.
  intros Hr. apply Forall_forall. intros u Hu. apply Forall_forall.
  intros b Hb. assert (Hin : b ∈ flat_map pieceBytes (pieces value)).
  { apply list_elem_of_In, in_flat_map. exists u.
    split; by apply list_elem_of_In. }
  unfold pieces in Hin. rewrite cut_partition in Hin by done.
  rewrite Forall_forall in Hr. specialize (Hr b Hin). lia.
Qed.

Lemma body_printable (value : list Z) :
  Forall (fun b => 0 <= b < 256) value ->
  Forall (fun c => 0x20 <= c) (flat_map encodePiece (pieces value)).
Proof.
  intros Hr. pose proof (pieces_bytes_range value Hr) as Hb.
  pose proof (cut_wellCut (length value) value) as Hw. fold (pieces value) in Hw.
  induction (pieces value) as [|u us IH]; [constructor|].
  inversion Hb; inversion Hw; subst. simpl. apply Forall_app. split.
  - by apply encodePiece_printable.
  - by apply IH.
Qed.

Section appendString_facts.

Variable value : string.
Variable s : json.serializer.

Let v : list Z := bytes value.
Let body : list Z := flat_map encodePiece (pieces v).

(** C9.  [appendString] never runs out of iterations: it writes, between
    two quotes, the encodings of the pieces of the string, which partition
    it.  No byte below 0x20 is written.  Wherever a control byte stands in
    the string, its escape is written in its place: the short form of line
    feed, carriage return and tab, or [u00] and the two hexadecimal digits of
    the byte after a backslash.  A byte where the decoder finds no UTF-8
    sequence is written as the escape of U+FFFD, and a byte that no UTF-8
    sequence contains is so wherever it stands.  Wherever the encoding of
    U+2028 or U+2029 stands, the escape [u2028] or [u2029] is written in its
    place. *)
Theorem appendString_escapes :
  json.appendString value s
  = Return (tt, json.withBuffer s (json.buffer s ++ [34] ++ body ++ [34]))
  /\ flat_map pieceBytes (pieces v) = v
  /\ Forall (fun c => 0x20 <= c) body
  /\ (forall pre b post,
        v = pre ++ b :: post -> 0 <= b < 0x20 ->
        controlEscape b (encodePiece (Ascii b))
        /\ exists before,
            flat_map pieceBytes before = pre
            /\ body = flat_map encodePiece before
                        ++ encodePiece (Ascii b)
                        ++ flat_map encodePiece (pieces post))
  /\ (forall b, encodePiece (Invalid b) = bytes "\ufffd")
  /\ (forall pre b post,
        v = pre ++ b :: post -> b = 0xC0 \/ b = 0xC1 \/ 0xF5 <= b ->
        exists before,
          flat_map pieceBytes before = pre
          /\ body = flat_map encodePiece before
                      ++ bytes "\ufffd"
                      ++ flat_map encodePiece (pieces post))
  /\ (forall pre k post,
        v = pre ++ [226; 128; k] ++ post -> k = 168 \/ k = 169 ->
        exists before,
          flat_map pieceBytes before = pre
          /\ body = flat_map encodePiece before
                      ++ (if k =? 168 then bytes "\u2028" else bytes "\u2029")
                      ++ flat_map encodePiece (pieces post)).
Proof.
  assert (Hrange : Forall (fun b => 0 <= b < 256) v) by apply bytes_range.
  split; [|split; [|split; [|split; [|split; [|split]]]]].
  - unfold json.appendString. fold v. by rewrite appendStringTo_pieces.
  - by apply cut_partition.
  - by apply body_printable.
  - intros pre b post Hv Hb. split; [by apply controlEscape_encodePiece|].
    destruct (pieces_at_ascii pre b post) as (before & Hpre & Hp); [lia|].
    exists before. split; [done|]. unfold body. rewrite Hv, Hp.
    rewrite flat_map_app. cbn [flat_map]. by rewrite <- ?app_assoc.
  - done.
  - intros pre b post Hv Hb.
    destruct (pieces_at_never_valid pre b post Hb) as (before & Hpre & Hp).
    exists before. split; [done|]. unfold body. rewrite Hv, Hp.
    rewrite flat_map_app. cbn [flat_map encodePiece].
    by rewrite <- ?app_assoc.
  - intros pre k post Hv Hk.
    destruct (pieces_at_separator pre k post Hk) as (before & Hpre & Hp).
    exists before. split; [done|]. unfold body. rewrite Hv, Hp.
    rewrite flat_map_app. cbn [flat_map].
    destruct Hk as [-> | ->]; by rewrite <- ?app_assoc.
Qed.

End appendString_facts.

End string_facts.

(** The string [a], line feed, U+2028, [b], and the byte FF: the line feed
    is written in its short form, the separator as its escape, the byte FF
    as the escape of U+FFFD. *)
Lemma appendString_escapes_witness :
  let value := string_spec.text [97; 10; 226; 128; 168; 98; 255] in
  let body := flat_map string_spec.encodePiece
                       (string_spec.pieces (bytes value)) in
  bytes value = [97] ++ 10 :: [226; 128; 168; 98; 255]
  /\ 0 <= 10 < 0x20
  /\ string_spec.controlEscape 10 (string_spec.encodePiece (string_spec.Ascii 10))
  /\ bytes value = [97; 10] ++ [226; 128; 168] ++ [98; 255]
  /\ (168 = 168 \/ 168 = 169)
  /\ (exists before,
        flat_map string_spec.pieceBytes before = [97; 10]
        /\ body = flat_map string_spec.encodePiece before
                    ++ bytes "\u2028"
                    ++ flat_map string_spec.encodePiece
                                (string_spec.pieces [98; 255]))
  /\ json.appendString value json.newSerializer
     = Return (tt, json.withBuffer json.newSerializer
                     ([34] ++ bytes "a\n\u2028b\ufffd" ++ [34])).
Proof.
  intros value body.
  pose proof (appendString_escapes value json.newSerializer) as Hthm.
  assert (H1 : bytes value = [97] ++ 10 :: [226; 128; 168; 98; 255])
    by reflexivity.
  assert (H2 : 0 <= 10 < 0x20) by lia.
  assert (H3 : bytes value = [97; 10] ++ [226; 128; 168] ++ [98; 255])
    by reflexivity.
  assert (H4 : 168 = 168 \/ 168 = 169) by (left; reflexivity).
  split; [exact H1|]. split; [exact H2|]. split.
  { exact (proj1 (proj1 (proj2 (proj2 (proj2 Hthm))) _ _ _ H1 H2)). }
  split; [exact H3|]. split; [exact H4|]. split.
  { exact (proj2 (proj2 (proj2 (proj2 (proj2 (proj2 Hthm))))) _ _ _ H3 H4). }
  exact (proj1 Hthm).
Defined.

(** Scenario S5: the string [a], U+2028, [b] is written with the escape
    of the separator between the quotes. *)
Example appendString_S5 :
  json.appendString (string_spec.text [97; 226; 128; 168; 98]) json.newSerializer
  = Return (tt, json.withBuffer json.newSerializer
                  ([34] ++ bytes "a\u2028b" ++ [34])).
Proof. reflexivity. Qed.

(** * Further properties *)

(** ** Compact, NewChild and the hash of placeholders *)

Section Compact_facts.

Import sorting_spec.

Context {E : Type} `{!core.Property E} `{!prop.ElementFactory E}.

Abbreviation assigned := (fun e : E => negb (core.IsUnassigned e)).

Lemma compactAt_cut (i : nat) (els : list E) (e : E) :
  els !! i = Some e ->
  prop.compactAt i els
  = Return (if core.IsUnassigned e then take i els ++ drop (S i) els
            else els).
Proof.
  intros He. unfold prop.compactAt. rewrite He.
  destruct (core.IsUnassigned e); [|done].
  pose proof (lookup_lt_Some _ _ _ He) as Hlt.
  case_bool_decide as Hlast.
  - rewrite (drop_ge els (S i)) by lia. by rewrite app_nil_r.
  - case_bool_decide as Hfirst; [|by rewrite Nat.add_1_r].
    subst i. by rewrite take_0.
Qed.

Lemma compactFrom_filter (n : nat) (els : list E) :
  (n <= length els)%nat ->
  prop.compactFrom n els
  = Return (List.filter assigned (take n els) ++ drop n els).
Proof.
  revert els. induction n as [|i IH]; intros els Hn.
  - by rewrite take_0, drop_0.
  - destruct (lookup_lt_is_Some_2 els i) as [e He]; [lia|].
    cbn [prop.compactFrom]. rewrite (compactAt_cut _ _ _ He).
    rewrite (take_S_r _ _ _ He), List.filter_app. cbn [List.filter].
    destruct (core.IsUnassigned e) eqn:Hu; cbn [negb].
    + rewrite IH by (rewrite length_app, length_take, length_drop; lia).
      rewrite take_app_le by (rewrite length_take; lia).
      rewrite take_take, Nat.min_id.
      rewrite drop_app_ge by (rewrite length_take; lia).
      rewrite length_take, Nat.min_l by lia.
      by rewrite Nat.sub_diag, drop_0, app_nil_r.
    + rewrite IH by lia. rewrite <- app_assoc. cbn [app].
      by rewrite (drop_S _ _ _ He).
Qed.

(** [Compact] always returns: its index stays within the slice, and what
    is left are the assigned elements, in their order. *)
Lemma Compact_Return (p : prop.multiValuedProperty E) :
  prop.Compact p
  = Return (prop.setElements p (List.filter assigned (prop.elements p))).
Proof.
  unfold prop.Compact. case_bool_decide as Hlen.
  - destruct p as [a els t]. simpl in *.
    by destruct els.
  - rewrite compactFrom_filter by lia.
    by rewrite firstn_all, drop_all, app_nil_r.
Qed.

Lemma filter_assigned_nil (els : list E) :
  List.filter assigned els = [] <-> forallb core.IsUnassigned els = true.
Proof.
  induction els as [|e els IH]; [done|]. simpl.
  destruct (core.IsUnassigned e); simpl; [done|]. split; done.
Qed.

Lemma filter_assigned_idemp (els : list E) :
  List.filter assigned (List.filter assigned els) = List.filter assigned els.
Proof.
  induction els as [|e els IH]; [done|]. simpl.
  destruct (core.IsUnassigned e) eqn:Hu; simpl; [done|].
  by rewrite Hu, IH.
Qed.

Lemma gathered_filter (p : prop.multiValuedProperty E) :
  prop.gathered (prop.setElements p (List.filter assigned (prop.elements p)))
  = prop.gathered p.
Proof.
  rewrite !gathered_sort. unfold assignedHashes. simpl.
  by rewrite filter_assigned_idemp.
Qed.

Lemma Hash_unassigned_only (p : prop.multiValuedProperty E) :
  prop.elements p <> [] ->
  forallb core.IsUnassigned (prop.elements p) = true ->
  prop.Hash p = fnv.offset64.
Proof.
  intros Hne Hall. unfold prop.Hash.
  rewrite bool_decide_eq_false_2 by (by destruct (prop.elements p)).
  rewrite gathered_sort. unfold assignedHashes.
  apply filter_assigned_nil in Hall. by rewrite Hall.
Qed.

(** X1.  [Compact] never panics and removes exactly the unassigned
    elements: the assigned ones stay, in their order, the attribute and the
    touched flag stay, no unassigned element is left, and compacting again
    changes nothing. *)
Theorem Compact_removes_unassigned (p : prop.multiValuedProperty E) :
  exists p',
    prop.Compact p = Return p'
    /\ prop.elements p' = List.filter assigned (prop.elements p)
    /\ prop.attr p' = prop.attr p
    /\ prop.touched p' = prop.touched p
    /\ Forall (fun e => core.IsUnassigned e = false) (prop.elements p')
    /\ prop.Compact p' = Return p'.
Proof.
  eexists. split; [apply Compact_Return|]. repeat split.
  - simpl. apply Forall_forall. intros e Hin.
    apply list_elem_of_In, List.filter_In in Hin as [_ Hin].
    by apply negb_true_iff.
  - rewrite Compact_Return. simpl. by rewrite filter_assigned_idemp.
Qed.

Lemma Hash_same_gathered (p q : prop.multiValuedProperty E) :
  prop.gathered p = prop.gathered q ->
  (prop.elements p = [] <-> prop.elements q = []) ->
  prop.Hash p = prop.Hash q.
Proof.
  intros Hg Hnil. unfold prop.Hash. rewrite Hg.
  destruct (prop.elements p) as [|e els], (prop.elements q) as [|e' els'];
    try done.
  - by destruct (proj1 Hnil eq_refl).
  - by destruct (proj2 Hnil eq_refl).
Qed.

(** X2.  Compaction keeps the hash of a property that has an assigned
    element, and makes it 0 otherwise.  Before compaction a property that
    is not empty but holds unassigned elements only hashes to the FNV
    offset basis, not to the 0 of an empty property. *)
Theorem Compact_Hash (p : prop.multiValuedProperty E) :
  exists p',
    prop.Compact p = Return p'
    /\ prop.Hash p'
       = (if forallb core.IsUnassigned (prop.elements p) then 0
          else prop.Hash p)
    /\ (prop.elements p <> [] ->
        forallb core.IsUnassigned (prop.elements p) = true ->
        prop.Hash p = 14695981039346656037).
Proof.
  eexists. split; [apply Compact_Return|]. split.
  - destruct (forallb core.IsUnassigned (prop.elements p)) eqn:Hall.
    + apply filter_assigned_nil in Hall. unfold prop.Hash.
      cbn [prop.setElements prop.elements]. by rewrite Hall.
    + apply Hash_same_gathered; [apply gathered_filter|].
      cbn [prop.setElements prop.elements]. rewrite filter_assigned_nil.
      split; [congruence|]. intros Hnil. rewrite Hnil in Hall. done.
  - exact (Hash_unassigned_only p).
Qed.

(** X3.  A property that holds unassigned elements only and an empty
    property of the same attribute do not match each other, in either
    direction, although neither holds a value. *)
Theorem Matches_unassigned_placeholders
        (Equals : core.Attribute -> core.Attribute -> bool)
        (p q : prop.multiValuedProperty E) :
  prop.elements p <> [] ->
  forallb core.IsUnassigned (prop.elements p) = true ->
  prop.elements q = [] ->
  prop.Matches Equals p q = false /\ prop.Matches Equals q p = false.
Proof.
  intros Hne Hall Hq. unfold prop.Matches.
  split; destruct (negb (Equals _ _)); try done.
  - rewrite bool_decide_eq_false_2 by (by destruct (prop.elements p)).
    assert (Hz : prop.Hash q = 0) by (unfold prop.Hash; by rewrite Hq).
    rewrite (Hash_unassigned_only p Hne Hall), Hz. done.
  - rewrite Hq. simpl.
    apply bool_decide_eq_false_2. by destruct (prop.elements p).
Qed.

Lemma NewChild_Return (p : prop.multiValuedProperty E) :
  exists c,
    prop.newElementProperty p VNil = inl (c, None)
    /\ prop.NewChild p
       = (prop.mkMulti (prop.attr p) (prop.elements p ++ [c]) (prop.touched p),
          prop.CountChildren p).
Proof.
  unfold prop.NewChild, prop.newElementProperty, prop.CountChildren.
  eexists. split; [reflexivity|]. cbn [fst snd prop.elements].
  rewrite length_app. cbn [length]. do 2 f_equal. lia.
Qed.

(** X4.  [NewChild] always succeeds (it never returns -1): it appends a
    fresh element built from [nil], returns the former number of children
    as its index, leaves the touched flag alone, and [ChildAtIndex] at the
    returned index gives the new element while the earlier indices give
    what they gave before. *)
Theorem NewChild_appends (p : prop.multiValuedProperty E) :
  exists c,
    prop.newElementProperty p VNil = inl (c, None)
    /\ prop.NewChild p
       = (prop.mkMulti (prop.attr p) (prop.elements p ++ [c]) (prop.touched p),
          prop.CountChildren p)
    /\ prop.ChildAtIndex (fst (prop.NewChild p)) (VInt (snd (prop.NewChild p)))
       = Return (Some c)
    /\ (forall i, 0 <= i < prop.CountChildren p ->
          prop.ChildAtIndex (fst (prop.NewChild p)) (VInt i)
          = prop.ChildAtIndex p (VInt i)).
Proof.
  unfold prop.NewChild, prop.newElementProperty, prop.CountChildren.
  eexists. split; [reflexivity|]. cbn [fst snd prop.elements].
  rewrite length_app. cbn [length].
  replace (Z.of_nat (length (prop.elements p) + 1) - 1)
    with (Z.of_nat (length (prop.elements p))) by lia.
  split; [done|]. split.
  - unfold prop.ChildAtIndex. cbn [prop.elements].
    rewrite length_app. cbn [length].
    rewrite (proj2 (Z.leb_gt _ _)) by lia.
    rewrite (proj2 (Z.ltb_ge _ _)) by lia.
    rewrite Nat2Z.id. by rewrite list_lookup_middle.
  - intros i Hi. unfold prop.ChildAtIndex. cbn [prop.elements].
    rewrite length_app. cbn [length].
    rewrite !(proj2 (Z.leb_gt _ _)) by lia.
    rewrite (proj2 (Z.ltb_ge _ _)) by lia.
    by rewrite lookup_app_l by lia.
Qed.

(** X5.  When the constructors of the elements build unassigned
    properties, [Compact] undoes [NewChild]: compacting after [NewChild] is
    compacting the property as it was. *)
Theorem Compact_NewChild (p : prop.multiValuedProperty E) :
  (forall c, prop.newElementProperty p VNil = inl (c, None) ->
             core.IsUnassigned c = true) ->
  prop.Compact (fst (prop.NewChild p)) = prop.Compact p.
Proof.
  intros Hfresh. destruct (NewChild_Return p) as (c & Hc & ->).
  rewrite !Compact_Return. cbn [fst prop.elements].
  rewrite List.filter_app. cbn [List.filter]. rewrite (Hfresh c Hc).
  cbn [negb]. by rewrite app_nil_r.
Qed.

End Compact_facts.

(** ** Add, Replace, Matches and EqualsTo *)

Section Add_facts.
Import sorting_spec.


Import multi_spec.

Context {E : Type} `{!core.Property E} `{!prop.ElementFactory E}.

Lemma newElementProperty_attr (p q : prop.multiValuedProperty E) v :
  prop.attr p = prop.attr q ->
  prop.newElementProperty p v = prop.newElementProperty q v.
Proof.
  intros Ha. unfold prop.newElementProperty, prop.errIncompatibleValue,
    prop.Attribute. by rewrite Ha.
Qed.

Lemma candidates_attr (p q : prop.multiValuedProperty E) val acc :
  prop.attr p = prop.attr q ->
  prop.candidates p acc val = prop.candidates q acc val.
Proof.
  intros Ha. revert acc. induction val as [|v val IH]; intros acc; [done|].
  destruct (nonNil v) eqn:Hv.
  - rewrite !candidates_cons by done.
    rewrite (newElementProperty_attr p q v Ha).
    destruct (prop.newElementProperty q v) as [[p0 [err|]]|err]; try done.
  - destruct v; try done. simpl. apply IH.
Qed.

Lemma toAdd_attr (p q : prop.multiValuedProperty E) v :
  prop.attr p = prop.attr q -> prop.toAdd p v = prop.toAdd q v.
Proof.
  intros Ha. unfold prop.toAdd.
  destruct v; try (by rewrite (newElementProperty_attr p q _ Ha)).
  by apply candidates_attr.
Qed.

Lemma foldl_addUnlessMatched_fixed cs (q : prop.multiValuedProperty E) :
  (forall c, c ∈ cs ->
     existsb (fun e => core.Matches e c) (prop.elements q) = true) ->
  foldl prop.addUnlessMatched q cs = q.
Proof.
  induction cs as [|c cs IH]; intros Hall; [done|]. simpl.
  unfold prop.addUnlessMatched at 2.
  rewrite (Hall c) by apply list_elem_of_here.
  apply IH. intros c' Hin. apply Hall. by apply list_elem_of_further.
Qed.

Lemma Add_cases (p : prop.multiValuedProperty E) v :
  (prop.Add p v = (p, None) /\ (v = VNil \/ prop.toAdd p v = inl []))
  \/ (exists err, prop.toAdd p v = inr err /\ prop.Add p v = (p, Some err))
  \/ (exists cs, prop.toAdd p v = inl cs
                 /\ prop.Add p v = (foldl prop.addUnlessMatched p cs, None)).
Proof.
  destruct (nonNil v) eqn:Hv.
  - assert (HA : prop.Add p v
                 = match prop.toAdd p v with
                   | inr err => (p, Some err)
                   | inl [] => (p, None)
                   | inl toAdd => (foldl prop.addUnlessMatched p toAdd, None)
                   end) by (by destruct v).
    destruct (prop.toAdd p v) as [cs|err] eqn:Ht.
    + right. right. exists cs. split; [done|]. rewrite HA. by destruct cs.
    + right. left. exists err. by rewrite HA.
  - destruct v; try done. left. split; [done|by left].
Qed.

(** X6.  [Add] is idempotent when every element matches itself: adding
    the same value again to the result of a successful [Add] changes
    nothing and succeeds. *)
Theorem Add_idempotent (p : prop.multiValuedProperty E) (v : value) :
  (forall e : E, core.Matches e e = true) ->
  snd (prop.Add p v) = None ->
  prop.Add (fst (prop.Add p v)) v = (fst (prop.Add p v), None).
Proof.
  intros Hrefl Hok.
  destruct (Add_cases p v) as [[HA _]|[(err & _ & HA)|(cs & Ht & HA)]].
  - by rewrite !HA.
  - by rewrite HA in Hok.
  - rewrite HA. cbn [fst].
    destruct (foldl_addUnlessMatched cs p) as (added & Hel & Hat & _ & _ & Hall).
    set (p' := foldl prop.addUnlessMatched p cs) in *.
    assert (Ht' : prop.toAdd p' v = inl cs)
      by (by rewrite (toAdd_attr p' p v Hat)).
    destruct (Add_cases p' v) as [[HA' _]|[(err & Hte & _)|(cs' & Ht2 & HA')]];
      [done|congruence|].
    rewrite HA'. f_equal.
    assert (cs' = cs) as -> by congruence.
    apply foldl_addUnlessMatched_fixed. intros c Hin.
    destruct (Hall c Hin) as [Hadded|Hm]; [|done].
    apply existsb_exists. exists c. split; [|apply Hrefl].
    apply list_elem_of_In. rewrite Hel. apply elem_of_app. by right.
Qed.

Lemma unmatched_nil : unmatched (@nil E).
Proof. intros k c Hk. by rewrite lookup_nil in Hk. Qed.

Lemma foldl_addUnlessMatched_unmatched cs (p : prop.multiValuedProperty E) :
  unmatched (prop.elements p) ->
  unmatched (prop.elements (foldl prop.addUnlessMatched p cs)).
Proof.
  intros Hp.
  destruct (foldl_addUnlessMatched cs p) as (added & Hel & _ & _ & Hno & _).
  rewrite Hel. intros k c Hk.
  destruct (decide (k < length (prop.elements p))%nat) as [Hlt|Hge].
  - rewrite lookup_app_l in Hk by done.
    rewrite take_app_le by lia. by apply Hp.
  - rewrite lookup_app_r in Hk by lia.
    rewrite take_app_ge by lia. by apply Hno.
Qed.

(** X7.  [Add] keeps the elements free of duplicates: if no element is
    matched by an element before it, the same holds after [Add], whatever
    the value and whether or not [Add] fails. *)
Theorem Add_keeps_unmatched (p : prop.multiValuedProperty E) (v : value) :
  unmatched (prop.elements p) ->
  unmatched (prop.elements (fst (prop.Add p v))).
Proof.
  intros Hp.
  destruct (Add_cases p v) as [[HA _]|[(err & _ & HA)|(cs & Ht & HA)]];
    rewrite HA; cbn [fst]; try done.
  by apply foldl_addUnlessMatched_unmatched.
Qed.

Lemma foldl_addUnlessMatched_touched cs (p : prop.multiValuedProperty E) :
  prop.touched (foldl prop.addUnlessMatched p cs)
  = prop.touched p
    || bool_decide (length (prop.elements p)
                    < length (prop.elements (foldl prop.addUnlessMatched p cs)))%nat.
Proof.
  revert p. induction cs as [|c cs IH]; intros p.
  - simpl. rewrite bool_decide_eq_false_2 by lia. by rewrite orb_false_r.
  - simpl.
    destruct (existsb (fun e => core.Matches e c) (prop.elements p)) eqn:Hm.
    { assert (prop.addUnlessMatched p c = p) as ->
        by (unfold prop.addUnlessMatched; by rewrite Hm).
      apply IH. }
    assert (prop.addUnlessMatched p c
            = prop.mkMulti (prop.attr p) (prop.elements p ++ [c]) true) as ->
      by (unfold prop.addUnlessMatched; by rewrite Hm).
    rewrite IH. cbn [prop.touched prop.elements].
    destruct (foldl_addUnlessMatched cs
                (prop.mkMulti (prop.attr p) (prop.elements p ++ [c]) true))
      as (added & Hel & _).
    rewrite Hel. cbn [prop.elements].
    cbn [orb].
    rewrite (bool_decide_eq_true_2
               (length (prop.elements p)
                < length ((prop.elements p ++ [c]) ++ added))%nat)
      by (rewrite !length_app; simpl; lia).
    by rewrite orb_true_r.
Qed.

(** X8.  [Add] marks the property touched exactly when it appends an
    element: the flag after [Add] is the flag before, or true when the
    number of children grew. *)
Theorem Add_touched_when_appended (p : prop.multiValuedProperty E) (v : value) :
  prop.Touched (fst (prop.Add p v))
  = prop.Touched p
    || bool_decide (prop.CountChildren p
                    < prop.CountChildren (fst (prop.Add p v))).
Proof.
  unfold prop.Touched, prop.CountChildren.
  destruct (Add_cases p v) as [[HA _]|[(err & _ & HA)|(cs & Ht & HA)]];
    rewrite HA; cbn [fst].
  - rewrite bool_decide_eq_false_2 by lia. by rewrite orb_false_r.
  - rewrite bool_decide_eq_false_2 by lia. by rewrite orb_false_r.
  - rewrite foldl_addUnlessMatched_touched. f_equal.
    apply bool_decide_ext. lia.
Qed.

(** X9.  [Replace] discards the old elements before it looks at the
    value: whatever the value, the property is touched afterwards and keeps
    its attribute, no element is matched by one before it, and when
    [Replace] fails the property is left empty. *)
Theorem Replace_discards_first (p : prop.multiValuedProperty E) (v : value) :
  prop.attr (fst (prop.Replace p v)) = prop.attr p
  /\ prop.Touched (fst (prop.Replace p v)) = true
  /\ unmatched (prop.elements (fst (prop.Replace p v)))
  /\ (forall err, snd (prop.Replace p v) = Some err ->
                  prop.elements (fst (prop.Replace p v)) = []).
Proof.
  unfold prop.Replace, prop.Delete.
  set (p0 := prop.mkMulti (prop.attr p) [] true).
  split; [|split; [|split]].
  - destruct (Add_cases p0 v) as [[HA _]|[(err & _ & HA)|(cs & Ht & HA)]];
      rewrite HA; cbn [fst]; try done.
    by destruct (foldl_addUnlessMatched cs p0) as (added & _ & -> & _).
  - destruct (Add_cases p0 v) as [[HA _]|[(err & _ & HA)|(cs & Ht & HA)]];
      rewrite HA; cbn [fst]; try done.
    unfold prop.Touched. by rewrite foldl_addUnlessMatched_touched.
  - destruct (Add_cases p0 v) as [[HA _]|[(err & _ & HA)|(cs & Ht & HA)]];
      rewrite HA; cbn [fst]; try apply unmatched_nil.
    apply foldl_addUnlessMatched_unmatched, unmatched_nil.
  - intros err Herr.
    destruct (Add_cases p0 v) as [[HA _]|[(err' & _ & HA)|(cs & Ht & HA)]];
      rewrite HA in *; cbn [fst snd] in *; done.
Qed.

Lemma Hash_perm (p q : prop.multiValuedProperty E) :
  prop.elements p ≡ₚ prop.elements q -> prop.Hash p = prop.Hash q.
Proof.
  intros Hperm. unfold prop.Hash.
  rewrite (Permutation_length Hperm).
  assert (prop.gathered p = prop.gathered q) as ->; [|done].
  rewrite !gathered_sort.
  apply (Sorted_unique Z.le); try apply sort_sorted.
  rewrite !sort_perm. by apply assignedHashes_perm.
Qed.

(** X10.  [Matches] does not see the order of the elements: two
    properties of one attribute whose elements are permutations of each
    other match the same properties and are matched by the same ones, and
    they match each other when the attribute equals itself. *)
Theorem Matches_order_insensitive
        (Equals : core.Attribute -> core.Attribute -> bool)
        (p q : prop.multiValuedProperty E) :
  prop.attr p = prop.attr q ->
  prop.elements p ≡ₚ prop.elements q ->
  (forall r, prop.Matches Equals p r = prop.Matches Equals q r
             /\ prop.Matches Equals r p = prop.Matches Equals r q)
  /\ (Equals (prop.attr p) (prop.attr p) = true ->
      prop.Matches Equals p q = true).
Proof.
  intros Ha Hperm.
  pose proof (Hash_perm p q Hperm) as Hh.
  pose proof (Permutation_length Hperm) as Hl.
  split.
  - intros r. unfold prop.Matches, prop.Attribute.
    rewrite Ha, Hh, Hl. done.
  - intros Hrefl. unfold prop.Matches, prop.Attribute.
    rewrite <- Ha, Hrefl, <- Hh, <- Hl. cbn [negb].
    case_bool_decide; [done|]. by apply bool_decide_eq_true_2.
Qed.

Lemma ForEachChild_pairs (els : list E) (acc : list (nat * E)) (k : nat) :
  foldl (fun '(acc, i) elem => (acc ++ [(i, elem)], S i)) (acc, k) els
  = (acc ++ zip (seq k (length els)) els, (k + length els)%nat).
Proof.
  revert acc k. induction els as [|e els IH]; intros acc k.
  - simpl. by rewrite app_nil_r, Nat.add_0_r.
  - simpl. rewrite IH, <- app_assoc. simpl. f_equal. lia.
Qed.

(** X11.  [ForEachChild] hands its callback the children with their
    indices 0, 1, ... in order, and these are exactly the pairs of an index
    and the child [ChildAtIndex] returns there. *)
Theorem ForEachChild_ChildAtIndex (p : prop.multiValuedProperty E) :
  visited p = zip (seq 0 (length (prop.elements p))) (prop.elements p)
  /\ (forall i e,
        (i, e) ∈ visited p
        <-> prop.ChildAtIndex p (VInt (Z.of_nat i)) = Return (Some e)).
Proof.
  assert (Hv : visited p
               = zip (seq 0 (length (prop.elements p))) (prop.elements p)).
  { unfold visited, prop.ForEachChild. by rewrite ForEachChild_pairs. }
  split; [done|]. intros i e. rewrite Hv.
  unfold prop.ChildAtIndex.
  rewrite (proj2 (Z.ltb_ge _ _)) by lia. rewrite Nat2Z.id.
  destruct (Z.leb_spec (Z.of_nat (length (prop.elements p))) (Z.of_nat i))
    as [Hge|Hlt].
  - split; [|done]. intros (k & Hk)%list_elem_of_lookup_1.
    apply lookup_zip_with_Some in Hk as (x & y & [= <- <-] & Hx & Hy).
    apply lookup_seq in Hx as [-> Hlt]. simpl in Hge. lia.
  - split.
    + intros (k & Hk)%list_elem_of_lookup_1.
      apply lookup_zip_with_Some in Hk as (x & y & [= <- <-] & Hx & Hy).
      apply lookup_seq in Hx as [-> _]. simpl. by rewrite Hy.
    + intros [= He]. apply (list_elem_of_lookup_2 _ i).
      apply lookup_zip_with_Some. exists i, e. split; [done|].
      split; [|done]. apply lookup_seq. split; [done|lia].
Qed.

(** X12.  [NewMultiOf] panics exactly when the attribute is not
    multi-valued or the value cannot be turned into elements: with an
    attribute that is not multi-valued it panics with the message of
    [NewMulti]; with a multi-valued attribute and a value that is not [nil]
    whose conversion fails it panics with the error of the conversion,
    which is the error of [Add]; with [nil], or a value whose conversion
    succeeds, it returns what [Add] leaves of the empty property, without
    error.  The property returned has the attribute, is touched exactly
    when it has an element, and none of its elements is matched by one
    before it. *)
Theorem NewMultiOf_outcome (a : core.Attribute) (v : value) :
  let p0 := prop.mkMulti a [] false in
  match prop.NewMultiOf a v with
  | Return p =>
      core.MultiValued a = true
      /\ prop.Add p0 v = (p, None)
      /\ prop.attr p = a
      /\ prop.Touched p = prop.Present p
      /\ unmatched (prop.elements p)
  | Panic (PanicError err) =>
      core.MultiValued a = true
      /\ nonNil v = true
      /\ prop.toAdd p0 v = inr err
      /\ prop.Add p0 v = (p0, Some err)
  | Panic w =>
      core.MultiValued a = false
      /\ w = PanicString "invalid attribute for multiValued property"
  | OutOfFuel => False
  end
  /\ (core.MultiValued a = false ->
      prop.NewMultiOf a v
      = Panic (PanicString "invalid attribute for multiValued property"))
  /\ (forall err,
        core.MultiValued a = true ->
        nonNil v = true -> prop.toAdd p0 v = inr err ->
        prop.NewMultiOf a v = Panic (PanicError err))
  /\ (core.MultiValued a = true ->
      v = VNil \/ (exists cs, prop.toAdd p0 v = inl cs) ->
      prop.NewMultiOf a v = Return (fst (prop.Add p0 v))).
Proof.
  intros p0. unfold prop.NewMultiOf, prop.NewMulti. fold p0.
  destruct (core.MultiValued a) eqn:Hm; cbn [negb];
    [|by repeat split].
  destruct (Add_cases p0 v) as [[HA Hv]|[(err & Hte & HA)|(cs & Hc & HA)]];
    rewrite HA; cbn [fst].
  - split; [|split; [done|split; [|done]]].
    + repeat split; try done; apply unmatched_nil.
    + intros err _ Hnn Ht. destruct Hv as [->|Hv]; [done|congruence].
  - assert (Hnn : nonNil v = true).
    { by destruct v. }
    split; [|split; [done|split]].
    + by repeat split.
    + intros err' _ _ Ht. congruence.
    + intros _ [->|[cs Hc]]; [done|congruence].
  - destruct (foldl_addUnlessMatched cs p0) as (added & _ & Hat & _).
    split; [|split; [done|split; [|done]]].
    + repeat split; try done.
      * unfold prop.Touched, prop.Present.
        by rewrite foldl_addUnlessMatched_touched.
      * apply foldl_addUnlessMatched_unmatched, unmatched_nil.
    + intros err _ _ Ht. congruence.
Qed.

Lemma EqualsTo_anyEqualsTo `{!core.Evaluation E} (els : list E) (v : value) :
  snd (prop.anyEqualsTo els v) = None
  /\ (fst (prop.anyEqualsTo els v) = true
      <-> exists e, e ∈ els /\ core.EqualsTo e v = (true, None)).
Proof.
  induction els as [|e els [IH1 IH2]].
  - split; [done|]. split; [done|]. intros (e & Hin & _).
    by apply elem_of_nil in Hin.
  - cbn [prop.anyEqualsTo].
    destruct (core.EqualsTo e v) as [[|] [err|]] eqn:He;
      (split; [done|]); cbn [fst];
      try (rewrite IH2; split;
           [ intros (e' & Hin & He'); exists e';
             split; [by apply list_elem_of_further|done]
           | intros (e' & [->|Hin]%elem_of_cons & He');
             [congruence|by exists e'] ]).
    split; [|done]. intros _. exists e. split; [apply list_elem_of_here|done].
Qed.

(** X13.  [EqualsTo] on a multi-valued property is a containment test
    that never fails: it returns no error, and true exactly when some
    element reports equality with the value without an error; the errors
    of the elements are dropped. *)
Theorem EqualsTo_some_element `{!core.Evaluation E}
        (p : prop.multiValuedProperty E) (v : value) :
  snd (prop.EqualsTo p v) = None
  /\ (fst (prop.EqualsTo p v) = true
      <-> exists e, e ∈ prop.elements p /\ core.EqualsTo e v = (true, None)).
Proof. apply EqualsTo_anyEqualsTo. Qed.

Lemma candidates_rebuilt `{!core.Evaluation E}
      (q : prop.multiValuedProperty E) (els acc : list E) :
  Forall (fun e => nonNil (core.Raw e) = true
                   /\ prop.newElementProperty q (core.Raw e) = inl (e, None))
         els ->
  prop.candidates q acc (map core.Raw els) = inl (acc ++ els).
Proof.
  intros HF. revert acc.
  induction HF as [|e els [Hn He] _ IH]; intros acc.
  - simpl. by rewrite app_nil_r.
  - cbn [map]. rewrite candidates_cons by done. rewrite He, IH.
    by rewrite <- app_assoc.
Qed.

Lemma foldl_addUnlessMatched_all a (pre cs : list E) :
  unmatched (pre ++ cs) ->
  foldl prop.addUnlessMatched (prop.mkMulti a pre true) cs
  = prop.mkMulti a (pre ++ cs) true.
Proof.
  revert pre. induction cs as [|c cs IH]; intros pre Hu.
  - by rewrite app_nil_r.
  - cbn [foldl]. unfold prop.addUnlessMatched at 2. cbn [prop.elements].
    pose proof (Hu (length pre) c) as Hc.
    rewrite list_lookup_middle in Hc by done.
    rewrite take_app_length in Hc. rewrite (Hc eq_refl).
    cbn [prop.attr]. rewrite IH by (by rewrite <- app_assoc).
    by rewrite <- app_assoc.
Qed.

(** X14.  Replacing a property by its own raw value gives its elements
    back, and marks it touched: this holds when every element is assigned
    and is rebuilt from its raw value by [newElementProperty], and no
    element is matched by one before it. *)
Theorem Replace_Raw_round_trip `{!core.Evaluation E}
        (p : prop.multiValuedProperty E) :
  Forall (fun e => nonNil (core.Raw e) = true
                   /\ prop.newElementProperty p (core.Raw e) = inl (e, None))
         (prop.elements p) ->
  unmatched (prop.elements p) ->
  prop.Replace p (prop.Raw p)
  = (prop.mkMulti (prop.attr p) (prop.elements p) true, None).
Proof.
  intros HF Hu. unfold prop.Replace, prop.Delete, prop.Raw.
  set (p0 := prop.mkMulti (prop.attr p) [] true).
  destruct (prop.elements p) as [|e els] eqn:Hels; [done|].
  rewrite bool_decide_eq_false_2 by done.
  assert (Ht : prop.toAdd p0 (VSeq (map core.Raw (e :: els)))
               = inl (e :: els)).
  { unfold prop.toAdd.
    apply (candidates_rebuilt p0 (e :: els) []).
    eapply Forall_impl; [exact HF|]. intros x [Hn Hx]. split; [done|].
    by rewrite (newElementProperty_attr p0 p). }
  unfold prop.Add. rewrite Ht. subst p0.
  by rewrite (foldl_addUnlessMatched_all (prop.attr p) [] (e :: els) Hu).
Qed.

End Add_facts.

(** An integer leaf matches itself. *)
Lemma integerMatches_refl (e : leaves.integerProperty) :
  core.Matches e e = true.
Proof.
  simpl. unfold leaves.integerMatches, leaves.Equals.
  rewrite String.eqb_refl. cbn [negb].
  destruct (leaves.integerUnassigned e); [done|].
  cbn [negb andb]. by apply bool_decide_eq_true_2.
Qed.

(** A new child of the lucky numbers [3] is compacted away again. *)
Lemma Compact_NewChild_witness :
  let p := prop.mkMulti leaves.luckyNumbers [leaves.number 3] false in
  (forall c, prop.newElementProperty p VNil = inl (c, None) ->
             core.IsUnassigned c = true)
  /\ prop.Compact (fst (prop.NewChild p)) = Return p.
Proof.
  intros p.
  assert (Hfresh : forall c, prop.newElementProperty p VNil = inl (c, None) ->
                             core.IsUnassigned c = true)
    by (intros c [= <-]; reflexivity).
  split; [exact Hfresh|].
  rewrite (Compact_NewChild p Hfresh). reflexivity.
Defined.

(** The empty lucky numbers with a new child do not match the empty
    lucky numbers. *)
Lemma Matches_unassigned_placeholders_witness :
  let q := leaves.emptyNumbers in
  let p := fst (prop.NewChild q) in
  prop.elements p <> []
  /\ forallb core.IsUnassigned (prop.elements p) = true
  /\ prop.elements q = []
  /\ prop.Matches leaves.Equals p q = false
  /\ prop.Matches leaves.Equals q p = false.
Proof.
  intros q p.
  assert (Hne : prop.elements p <> []) by (vm_compute; discriminate).
  assert (Hall : forallb core.IsUnassigned (prop.elements p) = true)
    by reflexivity.
  assert (Hq : prop.elements q = []) by reflexivity.
  split; [exact Hne|]. split; [exact Hall|]. split; [exact Hq|].
  exact (Matches_unassigned_placeholders leaves.Equals p q Hne Hall Hq).
Defined.

(** Adding [5, 7, 5] twice leaves 5 and 7. *)
Lemma Add_idempotent_witness :
  let p := leaves.emptyNumbers in
  let v := VSeq [VInt64 5; VInt64 7; VInt64 5] in
  snd (prop.Add p v) = None
  /\ prop.Add (fst (prop.Add p v)) v
     = (prop.mkMulti leaves.luckyNumbers [leaves.number 5; leaves.number 7]
                     true, None).
Proof.
  intros p v.
  assert (Hok : snd (prop.Add p v) = None) by reflexivity.
  split; [exact Hok|].
  rewrite (Add_idempotent p v integerMatches_refl Hok). reflexivity.
Defined.

(** Adding [3, 4] to the lucky numbers [3]. *)
Lemma Add_keeps_unmatched_witness :
  let p := prop.mkMulti leaves.luckyNumbers [leaves.number 3] false in
  let v := VSeq [VInt64 3; VInt64 4] in
  multi_spec.unmatched (prop.elements p)
  /\ multi_spec.unmatched (prop.elements (fst (prop.Add p v))).
Proof.
  intros p v.
  assert (Hu : multi_spec.unmatched (prop.elements p)).
  { intros [|k] c Hk; [reflexivity|]. simpl in Hk. by destruct k. }
  split; [exact Hu|]. exact (Add_keeps_unmatched p v Hu).
Defined.

(** The lucky numbers [3, 1] match the lucky numbers [1, 3]. *)
Lemma Matches_order_insensitive_witness :
  let p := prop.mkMulti leaves.luckyNumbers
                        [leaves.number 3; leaves.number 1] true in
  let q := prop.mkMulti leaves.luckyNumbers
                        [leaves.number 1; leaves.number 3] false in
  prop.attr p = prop.attr q
  /\ prop.elements p ≡ₚ prop.elements q
  /\ prop.Matches leaves.Equals p q = true.
Proof.
  intros p q.
  assert (Ha : prop.attr p = prop.attr q) by reflexivity.
  assert (Hperm : prop.elements p ≡ₚ prop.elements q)
    by apply Permutation_swap.
  split; [exact Ha|]. split; [exact Hperm|].
  apply (proj2 (Matches_order_insensitive leaves.Equals p q Ha Hperm)).
  reflexivity.
Defined.

(** The lucky numbers [3, 1] replaced by their raw value. *)
Lemma Replace_Raw_round_trip_witness :
  let p := prop.mkMulti leaves.luckyNumbers
                        [leaves.number 3; leaves.number 1] false in
  Forall (fun e => nonNil (core.Raw e) = true
                   /\ prop.newElementProperty p (core.Raw e) = inl (e, None))
         (prop.elements p)
  /\ multi_spec.unmatched (prop.elements p)
  /\ prop.Replace p (prop.Raw p)
     = (prop.mkMulti leaves.luckyNumbers
                     [leaves.number 3; leaves.number 1] true, None).
Proof.
  intros p.
  assert (HF : Forall (fun e => nonNil (core.Raw e) = true
                   /\ prop.newElementProperty p (core.Raw e) = inl (e, None))
                      (prop.elements p))
    by (repeat constructor).
  assert (Hu : multi_spec.unmatched (prop.elements p)).
  { intros [|[|k]] c Hk; simpl in Hk; [reflexivity| |by destruct k].
    injection Hk as <-. vm_compute. reflexivity. }
  split; [exact HF|]. split; [exact Hu|].
  exact (Replace_Raw_round_trip p HF Hu).
Defined.

(** ** The traversal by the serializer *)

Section balance_facts.

Import core tree visit_spec stack_spec.
Local Open Scope go_scope.
Context `{!expr.Compiler} `{!strconv.Formatter}.

Lemma ok_bind {S A B : Type} (Q : A -> S -> Prop) (P : B -> S -> Prop)
      (m : M S A) (k : A -> M S B) (s : S) :
  ok Q (m s) -> (forall a s1, Q a s1 -> ok P (k a s1)) -> ok P (bind m k s).
Proof. unfold bind. destruct (m s) as [[a s1]| |]; try done. intros HQ Hk. by apply Hk. Qed.

Lemma returns_bind {S A B : Type} (Q : A -> S -> Prop) (P : B -> S -> Prop)
      (m : M S A) (k : A -> M S B) (s : S) :
  returns Q (m s) -> (forall a s1, Q a s1 -> returns P (k a s1)) ->
  returns P (bind m k s).
Proof. unfold bind. destruct (m s) as [[a s1]| |]; try done. intros HQ Hk. by apply Hk. Qed.

Lemma returns_ok {S A : Type} (P : A -> S -> Prop) (o : outcome (A * S)) :
  returns P o -> ok P o.
Proof. by destruct o as [[a s]| |]. Qed.

Lemma ok_impl {S A : Type} (P Q : A -> S -> Prop) (o : outcome (A * S)) :
  ok P o -> (forall a s, P a s -> Q a s) -> ok Q o.
Proof. destruct o as [[a s]| |]; try done. intros HP HPQ. by apply HPQ. Qed.

Lemma returns_impl {S A : Type} (P Q : A -> S -> Prop) (o : outcome (A * S)) :
  returns P o -> (forall a s, P a s -> Q a s) -> returns Q o.
Proof. destruct o as [[a s]| |]; try done. intros HP HPQ. by apply HPQ. Qed.

Lemma bump_snoc k below f :
  bump k (below ++ [f])
  = below ++ [json.mkFrame (json.frameContainer f) (json.index f + k)].
Proof. unfold bump. by rewrite last_snoc, removelast_last. Qed.

Lemma bump_0 st : bump 0 st = st.
Proof.
  destruct st as [|f st _] using rev_ind; [done|].
  rewrite bump_snoc, Z.add_0_r. by destruct f.
Qed.

Lemma bump_bump j k st : bump k (bump j st) = bump (j + k) st.
Proof.
  destruct st as [|f st _] using rev_ind; [done|].
  rewrite !bump_snoc. simpl. by rewrite Z.add_assoc.
Qed.

Lemma bump_nil_iff k st : bump k st = [] <-> st = [].
Proof.
  destruct st as [|f st _] using rev_ind; [done|].
  rewrite bump_snoc. split; intros Hx; by destruct st.
Qed.

Lemma advanced_refl s : advanced 0 s s.
Proof. exists []. rewrite app_nil_r, bump_0. by destruct s. Qed.

Lemma advanced_trans j k s1 s2 s3 :
  advanced j s1 s2 -> advanced k s2 s3 -> advanced (j + k) s1 s3.
Proof.
  intros [w1 ->] [w2 ->]. exists (w1 ++ w2). simpl.
  by rewrite bump_bump, app_assoc.
Qed.

Lemma advanced_write s w : advanced 0 s (json.withBuffer s (json.buffer s ++ w)).
Proof. exists w. by rewrite bump_0. Qed.

(** The literal of an assigned leaf only appends to the buffer. *)
Lemma ok_literal (a : core.Attribute) (raw : value) (s : json.serializer) :
  ok (fun _ s' => advanced 0 s s')
     (match Type_of a, raw with
      | (TypeString | TypeReference | TypeDateTime | TypeBinary), VString v =>
          json.appendString v
      | TypeInteger, VInt64 v => json.appendInteger v
      | TypeDecimal, VFloat64 v => json.appendFloat v
      | TypeBoolean, VBool v => json.appendBoolean v
      | TypeComplex, _ => panic (PanicString "invalid type")
      | _, _ => panic (PanicRuntime "interface conversion")
      end s).
Proof.
  assert (HS : forall v, ok (fun _ s' => advanced 0 s s') (json.appendString v s)).
  { intros v. unfold json.appendString. rewrite appendStringTo_pieces.
    simpl. apply advanced_write. }
  destruct (Type_of a), raw; try done; try apply HS.
  - apply advanced_write.
  - unfold json.appendFloat. destruct (_ || _); [done|]. apply advanced_write.
  - unfold json.appendBoolean. destruct b; apply advanced_write.
Qed.

Lemma returns_literal (a : core.Attribute) (raw : value) (s : json.serializer) :
  wellTyped (Simple a raw) = true -> nonNil raw = true ->
  returns (fun _ s' => advanced 0 s s')
     (match Type_of a, raw with
      | (TypeString | TypeReference | TypeDateTime | TypeBinary), VString v =>
          json.appendString v
      | TypeInteger, VInt64 v => json.appendInteger v
      | TypeDecimal, VFloat64 v => json.appendFloat v
      | TypeBoolean, VBool v => json.appendBoolean v
      | TypeComplex, _ => panic (PanicString "invalid type")
      | _, _ => panic (PanicRuntime "interface conversion")
      end s).
Proof.
  assert (HS : forall v,
             returns (fun _ s' => advanced 0 s s') (json.appendString v s)).
  { intros v. unfold json.appendString. rewrite appendStringTo_pieces.
    simpl. apply advanced_write. }
  simpl. destruct (Type_of a), raw; try done; intros Hw _; try apply HS.
  - apply advanced_write.
  - unfold json.appendFloat. apply negb_true_iff in Hw. rewrite Hw.
    apply advanced_write.
  - unfold json.appendBoolean. destruct b; apply advanced_write.
Qed.


Lemma Visit_prefix (p : property) (s : json.serializer) (f : json.frame)
      (k : json.M (option errors.error)) :
  last (json.stack s) = Some f ->
  exists w,
    (do f <- json.current ;;
     run (if 0 <? json.index f then json.WriteByte 44 else ret tt) ;;
     do f <- json.current ;;
     run (if negb (json.container_eqb (json.frameContainer f)
                                      json.containerArray)
          then json.appendPropertyName (Attribute p) else ret tt) ;;
     k) s
    = k (json.withBuffer s (json.buffer s ++ w)).
Proof.
  intros Hf. unfold bind, json.current. rewrite Hf.
  destruct (0 <? json.index f); cbn [json.WriteByte ret json.withBuffer json.stack];
    rewrite Hf; destruct (negb _);
    cbn [json.appendPropertyName json.WriteByte json.WriteString bind ret
         json.withBuffer json.buffer json.includeFamily json.excludeFamily
         json.stack].
  - eexists. rewrite <- !app_assoc. reflexivity.
  - eexists. reflexivity.
  - eexists. rewrite <- !app_assoc. reflexivity.
  - exists []. rewrite app_nil_r. by destruct s.
Qed.

Lemma Visit_tail_eq (p : property) :
  json.Visit p
  = (do f <- json.current ;;
     run (if 0 <? json.index f then json.WriteByte 44 else ret tt) ;;
     do f <- json.current ;;
     run (if negb (json.container_eqb (json.frameContainer f)
                                      json.containerArray)
          then json.appendPropertyName (Attribute p) else ret tt) ;;
     match p with
     | Container _ _ => ret None
     | Simple attr raw =>
         if IsUnassigned p then run json.appendNull ;; ret None
         else
           run match Type_of attr, raw with
               | (TypeString | TypeReference | TypeDateTime | TypeBinary),
                 VString v => json.appendString v
               | TypeInteger, VInt64 v => json.appendInteger v
               | TypeDecimal, VFloat64 v => json.appendFloat v
               | TypeBoolean, VBool v => json.appendBoolean v
               | TypeComplex, _ => panic (PanicString "invalid type")
               | _, _ => panic (PanicRuntime "interface conversion")
               end ;;
           run json.incrementIndex ;;
           ret None
     end).
Proof. reflexivity. Qed.

Lemma ok_incrementIndex (s : json.serializer) :
  ok (fun _ s' => s' = json.withStack s (bump 1 (json.stack s)))
     (json.incrementIndex s).
Proof.
  unfold json.incrementIndex, bump. by destruct (last (json.stack s)).
Qed.

Lemma ok_Visit (p : property) (s : json.serializer) :
  ok (fun e s' => e = None /\ json.stack s <> []
                  /\ advanced (visitBump p) s s')
     (json.Visit p s).
Proof.
  destruct (last (json.stack s)) as [f|] eqn:Hf;
    [|by unfold json.Visit, bind, json.current; rewrite Hf].
  assert (Hne : json.stack s <> []) by (intros Hnil; by rewrite Hnil in Hf).
  rewrite Visit_tail_eq.
  destruct (Visit_prefix p s f
    match p with
     | Container _ _ => ret None
     | Simple attr raw =>
         if IsUnassigned p then run json.appendNull ;; ret None
         else
           run match Type_of attr, raw with
               | (TypeString | TypeReference | TypeDateTime | TypeBinary),
                 VString v => json.appendString v
               | TypeInteger, VInt64 v => json.appendInteger v
               | TypeDecimal, VFloat64 v => json.appendFloat v
               | TypeBoolean, VBool v => json.appendBoolean v
               | TypeComplex, _ => panic (PanicString "invalid type")
               | _, _ => panic (PanicRuntime "interface conversion")
               end ;;
           run json.incrementIndex ;;
           ret None
     end Hf) as [w ->].
  set (s1 := json.withBuffer s (json.buffer s ++ w)).
  assert (H1 : advanced 0 s s1) by apply advanced_write.
  destruct p as [a raw|a children]; [|by repeat split].
  change (IsUnassigned (Simple a raw)) with (negb (nonNil raw)).
  cbn [visitBump].
  destruct (nonNil raw) eqn:Hraw; cbn [negb].
  - eapply ok_bind; [apply ok_literal|]. intros [] s2 H2.
    eapply ok_bind; [apply ok_incrementIndex|]. intros [] s3 ->.
    repeat split; try done.
    apply (advanced_trans 0 1 s s2); [|exists []; rewrite app_nil_r; by destruct s2].
    by apply (advanced_trans 0 0 s s1).
  - repeat split; try done.
    apply (advanced_trans 0 0 s s1); [done|apply advanced_write].
Qed.

Lemma returns_Visit (p : property) (s : json.serializer) :
  json.stack s <> [] ->
  match p with Simple _ _ => wellTyped p = true | Container _ _ => True end ->
  returns (fun e s' => e = None /\ advanced (visitBump p) s s')
          (json.Visit p s).
Proof.
  intros Hne Hw.
  destruct (last (json.stack s)) as [f|] eqn:Hf;
    [|apply last_None in Hf; done].
  rewrite Visit_tail_eq.
  destruct (Visit_prefix p s f
    match p with
     | Container _ _ => ret None
     | Simple attr raw =>
         if IsUnassigned p then run json.appendNull ;; ret None
         else
           run match Type_of attr, raw with
               | (TypeString | TypeReference | TypeDateTime | TypeBinary),
                 VString v => json.appendString v
               | TypeInteger, VInt64 v => json.appendInteger v
               | TypeDecimal, VFloat64 v => json.appendFloat v
               | TypeBoolean, VBool v => json.appendBoolean v
               | TypeComplex, _ => panic (PanicString "invalid type")
               | _, _ => panic (PanicRuntime "interface conversion")
               end ;;
           run json.incrementIndex ;;
           ret None
     end Hf) as [w ->].
  set (s1 := json.withBuffer s (json.buffer s ++ w)).
  assert (H1 : advanced 0 s s1) by apply advanced_write.
  destruct p as [a raw|a children]; [|by split].
  change (IsUnassigned (Simple a raw)) with (negb (nonNil raw)).
  cbn [visitBump].
  destruct (nonNil raw) eqn:Hraw; cbn [negb].
  - eapply returns_bind; [by apply returns_literal|]. intros [] s2 H2.
    pose proof (advanced_trans 0 0 s s1 s2 H1 H2) as H02.
    destruct H02 as [w2 ->].
    unfold bind, json.incrementIndex, ret. cbn [json.stack].
    rewrite bump_0, Hf. cbn [returns]. split; [done|].
    exists w2. unfold json.withStack, bump. cbn. by rewrite Hf.
  - split; [done|].
    apply (advanced_trans 0 0 s s1); [done|apply advanced_write].
Qed.



Lemma ok_BeginChildren (p : property) (s : json.serializer) :
  ok (fun _ s' =>
        s' = json.mkSerializer (json.buffer s ++ [opening (Attribute p)])
               (json.includeFamily s) (json.excludeFamily s)
               (json.stack s ++ [opened (Attribute p)]))
     (json.BeginChildren p s).
Proof.
  unfold json.BeginChildren, opening, opened.
  destruct (MultiValued (Attribute p)); [done|].
  by destruct (Type_of (Attribute p)).
Qed.

Lemma returns_BeginChildren (p : property) (s : json.serializer) :
  bracketed p ->
  returns (fun _ s' =>
        s' = json.mkSerializer (json.buffer s ++ [opening (Attribute p)])
               (json.includeFamily s) (json.excludeFamily s)
               (json.stack s ++ [opened (Attribute p)]))
     (json.BeginChildren p s).
Proof.
  unfold bracketed, json.BeginChildren, opening, opened.
  destruct (MultiValued (Attribute p)); [done|].
  intros [?| ->]; done.
Qed.

Lemma EndChildren_eq (p : property) (s : json.serializer) below top :
  bracketed p ->
  json.stack s = below ++ [top] ->
  json.EndChildren p s
  = Return (tt, json.mkSerializer (json.buffer s ++ [closing (Attribute p)])
                  (json.includeFamily s) (json.excludeFamily s)
                  (bump 1 below)).
Proof.
  intros Hb Hst. unfold json.EndChildren, bind, closing.
  assert (Hw :
    (if MultiValued (Attribute p) then json.WriteByte 93
     else match Type_of (Attribute p) with
          | TypeComplex => json.WriteByte 125
          | _ => panic (PanicString "unknown container")
          end) s
    = Return (tt, json.withBuffer s
                    (json.buffer s
                     ++ [if MultiValued (Attribute p) then 93 else 125]))).
  { destruct Hb as [->| ->]; [done|]. by destruct (MultiValued _). }
  rewrite Hw.
  rewrite pop_nonempty by (simpl; rewrite Hst; by destruct below).
  cbn [json.withBuffer json.withStack json.stack json.buffer
       json.includeFamily json.excludeFamily].
  rewrite Hst, removelast_last.
  case_bool_decide as Hlen.
  - destruct below as [|f below _] using rev_ind; [simpl in Hlen; lia|].
    rewrite (incrementIndex_top _ below f) by reflexivity.
    rewrite bump_snoc. reflexivity.
  - destruct below; [reflexivity|simpl in Hlen; lia].
Qed.

Lemma ok_EndChildren (p : property) (s : json.serializer) below top :
  json.stack s = below ++ [top] ->
  ok (fun _ s' =>
        s' = json.mkSerializer (json.buffer s ++ [closing (Attribute p)])
               (json.includeFamily s) (json.excludeFamily s) (bump 1 below))
     (json.EndChildren p s).
Proof.
  intros Hst.
  destruct (MultiValued (Attribute p)) eqn:Hm.
  { rewrite (EndChildren_eq p s below top); [done|by left|done]. }
  destruct (Type_of (Attribute p)) eqn:Ht;
    try (by unfold json.EndChildren, bind; rewrite Hm, Ht).
  rewrite (EndChildren_eq p s below top); [done|by right|done].
Qed.


Lemma steps_children (l : list property) :
  Forall (fun p => forall s, ok (steps 1 s) (visitProperty p s)) l ->
  forall s, ok (steps (Z.of_nat (length l)) s) (visitChildren l s).
Proof.
  induction 1 as [|p l Hp _ IH]; intros s.
  - split; [done|]. exists 0. split; [done|apply advanced_refl].
  - cbn [visitChildren]. eapply ok_bind; [apply Hp|].
    intros e s1 [-> (k1 & Hk1 & H1)].
    eapply ok_impl; [apply IH|]. intros e s2 [-> (k2 & Hk2 & H2)].
    split; [done|]. exists (k1 + k2). split; [simpl length; lia|].
    by apply (advanced_trans k1 k2 s s1).
Qed.

(** A container between its brackets. *)
Lemma ok_bracket (p : property) (l : list property) (s : json.serializer) :
  (forall s, ok (steps (Z.of_nat (length l)) s) (visitChildren l s)) ->
  ok (fun e s' =>
        e = None
        /\ exists mid,
             s' = json.mkSerializer
                    (json.buffer s ++ [opening (Attribute p)] ++ mid
                     ++ [closing (Attribute p)])
                    (json.includeFamily s) (json.excludeFamily s)
                    (bump 1 (json.stack s)))
     ((run BeginChildren p ;;
       do err <- visitChildren l ;;
       match err with
       | Some e => ret (Some e)
       | None => run EndChildren p ;; ret None
       end) s).
Proof.
  intros Hl. eapply ok_bind; [apply ok_BeginChildren|]. intros [] s1 ->.
  eapply ok_bind; [apply Hl|]. intros e s2 [-> (k & Hk & [w ->])].
  cbn [json.buffer json.includeFamily json.excludeFamily json.stack].
  rewrite bump_snoc.
  eapply ok_bind; [by eapply ok_EndChildren|]. intros [] s3 ->.
  split; [done|]. exists w. cbn. by rewrite <- !app_assoc.
Qed.

Lemma ShouldVisit_fuel (s : json.serializer) (p : property) :
  json.ShouldVisit s p <> OutOfFuel.
Proof.
  unfold json.ShouldVisit, expr.MustPath.
  destruct (Mutability (Attribute p)), (Returned (Attribute p)),
    (json.includeFamily s), (json.excludeFamily s),
    (expr.CompilePath (ID (Attribute p))) as [? [?|]]; done.
Qed.

Lemma steps_visitProperty (p : property) :
  forall s, ok (steps 1 s) (visitProperty p s).
Proof.
  induction p as [a raw|a children IH] using property_nested_ind; intros s;
    rewrite visitProperty_unfold;
    (destruct (ShouldVisit s _) as [[|]| |] eqn:Hgate;
     [ | split; [done|]; exists 0; split; [lia|apply advanced_refl]
       | done
       | by apply ShouldVisit_fuel in Hgate ]).
  - eapply ok_bind; [apply ok_Visit|].
    intros e s1 (-> & _ & H1). split; [done|].
    exists (visitBump (Simple a raw)). split; [|done].
    simpl. destruct (nonNil raw); lia.
  - eapply ok_bind; [apply ok_Visit|].
    intros e s1 (-> & Hne & H1).
    eapply ok_impl; [apply ok_bracket, steps_children, IH|].
    intros e s2 (-> & mid & ->). split; [done|]. exists 1. split; [lia|].
    apply (advanced_trans 0 1 s s1 _ H1). eexists. reflexivity.
Qed.

Lemma advanced_unprojected k s s' :
  advanced k s s' -> unprojected s -> unprojected s'.
Proof. by intros [w ->] [? ?]. Qed.

Lemma advanced_nonempty k s s' :
  advanced k s s' -> json.stack s <> [] -> json.stack s' <> [].
Proof. intros [w ->] Hne. simpl. by rewrite bump_nil_iff. Qed.


Lemma runs_children (l : list property) :
  Forall (fun p => runs 1 (visitProperty p)) l ->
  runs (Z.of_nat (length l)) (visitChildren l).
Proof.
  induction 1 as [|p l Hp _ IH]; intros s Hu Hne.
  - split; [done|]. exists 0. split; [done|apply advanced_refl].
  - cbn [visitChildren]. eapply returns_bind; [by apply Hp|].
    intros e s1 [-> (k1 & Hk1 & H1)].
    eapply returns_impl;
      [apply IH; [by eapply advanced_unprojected|by eapply advanced_nonempty]|].
    intros e s2 [-> (k2 & Hk2 & H2)].
    split; [done|]. exists (k1 + k2). split; [simpl length; lia|].
    by apply (advanced_trans k1 k2 s s1).
Qed.

Lemma returns_bracket (p : property) (l : list property) (s : json.serializer) :
  bracketed p -> unprojected s ->
  runs (Z.of_nat (length l)) (visitChildren l) ->
  returns (fun e s' =>
        e = None
        /\ exists mid,
             s' = json.mkSerializer
                    (json.buffer s ++ [opening (Attribute p)] ++ mid
                     ++ [closing (Attribute p)])
                    (json.includeFamily s) (json.excludeFamily s)
                    (bump 1 (json.stack s)))
     ((run BeginChildren p ;;
       do err <- visitChildren l ;;
       match err with
       | Some e => ret (Some e)
       | None => run EndChildren p ;; ret None
       end) s).
Proof.
  intros Hb Hu Hl.
  eapply returns_bind; [by apply returns_BeginChildren|]. intros [] s1 ->.
  eapply returns_bind; [apply Hl; [done|by destruct (json.stack s)]|].
  intros e s2 [-> (k & Hk & [w ->])].
  cbn [json.buffer json.includeFamily json.excludeFamily json.stack].
  rewrite bump_snoc. unfold bind.
  simpl EndChildren.
  erewrite EndChildren_eq; [|done|reflexivity].
  split; [done|]. exists w. cbn. by rewrite <- !app_assoc.
Qed.

Lemma wellTyped_Container a children :
  wellTyped (Container a children) = true ->
  bracketed (Container a children)
  /\ Forall (fun p => wellTyped p = true) children.
Proof.
  cbn [wellTyped]. intros [Hb Hc]%andb_true_iff. split.
  - unfold bracketed. simpl. destruct (MultiValued a); [by left|right].
    by destruct (Type_of a).
  - apply Forall_forall. intros c Hin.
    rewrite forallb_forall in Hc. by apply Hc, list_elem_of_In.
Qed.

Lemma runs_visitProperty (p : property) :
  wellTyped p = true -> runs 1 (visitProperty p).
Proof.
  induction p as [a raw|a children IH] using property_nested_ind;
    intros Hw s Hu Hne; rewrite visitProperty_unfold;
    simpl ShouldVisit;
    rewrite (ShouldVisit_default s _ (proj1 Hu) (proj2 Hu));
    (destruct (defaultReturned _);
     [|split; [done|]; exists 0; split; [lia|apply advanced_refl]]).
  - eapply returns_bind; [by apply returns_Visit|].
    intros e s1 (-> & H1). split; [done|].
    exists (visitBump (Simple a raw)). split; [|done].
    simpl. destruct (nonNil raw); lia.
  - apply wellTyped_Container in Hw as [Hb Hc].
    eapply returns_bind; [by apply returns_Visit|].
    intros e s1 (-> & H1).
    eapply returns_impl.
    + apply returns_bracket; [done|by eapply advanced_unprojected|].
      apply runs_children.
      apply Forall_forall. intros c Hin.
      rewrite Forall_forall in IH. apply IH; [done|].
      rewrite Forall_forall in Hc. by apply Hc.
    + intros e s2 (-> & mid & ->). split; [done|]. exists 1. split; [lia|].
      apply (advanced_trans 0 1 s s1 _ H1). eexists. reflexivity.
Qed.

Lemma addPaths_error (family : expr.PathAncestry) (paths : list string) err :
  json.addPaths family paths = inr err ->
  exists path, path ∈ paths /\ snd (expr.CompilePath path) = Some err.
Proof.
  revert family. induction paths as [|path paths IH]; intros family; [done|].
  simpl. destruct (expr.CompilePath path) as [q [e|]] eqn:Hc.
  - intros [= ->]. exists path. split; [apply list_elem_of_here|by rewrite Hc].
  - intros (path' & Hin & Hp)%IH. exists path'.
    split; [by apply list_elem_of_further|done].
Qed.

Lemma ok_ResourceVisit (r : Resource) (s : json.serializer) :
  ok (fun e s' =>
        e = None
        /\ exists mid,
             s' = json.mkSerializer
                    (json.buffer s ++ [opening (Attribute (root r))] ++ mid
                     ++ [closing (Attribute (root r))])
                    (json.includeFamily s) (json.excludeFamily s)
                    (bump 1 (json.stack s)))
     (ResourceVisit r s).
Proof.
  apply ok_bracket, steps_children, Forall_forall.
  intros p _. apply steps_visitProperty.
Qed.

(** X15.  The traversal of a property by the serializer never returns
    an error and never runs out of iterations: it returns or panics.  When
    it returns it has only appended to the buffer, has kept the families,
    and has left the stack as it found it but for the index of the open
    frame, which it has raised by one or left alone. *)
Theorem visitProperty_balanced (p : property) (s : json.serializer) :
  match visitProperty p s with
  | Return (e, s') =>
      e = None
      /\ exists w k,
           (k = 0 \/ k = 1)
           /\ s' = json.mkSerializer (json.buffer s ++ w)
                     (json.includeFamily s) (json.excludeFamily s)
                     (bump k (json.stack s))
  | Panic _ => True
  | OutOfFuel => False
  end.
Proof.
  pose proof (steps_visitProperty p s) as Hs.
  destruct (visitProperty p s) as [[e s']| |]; try done.
  destruct Hs as (-> & k & Hk & w & ->). split; [done|].
  exists w, k. split; [lia|done].
Qed.

(** X16.  What [Serialize] returns.  With bytes there is no error, and
    the bytes start with the opening bracket of the root and end with its
    closing bracket.  An error comes without bytes, and is either the
    refusal of both options together or the error of [CompilePath] on one
    of the paths given; the traversal itself adds no error of its own.
    [Serialize] never runs out of iterations. *)
Theorem Serialize_outcome (r : Resource) (o : option json.options) :
  let opts := match o with None => json.Options | Some o => o end in
  match json.Serialize r o with
  | Return (Some b, None) =>
      exists mid,
        b = [opening (Attribute (root r))] ++ mid
            ++ [closing (Attribute (root r))]
  | Return (None, Some err) =>
      (json.included opts <> [] /\ json.excluded opts <> []
       /\ err = errors.InvalidRequest
                  "only one of 'attributes' and 'excludedAttributes' may be used"
                  [])
      \/ (exists path,
            path ∈ json.included opts ++ json.excluded opts
            /\ snd (expr.CompilePath path) = Some err)
  | Return _ => False
  | Panic _ => True
  | OutOfFuel => False
  end.
Proof.
  intros opts. unfold json.Serialize. fold opts.
  destruct (json.included opts) as [|i ins] eqn:Hi;
    destruct (json.excluded opts) as [|x xs] eqn:Hx; cbn [length];
    rewrite ?(bool_decide_eq_false_2 (0 < 0)%nat) by lia;
    rewrite ?(bool_decide_eq_true_2 (0 < S _)%nat) by lia; cbn [andb].
  - pose proof (ok_ResourceVisit r json.newSerializer) as Hr.
    destruct (ResourceVisit r json.newSerializer) as [[e s']| |]; try done.
    destruct Hr as (-> & mid & ->). by exists mid.
  - destruct (json.addPaths _ (x :: xs)) as [family|err] eqn:Ha.
    + match goal with
      | |- context [ResourceVisit r ?s0] =>
          pose proof (ok_ResourceVisit r s0) as Hr;
          destruct (ResourceVisit r s0) as [[e s']| |]; try done
      end.
      destruct Hr as (-> & mid & ->). by exists mid.
    + right. apply addPaths_error in Ha as (path & Hin & Hp).
      exists path. by split.
  - destruct (json.addPaths _ (i :: ins)) as [family|err] eqn:Ha.
    + match goal with
      | |- context [ResourceVisit r ?s0] =>
          pose proof (ok_ResourceVisit r s0) as Hr;
          destruct (ResourceVisit r s0) as [[e s']| |]; try done
      end.
      destruct Hr as (-> & mid & ->). by exists mid.
    + right. apply addPaths_error in Ha as (path & Hin & Hp).
      exists path. split; [|done]. by rewrite app_nil_r.
  - left. by repeat split.
Qed.

(** X17.  With default options [Serialize] returns bytes, without
    panic or error, for every resource whose root is complex or
    multi-valued and whose properties are well typed: every leaf is
    unassigned or holds a value of the dynamic type of its attribute, a
    decimal being finite, and every container is complex or
    multi-valued. *)
Theorem Serialize_default_returns (r : Resource) :
  bracketed (root r) ->
  forallb wellTyped (children_of (root r)) = true ->
  exists mid,
    json.Serialize r None
    = Return (Some ([opening (Attribute (root r))] ++ mid
                    ++ [closing (Attribute (root r))]), None).
Proof.
  intros Hb Hc. unfold json.Serialize. simpl.
  assert (Hr : returns (fun e s' =>
        e = None
        /\ exists mid,
             s' = json.mkSerializer
                    ([] ++ [opening (Attribute (root r))] ++ mid
                     ++ [closing (Attribute (root r))])
                    None None (bump 1 []))
     (ResourceVisit r json.newSerializer)).
  { apply (returns_bracket (root r) _ json.newSerializer); [done|done|].
    apply runs_children, Forall_forall. intros p Hin.
    apply runs_visitProperty.
    rewrite forallb_forall in Hc. by apply Hc, list_elem_of_In. }
  destruct (ResourceVisit r json.newSerializer) as [[e s']| |]; try done.
  destruct Hr as (-> & mid & ->). by exists mid.
Qed.

End balance_facts.

(** The user of scenario S1 is well typed. *)
Lemma Serialize_default_returns_witness :
  stack_spec.bracketed (tree.root demo.bob)
  /\ forallb stack_spec.wellTyped (tree.children_of (tree.root demo.bob))
     = true
  /\ exists mid,
       json.Serialize demo.bob None
       = Return (Some ([123] ++ mid ++ [125]), None).
Proof.
  assert (Hb : stack_spec.bracketed (tree.root demo.bob))
    by (right; reflexivity).
  assert (Hc : forallb stack_spec.wellTyped
                       (tree.children_of (tree.root demo.bob)) = true)
    by reflexivity.
  split; [exact Hb|]. split; [exact Hc|].
  exact (Serialize_default_returns demo.bob Hb Hc).
Defined.

(** ** Plain strings and the length of the output *)

Section plain_facts.

Import string_spec.

Lemma cut_plain (fuel : nat) :
  forall value,
    (length value <= fuel)%nat ->
    Forall (fun b => b < utf8.RuneSelf /\ json.htmlSafeSet b = true) value ->
    flat_map encodePiece (cut fuel value) = value.
Proof.
  induction fuel as [|fuel IH]; intros [|b rest] Hlen HF; simpl in Hlen;
    try lia; try (by rewrite cut_nil).
  inversion HF as [|? ? [Hb Hsafe] HF']; subst.
  rewrite cut_cons. rewrite (proj2 (Z.ltb_lt _ _) Hb).
  cbn [flat_map encodePiece]. rewrite Hsafe. simpl. f_equal.
  apply IH; [lia|done].
Qed.

(** X18.  A string of ASCII bytes that are all in [htmlSafeSet] is
    written as it is, between two quotes. *)
Theorem appendString_plain (value : string) (s : json.serializer) :
  Forall (fun b => b < utf8.RuneSelf /\ json.htmlSafeSet b = true)
         (bytes value) ->
  json.appendString value s
  = Return (tt, json.withBuffer s
                  (json.buffer s ++ [34] ++ bytes value ++ [34])).
Proof.
  intros HF. unfold json.appendString. rewrite appendStringTo_pieces.
  unfold pieces. by rewrite cut_plain.
Qed.

Lemma escapeByte_length (b : Z) :
  (1 <= length (json.escapeByte b) <= 5)%nat.
Proof.
  unfold json.escapeByte.
  destruct (_ || _); [simpl; lia|].
  repeat (destruct (_ =? _); [simpl; lia|]). simpl. lia.
Qed.

Lemma cut_sizes (fuel : nat) :
  forall value,
    Forall (fun u => (1 <= length (pieceBytes u) <= 4)%nat) (cut fuel value).
Proof.
  induction fuel as [|fuel IH]; intros [|b rest]; try by constructor.
  destruct (cut_cons_cases fuel b rest)
    as [[? ->]|[(? & _ & ->)|(c & size & ? & _ & Hsize & Hle & Hcont & ->)]];
    constructor; try apply IH; cbn [pieceBytes]; try (simpl; lia).
  rewrite length_take. lia.
Qed.

Lemma encodePiece_length (u : piece) :
  (1 <= length (pieceBytes u) <= 4)%nat ->
  (length (pieceBytes u) <= length (encodePiece u)
   <= 6 * length (pieceBytes u))%nat.
Proof.
  destruct u as [b|b|c encoding]; cbn [pieceBytes encodePiece]; intros Hl.
  - pose proof (escapeByte_length b).
    destruct (json.htmlSafeSet b); simpl; lia.
  - vm_compute. lia.
  - destruct (_ || _); [|lia].
    rewrite length_app. change (length (bytes "\u202")) with 5%nat.
    simpl. lia.
Qed.

Lemma flat_map_encodePiece_length (us : list piece) :
  Forall (fun u => (1 <= length (pieceBytes u) <= 4)%nat) us ->
  (length (flat_map pieceBytes us) <= length (flat_map encodePiece us)
   <= 6 * length (flat_map pieceBytes us))%nat.
Proof.
  induction 1 as [|u us Hu _ IH]; [simpl; lia|].
  cbn [flat_map]. rewrite !length_app.
  pose proof (encodePiece_length u Hu). lia.
Qed.

(** X19.  [appendString] writes, between the two quotes, at least as
    many bytes as the string has and at most six times as many. *)
Theorem appendString_length (value : string) (s : json.serializer) :
  exists body,
    json.appendString value s
    = Return (tt, json.withBuffer s (json.buffer s ++ [34] ++ body ++ [34]))
    /\ (length (bytes value) <= length body <= 6 * length (bytes value))%nat.
Proof.
  exists (flat_map encodePiece (pieces (bytes value))). split.
  - unfold json.appendString. by rewrite appendStringTo_pieces.
  - pose proof (flat_map_encodePiece_length (pieces (bytes value))
                  (cut_sizes _ _)) as Hl.
    assert (Hp : flat_map pieceBytes (pieces (bytes value)) = bytes value)
      by (by apply cut_partition).
    by rewrite Hp in Hl.
Qed.

End plain_facts.

(** The string [bob] is written as it is. *)
Lemma appendString_plain_witness :
  Forall (fun b => b < utf8.RuneSelf /\ json.htmlSafeSet b = true)
         (bytes "bob")
  /\ json.appendString "bob" json.newSerializer
     = Return (tt, json.withBuffer json.newSerializer (quoted "'bob'")).
Proof.
  assert (HF : Forall (fun b => b < utf8.RuneSelf /\ json.htmlSafeSet b = true)
                      (bytes "bob"))
    by (repeat constructor).
  split; [exact HF|].
  exact (appendString_plain "bob" json.newSerializer HF).
Defined.
